(** * bigOcaculator: the measurement engine and the complexity classifier

    A shallow embedding of [src/calculator.js] (functions
    [generateInputArray], [runAnalysis], [calculateRMSE] and
    [determineComplexity]) and the properties its specification states;
    then the code around it: the size lists and the analysis of [main],
    the way the callers read the confidence, [testSuite], the first
    version of the engine, and the two palindrome tests.

    JavaScript numbers are IEEE-754 binary64 values.  They are modelled by
    the Standard Library's executable specification of binary floating
    point, [spec_float], at precision 53 and maximal exponent 1024, so that
    NaN, the infinities, signed zeros and every rounding are the ones the
    program meets. *)

From Stdlib Require Import ZArith List Bool String Ascii Lia Permutation.
From Stdlib Require Import SpecFloat PrimFloat FloatOps.
Import ListNotations.

Set Implicit Arguments.
Set Warnings "-inexact-float".
Local Open Scope Z_scope.

(** ** JavaScript numbers *)

Module JsNum.

Definition number : Type := spec_float.

Definition NaN : number := S754_nan.
Definition Infinity : number := S754_infinity false.
Definition neg_Infinity : number := S754_infinity true.
Definition zero : number := S754_zero false.

Definition add (x y : number) : number := SFadd prec emax x y.
Definition sub (x y : number) : number := SFsub prec emax x y.
Definition mul (x y : number) : number := SFmul prec emax x y.
Definition div (x y : number) : number := SFdiv prec emax x y.
Definition sqrt (x : number) : number := SFsqrt prec emax x.
Definition ltb (x y : number) : bool := SFltb x y.
Definition leb (x y : number) : bool := SFleb x y.
Definition eqb (x y : number) : bool := SFeqb x y.
Definition gtb (x y : number) : bool := SFltb y x.
Definition geb (x y : number) : bool := SFleb y x.
Definition abs (x : number) : number := SFabs x.

(** The number that an integer denotes (the nearest one, for integers of
    more than 53 bits). *)
Definition of_Z (z : Z) : number := binary_normalize prec emax z 0 false.

Definition is_nan (x : number) : bool :=
  match x with S754_nan => true | _ => false end.

Definition is_finite (x : number) : bool :=
  match x with S754_zero _ | S754_finite _ _ _ => true | _ => false end.

(** ToBoolean on a number: [NaN], [+0] and [-0] are falsy. *)
Definition truthy (x : number) : bool :=
  match x with S754_nan | S754_zero _ => false | _ => true end.

(** [x || d] on numbers. *)
Definition or_else (x d : number) : number := if truthy x then x else d.

(** The sign bit, [true] for negative numbers and [-0]. *)
Definition sign_bit (x : number) : bool :=
  match x with
  | S754_zero s | S754_infinity s | S754_finite s _ _ => s
  | S754_nan => false
  end.

(** [Math.max] and [Math.min] of two numbers: NaN is contagious and
    [+0] is larger than [-0]. *)
Definition Math_max (x y : number) : number :=
  if is_nan x || is_nan y then NaN
  else if ltb x y then y
  else if ltb y x then x
  else if sign_bit x then y else x.

Definition Math_min (x y : number) : number :=
  if is_nan x || is_nan y then NaN
  else if ltb x y then x
  else if ltb y x then y
  else if sign_bit x then x else y.

(** The integer [floor (x + 1/2)] and the integers [floor x], [ceil x] and
    [trunc x] of a finite number [(-1)^s * m * 2^e]. *)
Definition signed (s : bool) (m : positive) : Z := cond_Zopp s (Zpos m).

Definition round_half_up_Z (s : bool) (m : positive) (e : Z) : Z :=
  if 0 <=? e then signed s m * 2 ^ e
  else (2 * signed s m + 2 ^ (- e)) / 2 ^ (- e + 1).

Definition floor_Z (s : bool) (m : positive) (e : Z) : Z :=
  if 0 <=? e then signed s m * 2 ^ e else signed s m / 2 ^ (- e).

Definition ceil_Z (s : bool) (m : positive) (e : Z) : Z :=
  - floor_Z (negb s) m e.

Definition trunc_Z (s : bool) (m : positive) (e : Z) : Z :=
  if s then ceil_Z s m e else floor_Z s m e.

(** [Math.round]: the nearest integer, ties towards [+Infinity]; a result
    that is zero keeps the sign of the argument. *)
Definition Math_round (x : number) : number :=
  match x with
  | S754_finite s m e =>
      if 0 <=? e then x
      else binary_normalize prec emax (round_half_up_Z s m e) 0 s
  | _ => x
  end.

(** [Math.ceil]. *)
Definition Math_ceil (x : number) : number :=
  match x with
  | S754_finite s m e =>
      if 0 <=? e then x
      else binary_normalize prec emax (ceil_Z s m e) 0 s
  | _ => x
  end.

(** *** The natural logarithm

    ECMAScript fixes [Math.log] on NaN, on negative numbers, on the zeros,
    on 1 and on [+Infinity], and leaves it implementation-approximated
    elsewhere, where an engine may return a neighbour of the nearest
    number.  The model returns the binary64 number nearest to the real
    logarithm, computed in fixed point with [log_bits] fractional bits:
    [ln (m * 2^k) = 2 atanh ((m - 1) / (m + 1)) + k * 2 atanh (1/3)]
    for [1 <= m < 2]. *)

Definition log_bits : Z := 200.

(** [sum_{i < fuel} z^(2(j+i)+1) / (2(j+i)+1)], everything scaled by
    [2^log_bits]; [p] is the current odd power of [z] and [z2] is [z^2]. *)
Fixpoint atanh_series (fuel : nat) (j : Z) (p z2 acc : Z) : Z :=
  match fuel with
  | O => acc
  | S fuel' =>
      atanh_series fuel' (j + 1) (p * z2 / 2 ^ log_bits) z2
                   (acc + p / (2 * j + 1))
  end.

Definition atanh_fix (num den : Z) : Z :=
  let z := num * 2 ^ log_bits / den in
  atanh_series 80 0 z (z * z / 2 ^ log_bits) 0.

Definition ln2_fix : Z := 2 * atanh_fix 1 3.

Definition ln_fix (m : positive) (e : Z) : Z :=
  let d := Zpos (digits2_pos m) in
  let one := 2 ^ (d - 1) in
  2 * atanh_fix (Zpos m - one) (Zpos m + one) + (e + d - 1) * ln2_fix.

Definition Math_log (x : number) : number :=
  match x with
  | S754_nan => NaN
  | S754_zero _ => neg_Infinity
  | S754_infinity false => Infinity
  | S754_infinity true => NaN
  | S754_finite true _ _ => NaN
  | S754_finite false m e =>
      binary_normalize prec emax (ln_fix m e) (- log_bits) false
  end.

End JsNum.

Import JsNum.

Declare Scope js_scope.
Delimit Scope js_scope with js.
Bind Scope js_scope with number.
Infix "+" := add : js_scope.
Infix "-" := sub : js_scope.
Infix "*" := mul : js_scope.
Infix "/" := div : js_scope.
Infix "<?" := ltb : js_scope.
Infix ">?" := gtb : js_scope.
Infix ">=?" := geb : js_scope.

(** Number literals of the source, as the nearest binary64 number. *)
Definition lit (f : PrimFloat.float) : number := Prim2SF f.


(** ** Completions: a call returns a value or throws an error object *)

Inductive JsError : Type :=
| mkError (name message : string)
| mkWrapped (name message : string) (cause : JsError).

Definition err_name (e : JsError) : string :=
  match e with mkError n _ | mkWrapped n _ _ => n end.
Definition err_message (e : JsError) : string :=
  match e with mkError _ m | mkWrapped _ m _ => m end.
Definition err_cause (e : JsError) : option JsError :=
  match e with mkError _ _ => None | mkWrapped _ _ c => Some c end.

Inductive completion (A : Type) : Type :=
| Return (a : A)
| Throw (e : JsError).
Arguments Return {A} a.
Arguments Throw {A} e.

Definition bind {A B : Type} (c : completion A) (k : A -> completion B)
  : completion B :=
  match c with
  | Return a => k a
  | Throw e => Throw e
  end.

Notation "x <- c ;; k" := (bind c (fun x => k))
  (at level 61, c at next level, right associativity).

(** What the engine throws when a property of [undefined] is read. *)
Definition TypeError_undefined : JsError :=
  mkError "TypeError" "Cannot read properties of undefined".

(** ** The functions of [simple-statistics] the program calls

    [simple-statistics] is a dependency of the program, not part of it.
    These are the functions of that library the program calls, as the
    library defines them: [sum] is the Kahan-Babuska summation, [mean]
    divides it by the length and throws on an empty array, [variance] is
    the mean of the squared deviations, [max] keeps the larger element, and
    [linearRegression] is the least-squares line computed from the sums of
    [x], [y], [x * x] and [x * y], with slope 0 through a single point.
    The program does not fix the version of the library.  The sums are the
    ones of its versions up to 7.11; a version that centres the data
    before it sums them computes the same line up to rounding, so that
    the last digits of an RMSE may differ. *)

Module ss.

Definition sum_step (st : number * number) (xi : number) : number * number :=
  let '(sum, correction) := st in
  let transition := (sum + xi)%js in
  let correction' :=
    if (abs sum >=? abs xi)%js
    then (correction + (sum - transition + xi))%js
    else (correction + (xi - transition + sum))%js in
  (transition, correction').

Definition sum (x : list number) : number :=
  match x with
  | [] => zero
  | x0 :: rest =>
      let '(s, correction) := fold_left sum_step rest (x0, zero) in
      (s + correction)%js
  end.

Definition length_of {A : Type} (x : list A) : number :=
  of_Z (Z.of_nat (List.length x)).

Definition mean (x : list number) : completion number :=
  match x with
  | [] => Throw (mkError "Error" "mean requires at least one data point")
  | _ => Return (sum x / length_of x)%js
  end.

Definition sumNthPowerDeviations2 (x : list number) : completion number :=
  meanValue <- mean x ;;
  Return (fold_left
            (fun sum xi => let tempValue := (xi - meanValue)%js in
                           (sum + tempValue * tempValue)%js)
            x zero).

Definition variance (x : list number) : completion number :=
  match x with
  | [] =>
      Throw (mkError "Error" "variance requires at least one data point")
  | _ => s <- sumNthPowerDeviations2 x ;; Return (s / length_of x)%js
  end.

Definition max (x : list number) : completion number :=
  match x with
  | [] => Throw (mkError "Error" "max requires at least one data point")
  | x0 :: rest =>
      Return (fold_left (fun value xi => if (xi >? value)%js then xi else value)
                        rest x0)
  end.

Record line : Type := mkLine { m : number; b : number }.

Record sums : Type :=
  mkSums { sumX : number; sumY : number; sumXX : number; sumXY : number }.

Definition sums_step (s : sums) (point : number * number) : sums :=
  let '(x, y) := point in
  {| sumX := (sumX s + x)%js;
     sumY := (sumY s + y)%js;
     sumXX := (sumXX s + x * x)%js;
     sumXY := (sumXY s + x * y)%js |}.

Definition linearRegression (data : list (number * number)) : line :=
  match data with
  | [(_, y)] => {| m := zero; b := y |}
  | _ =>
      let dataLength := length_of data in
      let s := fold_left sums_step data (mkSums zero zero zero zero) in
      let m := ((dataLength * sumXY s - sumX s * sumY s)
                / (dataLength * sumXX s - sumX s * sumX s))%js in
      let b := (sumY s / dataLength - (m * sumX s) / dataLength)%js in
      {| m := m; b := b |}
  end.

Definition linearRegressionLine (mb : line) (x : number) : number :=
  (b mb + m mb * x)%js.

End ss.

(** ** Data points *)

Module DataPoint.
Record t : Type := mk { n : number; time : number }.
End DataPoint.

(** ** The classifier *)

Module Model.
Record t : Type := mk { type : string; rmse : number; complexity : Z }.
End Model.

Module ModelFit.
Record t : Type := mk { type : string; rmse : number }.
End ModelFit.

Module AnalysisResult.
Record t : Type :=
  mk { bestFit : string; confidence : number; results : list ModelFit.t }.
End AnalysisResult.

(** [hay.includes(needle)] *)
Fixpoint includes (needle hay : string) : bool :=
  if String.prefix needle hay then true
  else match hay with
       | EmptyString => false
       | String _ hay' => includes needle hay'
       end.

(** [x ** 2] *)
Definition square (x : number) : number := (x * x)%js.

(** [Array.prototype.sort] with a comparator: a stable insertion sort; an
    element moves in front of the ones the comparator puts strictly after
    it.  Every conforming engine returns this order when the comparator is a
    consistent order, which a difference of keys is when every key is
    finite; where a difference is NaN the order is left to the engine,
    and only the elements of the result are fixed. *)
Section Sort.
Context {A : Type} (compareFn : A -> A -> number).

(** Insertion into the sorted prefix, which is kept in reverse. *)
Fixpoint insert_from_right (x : A) (rev_sorted : list A) : list A :=
  match rev_sorted with
  | [] => [x]
  | y :: rest =>
      if (compareFn y x >? zero)%js
      then y :: insert_from_right x rest
      else x :: rev_sorted
  end.

Definition Array_sort (a : list A) : list A :=
  rev (fold_left (fun rev_sorted x => insert_from_right x rev_sorted) a []).
End Sort.

(** [calculateRMSE]; reading [predicted\[i\]] past the end gives
    [undefined], which the subtraction turns into NaN. *)
Fixpoint sumSquaredErrors (actual predicted : list number) (sum : number)
  : number :=
  match actual with
  | [] => sum
  | val :: actual' =>
      sumSquaredErrors actual' (tl predicted)
                       (sum + square (val - hd NaN predicted))%js
  end.

Definition calculateRMSE (actual predicted : list number) : number :=
  sqrt (sumSquaredErrors actual predicted zero / ss.length_of actual)%js.

Definition tolerance : number := lit 0.15%float.
Definition noiseFloor : number := lit 1e-9%float.

Definition getRegressionRMSE (dataPoints : list DataPoint.t)
           (transformFn : number -> number) : number :=
  let timeValues := map DataPoint.time dataPoints in
  let data :=
    map (fun d => (transformFn (DataPoint.n d), DataPoint.time d)) dataPoints in
  let model := ss.linearRegression data in
  let line := ss.linearRegressionLine model in
  let predictions :=
    map (fun d => line (transformFn (DataPoint.n d))) dataPoints in
  calculateRMSE timeValues predictions.

Definition is_O1 (m : Model.t) : bool := includes "O(1)" (Model.type m).
Definition is_Olog (m : Model.t) : bool := includes "O(log n)" (Model.type m).

(** [(candidate.rmse - bestModel.rmse) / (bestModel.rmse || 1e-9)] *)
Definition diff_of (candidate bestModel : Model.t) : number :=
  ((Model.rmse candidate - Model.rmse bestModel)
   / or_else (Model.rmse bestModel) (lit 1e-9%float))%js.

(** [meanTime > 0 ? meanTime : 1] *)
Definition signalMagnitude_of (meanTime : number) : number :=
  if (meanTime >? zero)%js then meanTime else lit 1%float.

(** One turn of the loop over the sorted models. *)
Definition occam_step (models : list Model.t) (meanTime : number)
           (bestModel candidate : Model.t) : Model.t :=
  let bestModel :=
    if Model.complexity candidate <? Model.complexity bestModel then
      let diff := diff_of candidate bestModel in
      if (diff <? tolerance)%js then candidate else bestModel
    else bestModel in
  if is_Olog bestModel then
    match find is_O1 models with
    | Some o1_model =>
        if (Model.rmse o1_model <? Model.rmse bestModel * lit 3%float)%js then
          let signalMagnitude := signalMagnitude_of meanTime in
          let normalizedError := (Model.rmse bestModel / signalMagnitude)%js in
          if (normalizedError <? lit 0.1%float)%js then o1_model else bestModel
        else bestModel
    | None => bestModel
    end
  else bestModel.

Definition by_rmse (a b : Model.t) : number := (Model.rmse a - Model.rmse b)%js.

(** The five model objects are distinct and have distinct ranks: two of
    them are the same object exactly when their ranks are equal. *)
Definition same_object (a b : Model.t) : bool :=
  Model.complexity a =? Model.complexity b.

(** The confidence when the RMSE of the choice is not below the noise
    floor; [sortedByFit] is a sorted copy of [models]. *)
Definition confidence_blend (sortedByFit : list Model.t) (meanTime : number)
           (bestModel : Model.t) : number :=
  let signalMagnitude := signalMagnitude_of meanTime in
  let normalizedError := (Model.rmse bestModel / signalMagnitude)%js in
  let fitQuality :=
    Math_max zero (lit 1%float - normalizedError * lit 2%float)%js in
  let secondBest :=
    match sortedByFit with
    | first :: rest =>
        if same_object first bestModel then nth_error sortedByFit 1
        else Some first
    | [] => None
    end in
  let separation :=
    match secondBest with
    | Some secondBest =>
        Math_min (lit 1%float)
                 ((Model.rmse secondBest - Model.rmse bestModel)
                  / or_else (Model.rmse secondBest) (lit 1%float))%js
    | None => zero
    end in
  ((fitQuality * lit 0.7%float + separation * lit 0.3%float)
   * lit 100%float)%js.

Definition confidence_of (models : list Model.t) (meanTime : number)
           (bestModel : Model.t) : number :=
  if (Model.rmse bestModel <? noiseFloor)%js then lit 100%float
  else confidence_blend (Array_sort by_rmse models) meanTime bestModel.

Definition the_models (constantRMSE logRMSE linearRMSE nLogNRMSE quadraticRMSE
                       : number) : list Model.t :=
  [ Model.mk "O(1) - Constant" constantRMSE 1;
    Model.mk "O(log n) - Logarithmic" logRMSE 2;
    Model.mk "O(n) - Linear" linearRMSE 3;
    Model.mk "O(n log n) - Linear-ithmic" nLogNRMSE 4;
    Model.mk "O(n^2) - Quadratic" quadraticRMSE 5 ].

(** The five fits, in the order the source lists them. *)
Definition fit_models (dataPoints : list DataPoint.t) (meanTime : number)
  : list Model.t :=
  let nValues := map DataPoint.n dataPoints in
  let timeValues := map DataPoint.time dataPoints in
  let constantPredictions := map (fun _ => meanTime) nValues in
  let constantRMSE := calculateRMSE timeValues constantPredictions in
  let linearRMSE := getRegressionRMSE dataPoints (fun n => n) in
  let quadraticRMSE := getRegressionRMSE dataPoints (fun n => square n) in
  let logRMSE := getRegressionRMSE dataPoints (fun n => Math_log n) in
  let nLogNRMSE :=
    getRegressionRMSE dataPoints (fun n => (n * Math_log n)%js) in
  the_models constantRMSE logRMSE linearRMSE nLogNRMSE quadraticRMSE.

(** The loop over [models\[1\]], [models\[2\]], ... from [models\[0\]]. *)
Definition occam_scan (models : list Model.t) (meanTime : number)
           (first : Model.t) (rest : list Model.t) : Model.t :=
  fold_left (occam_step models meanTime) rest first.

(** The test of the final check: extremely low and flat timings. *)
Definition low_and_flat (maxTime timeVariance meanTime : number) : bool :=
  (maxTime <? lit 0.001%float)%js
  && (timeVariance / meanTime <? lit 0.1%float)%js.

Definition by_fit_rmse (a b : ModelFit.t) : number :=
  (ModelFit.rmse a - ModelFit.rmse b)%js.

Definition fit_of (m : Model.t) : ModelFit.t :=
  ModelFit.mk (Model.type m) (Model.rmse m).

Definition determineComplexity (dataPoints : list DataPoint.t)
  : completion AnalysisResult.t :=
  let timeValues := map DataPoint.time dataPoints in
  meanTime <- ss.mean timeValues ;;
  let models := Array_sort by_rmse (fit_models dataPoints meanTime) in
  match models with
  | [] => Throw TypeError_undefined
  | first :: rest =>
      let bestModel := occam_scan models meanTime first rest in
      timeVariance <- ss.variance timeValues ;;
      maxTime <- ss.max timeValues ;;
      let bestModel :=
        if low_and_flat maxTime timeVariance meanTime
        then find is_O1 models
        else Some bestModel in
      match bestModel with
      | None => Throw TypeError_undefined
      | Some bestModel =>
          let confidence := confidence_of models meanTime bestModel in
          let results := Array_sort by_fit_rmse (map fit_of models) in
          Return (AnalysisResult.mk (Model.type bestModel)
                                    (Math_round confidence) results)
      end
  end.

(** The models of a classification, sorted by RMSE. *)
Definition sorted_models (dataPoints : list DataPoint.t)
  : completion (list Model.t) :=
  meanTime <- ss.mean (map DataPoint.time dataPoints) ;;
  Return (Array_sort by_rmse (fit_models dataPoints meanTime)).

(** *** The simplicity rule in the words of the specification

    "The simplest model whose RMSE is within the 15% relative tolerance of
    the best available fit": among the models [m] with
    [(m.rmse - lowest.rmse) / lowest.rmse < 0.15], one of the lowest
    complexity rank. *)
Definition spec_within_tolerance (lowest m : Model.t) : bool :=
  ((Model.rmse m - Model.rmse lowest) / Model.rmse lowest <? tolerance)%js.

Definition spec_simpler_of (a b : Model.t) : Model.t :=
  if Model.complexity b <? Model.complexity a then b else a.

Definition spec_simplest_within_tolerance (models : list Model.t)
  : option Model.t :=
  match models with
  | [] => None
  | lowest :: _ =>
      Some (fold_left spec_simpler_of
                      (filter (spec_within_tolerance lowest) models) lowest)
  end.

(** ** The classifier on the store

    The same function once more, with the objects it is given and the
    objects it makes laid out in a store, so that what it writes can be
    told from what it only reads.  An array of data points is a reference
    to an array object whose elements are references to records with the
    fields [n] and [time].  The numeric work is the one of the functions
    above; every array the source builds ([map], the literal [models],
    the copy [\[...models\]]) is allocated, and every [sort] writes the
    array it is called on. *)

Module Store.

Inductive Value : Type :=
| VNum (x : number)
| VStr (s : string)
| VRef (l : nat)
| VUndefined.

Inductive Obj : Type :=
| OArray (elems : list Value)
| ORecord (fields : list (string * Value)).

Definition t : Type := list Obj.

Definition HM (A : Type) : Type := t -> completion A * t.

Definition ret {A : Type} (a : A) : HM A := fun h => (Return a, h).

Definition fail {A : Type} (e : JsError) : HM A := fun h => (Throw e, h).

Definition bind {A B : Type} (c : HM A) (k : A -> HM B) : HM B :=
  fun h =>
    match c h with
    | (Return a, h') => k a h'
    | (Throw e, h') => (Throw e, h')
    end.

Definition lift {A : Type} (c : completion A) : HM A := fun h => (c, h).

Notation "x <~ c ;; k" := (bind c (fun x => k))
  (at level 61, c at next level, right associativity).

(** A new object, at the first free location. *)
Definition alloc (o : Obj) : HM Value :=
  fun h => (Return (VRef (List.length h)), h ++ [o]).

(** The object a value refers to. *)
Definition deref (v : Value) : HM Obj :=
  fun h =>
    match v with
    | VRef l =>
        match nth_error h l with
        | Some o => (Return o, h)
        | None => (Throw TypeError_undefined, h)
        end
    | _ => (Throw TypeError_undefined, h)
    end.

Fixpoint update (l : nat) (o : Obj) (h : t) : t :=
  match h, l with
  | [], _ => []
  | _ :: h', O => o :: h'
  | x :: h', S l' => x :: update l' o h'
  end.

(** Overwriting the object a value refers to. *)
Definition store (v : Value) (o : Obj) : HM unit :=
  fun h =>
    match v with
    | VRef l => (Return tt, update l o h)
    | _ => (Throw TypeError_undefined, h)
    end.

Fixpoint field (name : string) (fields : list (string * Value)) : Value :=
  match fields with
  | [] => VUndefined
  | (k, v) :: fields' => if String.eqb k name then v else field name fields'
  end.

(** [v.name]: a property of [undefined] cannot be read, and a number or a
    string has none of the properties read here. *)
Definition get (v : Value) (name : string) : HM Value :=
  match v with
  | VRef _ =>
      o <~ deref v ;;
      ret match o with
          | ORecord fields => field name fields
          | OArray _ => VUndefined
          end
  | VUndefined => fail TypeError_undefined
  | _ => ret VUndefined
  end.

(** The number a value stands for in arithmetic; what is not a number
    counts as NaN. *)
Definition ToNumber (v : Value) : number :=
  match v with VNum x => x | _ => NaN end.

Definition ToString (v : Value) : string :=
  match v with VStr s => s | _ => EmptyString end.

Definition ToZ (v : Value) : Z :=
  match v with
  | VNum (S754_finite s m e) => trunc_Z s m e
  | _ => 0
  end.

Definition elements (arr : Value) : HM (list Value) :=
  o <~ deref arr ;;
  match o with
  | OArray elems => ret elems
  | ORecord _ => fail TypeError_undefined
  end.

Fixpoint mapM {A B : Type} (f : A -> HM B) (l : list A) : HM (list B) :=
  match l with
  | [] => ret []
  | x :: l' => y <~ f x ;; ys <~ mapM f l' ;; ret (y :: ys)
  end.

(** [arr.map(f)]: a new array. *)
Definition Array_map (f : Value -> HM Value) (arr : Value) : HM Value :=
  elems <~ elements arr ;;
  vs <~ mapM f elems ;;
  alloc (OArray vs).

Definition numbers (arr : Value) : HM (list number) :=
  elems <~ elements arr ;; ret (map ToNumber elems).

(** [arr.sort((a, b) => a.rmse - b.rmse)]: the array object is
    overwritten with its elements in sorted order. *)
Definition sort_by_rmse (arr : Value) : HM unit :=
  elems <~ elements arr ;;
  keys <~ mapM (fun v => r <~ get v "rmse" ;; ret (ToNumber r)) elems ;;
  let sorted :=
    Array_sort (fun a b => (snd a - snd b)%js) (combine elems keys) in
  store arr (OArray (map fst sorted)).

Definition model_object (m : Model.t) : Obj :=
  ORecord [("type"%string, VStr (Model.type m));
           ("rmse"%string, VNum (Model.rmse m));
           ("complexity"%string, VNum (of_Z (Model.complexity m)))].

Definition read_model (v : Value) : HM Model.t :=
  type <~ get v "type" ;;
  rmse <~ get v "rmse" ;;
  complexity <~ get v "complexity" ;;
  ret (Model.mk (ToString type) (ToNumber rmse) (ToZ complexity)).

Definition getRegressionRMSE (dataPoints : Value) (timeValues : list number)
           (transformFn : number -> number) : HM number :=
  data <~ Array_map
            (fun d =>
               n <~ get d "n" ;;
               time <~ get d "time" ;;
               alloc (OArray [VNum (transformFn (ToNumber n)); time]))
            dataPoints ;;
  points <~ elements data ;;
  pairs <~ mapM (fun p =>
                   xy <~ elements p ;;
                   ret (ToNumber (nth 0 xy VUndefined),
                        ToNumber (nth 1 xy VUndefined)))
                points ;;
  let mb := ss.linearRegression pairs in
  model <~ alloc (ORecord [("m"%string, VNum (ss.m mb));
                           ("b"%string, VNum (ss.b mb))]) ;;
  predictions <~ Array_map
                   (fun d =>
                      n <~ get d "n" ;;
                      ret (VNum (ss.linearRegressionLine
                                   mb (transformFn (ToNumber n)))))
                   dataPoints ;;
  predicted <~ numbers predictions ;;
  ret (calculateRMSE timeValues predicted).

Definition confidence (models : Value) (meanTime : number)
           (bestModel : Model.t) : HM number :=
  if (Model.rmse bestModel <? noiseFloor)%js then ret (lit 100%float)
  else
    sortedByFit <~ Array_map ret models ;;
    _ <~ sort_by_rmse sortedByFit ;;
    sorted <~ elements sortedByFit ;;
    sorted <~ mapM read_model sorted ;;
    ret (confidence_blend sorted meanTime bestModel).

Definition determineComplexity (dataPoints : Value) : HM Value :=
  nValues <~ Array_map (fun d => get d "n") dataPoints ;;
  timeValues <~ Array_map (fun d => get d "time") dataPoints ;;
  times <~ numbers timeValues ;;
  meanTime <~ lift (ss.mean times) ;;
  constantPredictions <~ Array_map (fun _ => ret (VNum meanTime)) nValues ;;
  predicted <~ numbers constantPredictions ;;
  let constantRMSE := calculateRMSE times predicted in
  linearRMSE <~ getRegressionRMSE dataPoints times (fun n => n) ;;
  quadraticRMSE <~ getRegressionRMSE dataPoints times (fun n => square n) ;;
  logRMSE <~ getRegressionRMSE dataPoints times (fun n => Math_log n) ;;
  nLogNRMSE <~ getRegressionRMSE dataPoints times
                 (fun n => (n * Math_log n)%js) ;;
  objects <~ mapM alloc
               (map model_object
                    (the_models constantRMSE logRMSE linearRMSE nLogNRMSE
                                quadraticRMSE)) ;;
  models <~ alloc (OArray objects) ;;
  _ <~ sort_by_rmse models ;;
  sorted <~ elements models ;;
  sorted <~ mapM read_model sorted ;;
  match sorted with
  | [] => fail TypeError_undefined
  | first :: rest =>
      let bestModel := occam_scan sorted meanTime first rest in
      timeVariance <~ lift (ss.variance times) ;;
      maxTime <~ lift (ss.max times) ;;
      let bestModel :=
        if low_and_flat maxTime timeVariance meanTime
        then find is_O1 sorted
        else Some bestModel in
      match bestModel with
      | None => fail TypeError_undefined
      | Some bestModel =>
          confidence <~ confidence models meanTime bestModel ;;
          results <~ Array_map
                       (fun m =>
                          type <~ get m "type" ;;
                          rmse <~ get m "rmse" ;;
                          alloc (ORecord [("type"%string, type);
                                          ("rmse"%string, rmse)]))
                       models ;;
          _ <~ sort_by_rmse results ;;
          alloc (ORecord [("bestFit"%string, VStr (Model.type bestModel));
                          ("confidence"%string,
                           VNum (Math_round confidence));
                          ("results"%string, results)])
      end
  end.

(** A list of data points laid out in a store that is empty before, and
    the reference to its array. *)
Definition lay_out (dataPoints : list DataPoint.t) : t * Value :=
  (map (fun d => ORecord [("n"%string, VNum (DataPoint.n d));
                          ("time"%string, VNum (DataPoint.time d))])
       dataPoints
   ++ [OArray (map VRef (seq 0 (List.length dataPoints)))],
   VRef (List.length dataPoints)).

(** The result object read back. *)
Definition read_result (v : Value) : HM AnalysisResult.t :=
  bestFit <~ get v "bestFit" ;;
  confidence <~ get v "confidence" ;;
  results <~ get v "results" ;;
  fits <~ elements results ;;
  fits <~ mapM (fun f =>
                  type <~ get f "type" ;;
                  rmse <~ get f "rmse" ;;
                  ret (ModelFit.mk (ToString type) (ToNumber rmse)))
               fits ;;
  ret (AnalysisResult.mk (ToString bestFit) (ToNumber confidence) fits).

(** The classification of a list of data points through the store. *)
Definition classify_list (dataPoints : list DataPoint.t)
  : completion AnalysisResult.t :=
  let '(h, v) := lay_out dataPoints in
  let '(r, h') := determineComplexity v h in
  match r with
  | Return result => fst (read_result result h')
  | Throw e => Throw e
  end.

(** The store [h] is as [h0] was at every location of [h0]. *)
Definition frame (h0 h : t) : Prop :=
  (List.length h0 <= List.length h)%nat
  /\ forall l, (l < List.length h0)%nat -> nth_error h l = nth_error h0 l.

(** A value that does not refer into [h0]. *)
Definition fresh (h0 : t) (v : Value) : Prop :=
  match v with VRef l => (List.length h0 <= l)%nat | _ => True end.

(** The condition that holds of every value. *)
Definition any {A : Type} (_ : A) : Prop := True.

(** From any store that is as [h0] at the locations of [h0], [c] leads to
    such a store again, and the values it returns satisfy [Q]. *)
Definition keeps {A : Type} (h0 : t) (c : HM A) (Q : A -> Prop) : Prop :=
  forall h,
    frame h0 h ->
    frame h0 (snd (c h)) /\ forall a, fst (c h) = Return a -> Q a.

End Store.

(** ** The measurement engine *)

(** [ToLength]: NaN and everything below 1 give 0, the fraction is dropped,
    and the result is capped at [2^53 - 1]. *)
Definition ToLength (x : number) : Z :=
  match x with
  | S754_nan | S754_zero _ | S754_infinity true => 0
  | S754_infinity false => 2 ^ 53 - 1
  | S754_finite s m e => Z.min (Z.max 0 (trunc_Z s m e)) (2 ^ 53 - 1)
  end.

Definition RangeError_length : JsError :=
  mkError "RangeError" "Invalid array length".

(** [generateInputArray]: [Array.from({ length: n }, (_, i) => i)].  The
    array constructor refuses a length above [2^32 - 1]. *)
Definition generateInputArray (n : number) : completion (list number) :=
  let len := ToLength n in
  if len >? 2 ^ 32 - 1 then Throw RangeError_length
  else Return (map (fun i => of_Z (Z.of_nat i)) (seq 0 (Z.to_nat len))).

(** What a run of the engine can observe: invocations of the algorithm
    under test, with the array passed and the error thrown if any, and
    readings of [performance.now()]. *)
Inductive Event : Type :=
| EvCall (arg : list number) (thrown : option JsError)
| EvNow (t : number).

Definition threw (ev : Event) : option JsError :=
  match ev with EvCall _ t => t | EvNow _ => None end.

Definition is_call (ev : Event) : bool :=
  match ev with EvCall _ _ => true | EvNow _ => false end.

Section Engine.

(** The algorithm under test is any function of its own state and of the
    array it is given; it may change both and may throw.  The clock is any
    sequence of readings. *)
Variable AlgState : Type.
Variable algorithm :
  AlgState -> list number -> AlgState * list number * option JsError.
Variable clock : nat -> number.

(** The state of a run; [trace] holds the events, the latest first. *)
Record World : Type :=
  mkWorld { alg_state : AlgState; reads : nat; trace : list Event }.

(** A run either completes, normally or abruptly, or is still going when
    the step budget of its loops is used up. *)
Inductive outcome (A : Type) : Type :=
| Done (c : completion A) (w : World)
| Timeout (w : World).
Arguments Done {A} c w.
Arguments Timeout {A} w.

Definition M (A : Type) : Type := World -> outcome A.

Definition ret {A : Type} (a : A) : M A := fun w => Done (Return a) w.

Definition throw {A : Type} (e : JsError) : M A := fun w => Done (Throw e) w.

Definition mbind {A B : Type} (c : M A) (k : A -> M B) : M B :=
  fun w =>
    match c w with
    | Done (Return a) w' => k a w'
    | Done (Throw e) w' => Done (Throw e) w'
    | Timeout w' => Timeout w'
    end.

Definition lift {A : Type} (c : completion A) : M A := fun w => Done c w.

(** [performance.now()] *)
Definition now : M number :=
  fun w =>
    let t := clock (reads w) in
    Done (Return t)
         (mkWorld (alg_state w) (S (reads w)) (EvNow t :: trace w)).

(** [algorithm(array)]: the array is shared with the callee, so the caller
    goes on with the array as the callee left it. *)
Definition call (array : list number) : M (list number) :=
  fun w =>
    let '(s', array', thrown) := algorithm (alg_state w) array in
    let w' := mkWorld s' (reads w) (EvCall array thrown :: trace w) in
    match thrown with
    | Some e => Done (Throw e) w'
    | None => Done (Return array') w'
    end.

Local Notation "x <-- c ;; k" := (mbind c (fun x => k))
  (at level 61, c at next level, right associativity).

(** [for (let i = 0; i < bound; i++) body], on a loop state [S]. *)
Fixpoint for_lt {S : Type} (fuel : nat) (i : Z) (bound : number)
         (body : S -> M S) (st : S) : M S :=
  if (of_Z i <? bound)%js then
    match fuel with
    | O => fun w => Timeout w
    | Datatypes.S fuel' =>
        st' <-- body st ;; for_lt fuel' (i + 1) bound body st'
    end
  else ret st.

(** [while (cond) body] *)
Fixpoint while {S : Type} (fuel : nat) (cond : S -> bool)
         (body : S -> M S) (st : S) : M S :=
  if cond st then
    match fuel with
    | O => fun w => Timeout w
    | Datatypes.S fuel' => st' <-- body st ;; while fuel' cond body st'
    end
  else ret st.

(** The warm-up block. *)
Definition warmup (fuel : nat) (inputSizes : list number) : M unit :=
  match inputSizes with
  | [] => ret tt
  | warmupSize :: _ =>
      warmupArray <-- lift (generateInputArray warmupSize) ;;
      _ <-- for_lt fuel 0 (lit 100%float) call warmupArray ;;
      ret tt
  end.

(** The calibration loop and its variables. *)
Record Calibration : Type :=
  mkCal { calibrationArray : list number; calEnd : number; calCount : Z }.

Definition cal_cond (calStart : number) (c : Calibration) : bool :=
  (calEnd c - calStart <? lit 5%float)%js && (calCount c <? 1000000).

Definition cal_body (c : Calibration) : M Calibration :=
  array <-- call (calibrationArray c) ;;
  t <-- now ;;
  ret (mkCal array t (calCount c + 1)).

Definition calibrate (fuel : nat) (n : number) : M (number * Z) :=
  calibrationArray <-- lift (generateInputArray n) ;;
  calStart <-- now ;;
  c <-- while fuel (cal_cond calStart) cal_body
        (mkCal calibrationArray calStart 0) ;;
  ret ((calEnd c - calStart)%js, calCount c).

Definition batchSize_of (calDuration : number) (calCount : Z) : number :=
  if 1 <? calCount then
    Math_ceil ((lit 15%float * of_Z calCount)
               / or_else calDuration (lit 0.001%float))%js
  else lit 1%float.

(** One timed batch on a fresh array; it adds a sample to [times]. *)
Definition timed_batch (fuel : nat) (n batchSize : number)
           (times : list number) : M (list number) :=
  array <-- lift (generateInputArray n) ;;
  start <-- now ;;
  _ <-- for_lt fuel 0 batchSize call array ;;
  end_ <-- now ;;
  ret (times ++ [((end_ - start) / batchSize)%js]).

(** The body of the loop over the requested sizes. *)
Definition measure_size (fuel : nat) (iterations : number)
           (dataPoints : list DataPoint.t) (n : number)
  : M (list DataPoint.t) :=
  cal <-- calibrate fuel n ;;
  let '(calDuration, calCount) := cal in
  let batchSize := batchSize_of calDuration calCount in
  times <-- for_lt fuel 0 iterations (timed_batch fuel n batchSize) [] ;;
  avgTime <-- lift (ss.mean times) ;;
  ret (dataPoints ++ [DataPoint.mk n avgTime]).

Fixpoint for_of {S A : Type} (body : S -> A -> M S) (items : list A) (st : S)
  : M S :=
  match items with
  | [] => ret st
  | x :: items' => st' <-- body st x ;; for_of body items' st'
  end.

Definition runAnalysis (fuel : nat) (inputSizes : list number)
           (iterations : number) : M (list DataPoint.t) :=
  _ <-- warmup fuel inputSizes ;;
  for_of (measure_size fuel iterations) inputSizes [].

End Engine.

Arguments Done {AlgState A} c w.
Arguments Timeout {AlgState A} w.

(** ** Vocabulary of the properties *)

Definition point (n time : PrimFloat.float) : DataPoint.t :=
  DataPoint.mk (lit n) (lit time).

(** A replacement of the current best model during the scan: by a model
    of lower rank whose RMSE exceeds the current one's by less than the
    tolerance, or of the logarithmic model by the constant one. *)
Inductive adopts (models : list Model.t) (meanTime : number)
          (best next : Model.t) : Prop :=
| adopts_simpler :
    In next models ->
    Model.complexity next < Model.complexity best ->
    (diff_of next best <? tolerance)%js = true ->
    adopts models meanTime best next
| adopts_constant :
    is_Olog best = true ->
    find is_O1 models = Some next ->
    (Model.rmse next <? Model.rmse best * lit 3%float)%js = true ->
    (Model.rmse best / signalMagnitude_of meanTime <? lit 0.1%float)%js
    = true ->
    adopts models meanTime best next.

Inductive adoption_chain (models : list Model.t) (meanTime : number)
          (first : Model.t) : Model.t -> Prop :=
| chain_start : adoption_chain models meanTime first first
| chain_adopt best next :
    adoption_chain models meanTime first best ->
    adopts models meanTime best next ->
    adoption_chain models meanTime first next.

(** The test of the loop on a candidate: it is simpler than the current
    best, and its RMSE exceeds that of the current best by less than the
    tolerance. *)
Definition passes (best candidate : Model.t) : Prop :=
  Model.complexity candidate < Model.complexity best
  /\ (diff_of candidate best <? tolerance)%js = true.

(** The special check of the loop: the current best is the logarithmic
    model, the constant model [o1] has less than 3 times its RMSE, and
    its RMSE is below 10% of the signal. *)
Definition yields_to_constant (models : list Model.t) (meanTime : number)
           (best o1 : Model.t) : Prop :=
  is_Olog best = true
  /\ find is_O1 models = Some o1
  /\ (Model.rmse o1 <? Model.rmse best * lit 3%float)%js = true
  /\ (Model.rmse best / signalMagnitude_of meanTime <? lit 0.1%float)%js
     = true.

(** One turn of the loop, as a rule: the candidate replaces the current
    best exactly when it passes the test, and the constant model then
    replaces the outcome [mid] exactly when the special check succeeds on
    it. *)
Inductive turn (models : list Model.t) (meanTime : number)
          (best candidate : Model.t) : Model.t -> Prop :=
| turn_intro mid next :
    (passes best candidate /\ mid = candidate)
    \/ (~ passes best candidate /\ mid = best) ->
    (exists o1, yields_to_constant models meanTime mid o1 /\ next = o1)
    \/ ((forall o1, ~ yields_to_constant models meanTime mid o1)
        /\ next = mid) ->
    turn models meanTime best candidate next.

(** The scan, as a rule: one turn for each model after the first, in the
    order of the sorted array. *)
Inductive scan (models : list Model.t) (meanTime : number)
  : Model.t -> list Model.t -> Model.t -> Prop :=
| scan_end best : scan models meanTime best [] best
| scan_turn best candidate rest next final :
    turn models meanTime best candidate next ->
    scan models meanTime next rest final ->
    scan models meanTime best (candidate :: rest) final.

Definition is_zero (x : number) : bool :=
  match x with S754_zero _ => true | _ => false end.

(** The result lists the model [type] with the RMSE [rmse]. *)
Definition has_fit (type : string) (rmse : number) (r : AnalysisResult.t)
  : Prop :=
  In (ModelFit.mk type rmse) (AnalysisResult.results r).

Definition has_nan_fit (type : string) (r : AnalysisResult.t) : Prop :=
  has_fit type NaN r.

(** The constant model of a classification and its place in [models]. *)
Definition constant_model (dataPoints : list DataPoint.t) (meanTime : number)
  : Model.t :=
  Model.mk "O(1) - Constant"
           (calculateRMSE (map DataPoint.time dataPoints)
                          (map (fun _ => meanTime)
                               (map DataPoint.n dataPoints)))
           1.

(** Numbers that are infinite or NaN. *)
Definition ninf_or_nan (x : number) : Prop := x = neg_Infinity \/ x = NaN.
Definition pinf_or_nan (x : number) : Prop := x = Infinity \/ x = NaN.

(** A regression line with a NaN slope and a NaN intercept. *)
Definition nan_line (mb : ss.line) : Prop := ss.m mb = NaN /\ ss.b mb = NaN.

(** The result is the error of the given name. *)
Definition raises {A : Type} (name : string) (c : completion A) : Prop :=
  exists e, c = Throw e /\ err_name e = name.

Definition bestFit_of (c : completion AnalysisResult.t) : option string :=
  match c with
  | Return r => Some (AnalysisResult.bestFit r)
  | Throw _ => None
  end.

Definition confidence_of_result (c : completion AnalysisResult.t)
  : option number :=
  match c with
  | Return r => Some (AnalysisResult.confidence r)
  | Throw _ => None
  end.

Definition rmse_of_type (type : string) (models : list Model.t)
  : option number :=
  option_map Model.rmse
             (find (fun m => String.eqb (Model.type m) type) models).

Definition models_or_nil (c : completion (list Model.t)) : list Model.t :=
  match c with Return l => l | Throw _ => [] end.

(** [a] is below [b], by less than the tolerance relative to [a]. *)
Definition marginally_lower (a b : option number) : bool :=
  match a, b with
  | Some a, Some b => (a <? b)%js && ((b - a) / a <? tolerance)%js
  | _, _ => false
  end.

Definition all_fits_finite (r : AnalysisResult.t) : Prop :=
  Forall (fun f => is_finite (ModelFit.rmse f) = true)
         (AnalysisResult.results r).

(** A data point as the classifier expects it: the size and the duration
    are finite and not negative. *)
Definition well_formed (d : DataPoint.t) : bool :=
  is_finite (DataPoint.n d) && negb (sign_bit (DataPoint.n d))
  && is_finite (DataPoint.time d) && negb (sign_bit (DataPoint.time d)).

(** The series the properties are checked on. *)
Definition alternating_series : list DataPoint.t :=
  [point 1 3; point 2 1; point 3 3; point 4 1].

Definition chained_series : list DataPoint.t :=
  [point 1 2; point 2 1; point 3 3].

Definition noisy_linear_series : list DataPoint.t :=
  [point 1 2; point 2 1; point 3 5; point 4 6].

Definition flat_series_of_spec : list DataPoint.t :=
  [point 10 1; point 100 1; point 1000 1; point 10000 1].

Definition long_flat_series : list DataPoint.t :=
  [point 10 11555307.52; point 100 11555307.52; point 1000 11555307.52].

Definition series_with_zero_size : list DataPoint.t :=
  [point 0 1; point 1 2; point 2 3].

(** The durations of the series are all equal. *)
Definition flat (dataPoints : list DataPoint.t) : bool :=
  match dataPoints with
  | [] => true
  | d :: rest =>
      forallb (fun d' => eqb (DataPoint.time d') (DataPoint.time d)) rest
  end.

(** The answer Constant with the confidence 100. *)
Definition constant_for_sure (c : completion AnalysisResult.t) : Prop :=
  bestFit_of c = Some "O(1) - Constant"%string
  /\ confidence_of_result c = Some (lit 100%float).

(** The claim of the specification on flat series, for one series. *)
Definition spec_flat_claim (dataPoints : list DataPoint.t) : Prop :=
  (2 <= List.length dataPoints)%nat ->
  flat dataPoints = true ->
  constant_for_sure (determineComplexity dataPoints).

(** The simplicity rule as the specification states it, for one series. *)
Definition spec_occam_claim (dataPoints : list DataPoint.t) : Prop :=
  forall models,
    sorted_models dataPoints = Return models ->
    bestFit_of (determineComplexity dataPoints)
    = option_map Model.type (spec_simplest_within_tolerance models).

(** *** Runs of the engine *)

Section Runs.
Variable AlgState : Type.

Definition world_of {A : Type} (o : outcome AlgState A) : World AlgState :=
  match o with Done _ w | Timeout w => w end.

(** No invocation among the events threw. *)
Definition no_throw (evs : list Event) : Prop :=
  Forall (fun ev => threw ev = None) evs.

(** The events [evs] of a run, the latest first, fit its outcome [o]: an
    invocation that threw is the last event of the run, and the run then
    completed abruptly with the very error thrown. *)
Definition fits {A : Type} (o : outcome AlgState A) (evs : list Event)
  : Prop :=
  match o with
  | Done (Throw e) _ =>
      no_throw evs
      \/ exists arg evs', evs = EvCall arg (Some e) :: evs' /\ no_throw evs'
  | _ => no_throw evs
  end.

(** Every run of [c] adds events to the trace that fit its outcome. *)
Definition sound {A : Type} (c : M AlgState A) : Prop :=
  forall w,
  exists evs, trace (world_of (c w)) = evs ++ trace w /\ fits (c w) evs.

End Runs.

(** *** The calibration, turn by turn *)

Section Turns.
Variable AlgState : Type.
Variable algorithm :
  AlgState -> list number -> AlgState * list number * option JsError.
Variable clock : nat -> number.

(** The state of the algorithm and the array after [k] invocations in a
    row, each on the array as the one before left it. *)
Fixpoint reused (k : nat) (s : AlgState) (array : list number)
  : AlgState * list number :=
  match k with
  | O => (s, array)
  | S k' => let '(s', array', _) := algorithm s array in reused k' s' array'
  end.

(** The events of [k] turns of the calibration loop, from the state [s]
    and the array [array] and after [r] readings of the clock: each
    invocation returns and is followed by a reading. *)
Definition calibration_turns (k : nat) (s : AlgState) (array : list number)
           (r : nat) : list Event :=
  flat_map (fun i => [EvCall (snd (reused i s array)) None;
                      EvNow (clock (r + i))])
           (seq 0 k).

End Turns.

(** The number of invocations among the events. *)
Definition count_calls (evs : list Event) : Z :=
  Z.of_nat (List.length (filter is_call evs)).

(** The events of a run from [w], the oldest first. *)
Definition events_since {AlgState A : Type} (w : World AlgState)
           (o : outcome AlgState A) : list Event :=
  rev (firstn (List.length (trace (world_of o)) - List.length (trace w))
              (trace (world_of o))).

(** Algorithms and clocks of the examples: an algorithm that returns at
    once, one that throws a TypeError at once, and a clock that advances
    by one millisecond from one reading to the next. *)
Definition idle_algorithm (s : unit) (array : list number)
  : unit * list number * option JsError := (s, array, None).

Definition boom : JsError := mkError "TypeError" "boom".

Definition failing_algorithm (s : unit) (array : list number)
  : unit * list number * option JsError := (s, array, Some boom).

Definition ticking_clock (k : nat) : number := of_Z (Z.of_nat k).

Definition initial_world : World unit := mkWorld tt 0 [].

(** The claim of the specification on a failing algorithm: the run raises
    an AlgorithmExecutionError whose cause is the original error. *)
Definition spec_wraps_failure {A : Type} (o : outcome unit A)
           (original : JsError) : Prop :=
  exists e w,
    o = Done (Throw e) w
    /\ err_name e = "AlgorithmExecutionError"%string
    /\ err_cause e = Some original.

(** ** Vocabulary of the further properties *)

(** The array is in ascending order for the comparator: the number that
    the comparator returns for an element and its successor is zero or
    negative, which NaN is not. *)
Fixpoint ascending {A : Type} (compareFn : A -> A -> number) (l : list A)
  : bool :=
  match l with
  | a :: l' =>
      match l' with
      | b :: _ => leb (compareFn a b) zero && ascending compareFn l'
      | [] => true
      end
  | [] => true
  end.

(** No inversion in a sorted prefix that is kept in reverse: the
    comparator puts no element strictly after the one that follows it in
    the array. *)
Fixpoint descending {A : Type} (compareFn : A -> A -> number) (l : list A)
  : Prop :=
  match l with
  | y :: l' =>
      match l' with
      | z :: _ =>
          (compareFn z y >? zero)%js = false /\ descending compareFn l'
      | [] => True
      end
  | [] => True
  end.

(** The request handler of the web server, on the classification:
    [results.find(r => r.type === bigO)] and
    [bestModelResult ? bestModelResult.rmse : 0]. *)
Definition bestModelResult (r : AnalysisResult.t) : option ModelFit.t :=
  find (fun fit => String.eqb (ModelFit.type fit) (AnalysisResult.bestFit r))
       (AnalysisResult.results r).

Definition reported_rmse (r : AnalysisResult.t) : number :=
  match bestModelResult r with
  | Some fit => ModelFit.rmse fit
  | None => zero
  end.


(** *** Algorithms under test *)

Section Algorithms.
Variable AlgState : Type.
Variable algorithm :
  AlgState -> list number -> AlgState * list number * option JsError.

(** The algorithm throws on no input. *)
Definition never_throws : Prop :=
  forall s array, snd (algorithm s array) = None.

(** The algorithm leaves the array it is given as it was. *)
Definition read_only : Prop :=
  forall s array, snd (fst (algorithm s array)) = array.

End Algorithms.

(** An invocation on the array that [generateInputArray] returns for one
    of the sizes. *)
Definition on_requested (inputSizes : list number) (ev : Event) : Prop :=
  match ev with
  | EvCall arg _ =>
      exists n, In n inputSizes /\ generateInputArray n = Return arg
  | EvNow _ => True
  end.

Definition requested (inputSizes : list number) (array : list number) : Prop :=
  exists n, In n inputSizes /\ generateInputArray n = Return array.

(** Every event that a run of [c] adds to the trace satisfies [P], and the
    value it returns satisfies [Q]. *)
Definition emits {AlgState A : Type} (P : Event -> Prop)
           (c : M AlgState A) (Q : A -> Prop) : Prop :=
  forall w,
    (exists evs, trace (world_of (c w)) = evs ++ trace w /\ Forall P evs)
    /\ forall a w', c w = Done (Return a) w' -> Q a.

(** ** The command-line program

    Steps 3 and 5 of [main]: the measurement, with the default of 10
    iterations, and the classification of the data points it returns. *)
Section Main.
Variable AlgState : Type.
Variable algorithm :
  AlgState -> list number -> AlgState * list number * option JsError.
Variable clock : nat -> number.

Definition analyze (fuel : nat) (inputSizes : list number)
  : M AlgState (list DataPoint.t * AnalysisResult.t) :=
  mbind (runAnalysis algorithm clock fuel inputSizes (lit 10%float))
        (fun dataPoints =>
           mbind (lift (determineComplexity dataPoints))
                 (fun complexity => ret (dataPoints, complexity))).

End Main.

Infix "<=?" := leb : js_scope.

(** *** How the callers read the confidence

    [main] prints a warning when [complexity.confidence <= 75]; the plugin
    of [createGraph] draws its banner when [confidence < 75]; the web page
    shows the result at once when [data.confidence >= 75]. *)
Definition console_warns (confidence : number) : bool :=
  (confidence <=? lit 75%float)%js.

Definition banner_drawn (confidence : number) : bool :=
  (confidence <? lit 75%float)%js.

Definition bigO_shown (confidence : number) : bool :=
  (confidence >=? lit 75%float)%js.

(** *** The size lists of the callers *)

(** [a.push(x)]: an array holds at most [2^32 - 1] elements. *)
Definition push {A : Type} (a : list A) (x : A) : completion (list A) :=
  if Z.of_nat (List.length a) <? 2 ^ 32 - 1 then Return (a ++ [x])
  else Throw RangeError_length.

(** What [getNumberFromConsole] returns is a number or [null], and [null]
    counts as [+0] in arithmetic. *)
Definition ToNumber_answer (answer : option number) : number :=
  match answer with Some x => x | None => zero end.

(** The number of an integer-valued number, 0 for the others. *)
Definition integer_of (x : number) : Z :=
  match x with S754_finite s m e => trunc_Z s m e | _ => 0 end.

(** An exponentiation for the examples, on integers that are not
    negative: the number nearest to the power, which is the power itself
    below [2^53].  For a larger power an engine may return a neighbour of
    it; the properties hold for every exponentiation. *)
Definition pow_of_integers (base exponent : number) : number :=
  of_Z (integer_of base ^ integer_of exponent).

Inductive Strategy : Type :=
| PowersOf10 (maxPower : number)
| Doubling (startSize steps : number)
| LinearSteps (startSize stepSize count : number).

Section SizeLists.

(** [base ** exponent], which ECMAScript leaves to the implementation to
    approximate. *)
Variable pow : number -> number -> number.

(** [main]: [for (let i = 1; i <= maxPower; i++) inputSizes.push(10 ** i)] *)
Fixpoint powers_loop (fuel : nat) (i : Z) (maxPower : number)
         (inputSizes : list number) : option (completion (list number)) :=
  if (of_Z i <=? maxPower)%js then
    match fuel with
    | O => None
    | S fuel' =>
        match push inputSizes (pow (lit 10%float) (of_Z i)) with
        | Return inputSizes' => powers_loop fuel' (i + 1) maxPower inputSizes'
        | Throw e => Some (Throw e)
        end
    end
  else Some (Return inputSizes).

(** [main]: [for (let i = 0; i < steps; i++)
    { inputSizes.push(current); current *= 2; }] *)
Fixpoint doubling_loop (fuel : nat) (i : Z) (steps current : number)
         (inputSizes : list number) : option (completion (list number)) :=
  if (of_Z i <? steps)%js then
    match fuel with
    | O => None
    | S fuel' =>
        match push inputSizes current with
        | Return inputSizes' =>
            doubling_loop fuel' (i + 1) steps (current * lit 2%float)%js
                          inputSizes'
        | Throw e => Some (Throw e)
        end
    end
  else Some (Return inputSizes).

(** [main]: [for (let i = 0; i < count; i++)
    inputSizes.push(startSize + (i * stepSize))] *)
Fixpoint linear_loop (fuel : nat) (i : Z) (startSize stepSize count : number)
         (inputSizes : list number) : option (completion (list number)) :=
  if (of_Z i <? count)%js then
    match fuel with
    | O => None
    | S fuel' =>
        match push inputSizes (startSize + of_Z i * stepSize)%js with
        | Return inputSizes' =>
            linear_loop fuel' (i + 1) startSize stepSize count inputSizes'
        | Throw e => Some (Throw e)
        end
    end
  else Some (Return inputSizes).

(** The size list [main] builds for the strategy chosen; [None] when the
    step budget is used up. *)
Definition inputSizes_of (fuel : nat) (strategy : Strategy)
  : option (completion (list number)) :=
  match strategy with
  | PowersOf10 maxPower => powers_loop fuel 1 maxPower []
  | Doubling startSize steps => doubling_loop fuel 0 steps startSize []
  | LinearSteps startSize stepSize count =>
      linear_loop fuel 0 startSize stepSize count []
  end.

(** [testSuite] of the first test program:
    [while (i < zeros + 1) { suite.push(10 ** i); i = i + steps; }] *)
Fixpoint testSuite_loop (fuel : nat) (i : number) (zeros steps : option number)
         (suite : list number) : option (completion (list number)) :=
  if (i <? ToNumber_answer zeros + lit 1%float)%js then
    match fuel with
    | O => None
    | S fuel' =>
        match push suite (pow (lit 10%float) i) with
        | Return suite' =>
            testSuite_loop fuel' (i + ToNumber_answer steps)%js zeros steps
                           suite'
        | Throw e => Some (Throw e)
        end
    end
  else Some (Return suite).

Definition testSuite (fuel : nat) (zeros steps : option number)
  : option (completion (list number)) :=
  testSuite_loop fuel zero zeros steps [].

End SizeLists.

(** The linear strategy of the web page:
    [for (let i = linearStart; i <= linearEnd; i += linearStep)
     inputSizes.push(i)] *)
Fixpoint linear_range (fuel : nat) (i linearEnd linearStep : number)
         (inputSizes : list number) : option (completion (list number)) :=
  if (i <=? linearEnd)%js then
    match fuel with
    | O => None
    | S fuel' =>
        match push inputSizes i with
        | Return inputSizes' =>
            linear_range fuel' (i + linearStep)%js linearEnd linearStep
                         inputSizes'
        | Throw e => Some (Throw e)
        end
    end
  else Some (Return inputSizes).

(** The sizes of [main] and then its analysis. *)
Section MainRun.
Variable pow : number -> number -> number.
Variable AlgState : Type.
Variable algorithm :
  AlgState -> list number -> AlgState * list number * option JsError.
Variable clock : nat -> number.

Definition main_run (fuel : nat) (strategy : Strategy)
  : M AlgState (list DataPoint.t * AnalysisResult.t) :=
  match inputSizes_of pow fuel strategy with
  | None => fun w => Timeout w
  | Some sizes =>
      mbind (lift sizes)
            (fun inputSizes => analyze algorithm clock fuel inputSizes)
  end.

End MainRun.

(** The strategy asks for no size at all. *)
Definition no_sizes (strategy : Strategy) : Prop :=
  match strategy with
  | PowersOf10 maxPower => (lit 1%float <=? maxPower)%js = false
  | Doubling _ steps => (zero <? steps)%js = false
  | LinearSteps _ _ count => (zero <? count)%js = false
  end.

Definition mean_of_nothing : JsError :=
  mkError "Error" "mean requires at least one data point".

(** ** The first version of the engine

    [runAnalysis] as it was before the warm-up and the batches: one timed
    invocation for each size [n], on the array generated for
    [inputSizes\[n\]], and the durations as the result. *)

(** [x] is an integer. *)
Definition is_integer (x : number) : bool :=
  match x with
  | S754_zero _ => true
  | S754_finite _ m e => (0 <=? e) || (Z.pos m mod 2 ^ (- e) =? 0)
  | _ => false
  end.

(** [a\[k\]] for a number [k]: the element at the index [k] when [k] is an
    integer from 0 to the length of [a], [undefined] otherwise. *)
Definition element_at {A : Type} (a : list A) (k : number) : option A :=
  if is_integer k && negb (k <? zero)%js then
    let i := integer_of k in
    if i <? Z.of_nat (List.length a) then nth_error a (Z.to_nat i) else None
  else None.

(** ToNumber of a value that may be [undefined]. *)
Definition ToNumber_undefined (v : option number) : number :=
  match v with Some x => x | None => NaN end.

Module FirstVersion.
Section Engine.
Variable AlgState : Type.
Variable algorithm :
  AlgState -> list number -> AlgState * list number * option JsError.
Variable clock : nat -> number.

(** The body of the loop over the sizes. *)
Definition measure_size (inputSizes : list number) (dataPoints : list number)
           (n : number) : M AlgState (list number) :=
  mbind (lift (generateInputArray
                 (ToNumber_undefined (element_at inputSizes n))))
        (fun array =>
  mbind (now clock) (fun start =>
  mbind (call algorithm array) (fun _ =>
  mbind (now clock) (fun end_ =>
  ret (dataPoints ++ [(end_ - start)%js]))))).

Definition runAnalysis (inputSizes : list number) : M AlgState (list number) :=
  for_of (measure_size inputSizes) inputSizes [].

End Engine.
End FirstVersion.

(** An invocation on the array generated for [inputSizes\[n\]], for one
    of the sizes [n]. *)
Definition on_indexed (inputSizes : list number) (ev : Event) : Prop :=
  match ev with
  | EvCall arg _ =>
      exists n,
        In n inputSizes
        /\ generateInputArray (ToNumber_undefined (element_at inputSizes n))
           = Return arg
  | EvNow _ => True
  end.

(** ** Two tests for palindrome numbers

    [bruteForce] and [optimized] take an integer; on the integers from
    [-(2^53 - 1)] to [2^53 - 1] the operations they use, [x % 10],
    [Math.floor(x / 10)] and [half * 10 + x % 10], are exact, and they are
    modelled on [Z]. *)

Module Palindrome.

(** The decimal digits of [x], the lowest first; none for 0. *)
Fixpoint digits (fuel : nat) (x : Z) : list Z :=
  match fuel with
  | O => []
  | S fuel' => if 0 <? x then x mod 10 :: digits fuel' (x / 10) else []
  end.

Definition digit_char (d : Z) : ascii := ascii_of_nat (48 + Z.to_nat d).

(** The digits of the absolute value of [x]; the step budget is the
    number of its binary digits. *)
Definition digits_of (x : Z) : list Z :=
  digits (S (Z.to_nat (Z.log2 (Z.abs x)))) (Z.abs x).

(** [x.toString()] *)
Definition toString (x : Z) : string :=
  if x =? 0 then "0"%string
  else
    let s := string_of_list_ascii (map digit_char (rev (digits_of x))) in
    if x <? 0 then String "-" s else s.

(** [s.split("").reverse().join("")] *)
Definition reverse (s : string) : string :=
  string_of_list_ascii (rev (list_ascii_of_string s)).

Definition bruteForce (x : Z) : bool :=
  String.eqb (toString x) (reverse (toString x)).

(** [while (x > half) { half = half * 10 + x % 10;
                        x = Math.floor(x / 10); }] *)
Fixpoint optimized_loop (fuel : nat) (x half : Z) : option (Z * Z) :=
  if x >? half then
    match fuel with
    | O => None
    | S fuel' => optimized_loop fuel' (x / 10) (half * 10 + Z.rem x 10)
    end
  else Some (x, half).

(** [optimized]; [None] when the step budget of the loop is used up. *)
Definition optimized (fuel : nat) (x : Z) : option bool :=
  if (x <? 0) || (negb (x =? 0) && (Z.rem x 10 =? 0)) then Some false
  else
    match optimized_loop fuel x 0 with
    | Some (x', half) => Some ((x' =? half) || (x' =? half / 10))
    | None => None
    end.

(** The number that a list of digits stands for, the lowest digit first. *)
Definition value (ds : list Z) : Z :=
  fold_right (fun d acc => d + 10 * acc) 0 ds.

Definition is_digit (d : Z) : Prop := 0 <= d <= 9.

(** What [optimized] answers from the values of [x] and [half] that its
    loop ends with. *)
Definition verdict (r : Z * Z) : bool :=
  (fst r =? snd r) || (fst r =? snd r / 10).

End Palindrome.

(** * Properties of the classifier *)

Section SortFacts.
Context {A : Type} (compareFn : A -> A -> number).

Lemma insert_from_right_perm (x : A) (l : list A) :
  Permutation (insert_from_right compareFn x l) (x :: l).
Proof.
  induction l as [|y l IH]; simpl.
  - apply Permutation_refl.
  - destruct (compareFn y x >? zero)%js.
    + eapply perm_trans; [apply perm_skip, IH | apply perm_swap].
    + apply Permutation_refl.
Qed.

Lemma fold_insert_perm (a acc : list A) :
  Permutation
    (fold_left (fun rs x => insert_from_right compareFn x rs) a acc)
    (a ++ acc).
Proof.
  revert acc; induction a as [|x a IH]; intros acc; simpl.
  - apply Permutation_refl.
  - eapply perm_trans; [apply IH|].
    eapply perm_trans;
      [apply Permutation_app_head, insert_from_right_perm|].
    apply Permutation_sym, Permutation_middle.
Qed.

(** Sorting rearranges the array and nothing else. *)
Lemma Array_sort_perm (a : list A) : Permutation (Array_sort compareFn a) a.
Proof.
  unfold Array_sort.
  eapply perm_trans; [apply Permutation_sym, Permutation_rev|].
  eapply perm_trans; [apply fold_insert_perm|].
  rewrite app_nil_r. apply Permutation_refl.
Qed.

Lemma Array_sort_in (a : list A) (x : A) :
  In x a <-> In x (Array_sort compareFn a).
Proof.
  split; apply Permutation_in;
    [apply Permutation_sym|]; apply Array_sort_perm.
Qed.

Lemma Array_sort_length (a : list A) :
  List.length (Array_sort compareFn a) = List.length a.
Proof. apply Permutation_length, Array_sort_perm. Qed.

End SortFacts.

Lemma find_hd_filter {A : Type} (p : A -> bool) (l : list A) :
  find p l = hd_error (filter p l).
Proof.
  induction l as [|x l IH]; simpl; [reflexivity|].
  destruct (p x); [reflexivity | exact IH].
Qed.

Lemma find_unique_perm {A : Type} (p : A -> bool) (l l' : list A) (x : A) :
  Permutation l l' -> filter p l = [x] -> find p l' = Some x.
Proof.
  intros Hperm Hf. rewrite find_hd_filter.
  assert (Hp : Permutation [x] (filter p l')).
  { rewrite <- Hf. clear Hf x.
    induction Hperm; simpl.
    - apply Permutation_refl.
    - destruct (p x); [apply perm_skip|]; exact IHHperm.
    - destruct (p x), (p y);
        try apply Permutation_refl; apply perm_swap.
    - eapply perm_trans; eassumption. }
  apply Permutation_length_1_inv in Hp. rewrite Hp. reflexivity.
Qed.

Lemma find_O1_sorted (dataPoints : list DataPoint.t) (meanTime : number) :
  find is_O1 (Array_sort by_rmse (fit_models dataPoints meanTime))
  = Some (constant_model dataPoints meanTime).
Proof.
  eapply find_unique_perm.
  - apply Permutation_sym, Array_sort_perm.
  - reflexivity.
Qed.

Lemma mean_returns (x : list number) :
  x <> [] -> ss.mean x = Return (ss.sum x / ss.length_of x)%js.
Proof. destruct x; [congruence | reflexivity]. Qed.

(** What the classifier returns on a sequence that is not empty: the pieces
    of the result, in terms of the sorted models. *)
Lemma determineComplexity_unfold (dataPoints : list DataPoint.t) :
  dataPoints <> [] ->
  exists meanTime timeVariance maxTime first rest,
    let timeValues := map DataPoint.time dataPoints in
    let models := Array_sort by_rmse (fit_models dataPoints meanTime) in
    let bestModel :=
      if low_and_flat maxTime timeVariance meanTime
      then constant_model dataPoints meanTime
      else occam_scan models meanTime first rest in
    ss.mean timeValues = Return meanTime /\
    ss.variance timeValues = Return timeVariance /\
    ss.max timeValues = Return maxTime /\
    models = first :: rest /\
    determineComplexity dataPoints
    = Return (AnalysisResult.mk
                (Model.type bestModel)
                (Math_round (confidence_of models meanTime bestModel))
                (Array_sort by_fit_rmse (map fit_of models))).
Proof.
  intros Hne. unfold determineComplexity.
  destruct dataPoints as [|d ds]; [congruence|].
  set (pts := d :: ds).
  assert (Htv : map DataPoint.time pts <> []) by (subst pts; discriminate).
  rewrite (mean_returns Htv). cbn [bind].
  set (meanTime := (ss.sum _ / _)%js).
  destruct (Array_sort by_rmse (fit_models pts meanTime))
    as [|first rest] eqn:Hs.
  { apply (f_equal (@List.length _)) in Hs.
    rewrite Array_sort_length in Hs. discriminate Hs. }
  unfold ss.variance, ss.sumNthPowerDeviations2.
  rewrite (mean_returns Htv). fold meanTime.
  subst pts. cbn [map bind ss.max].
  match goal with
  | |- context [low_and_flat ?mx ?v meanTime] =>
      exists meanTime, v, mx, first, rest
  end.
  cbn zeta. repeat split; [exact Hs|].
  pose proof (find_O1_sorted (d :: ds) meanTime) as Hfind.
  rewrite Hs in Hfind |- *. rewrite Hfind.
  destruct (low_and_flat _ _ _); reflexivity.
Qed.

(** On a sequence that is not empty the classifier throws nothing. *)
Lemma determineComplexity_returns (dataPoints : list DataPoint.t) :
  dataPoints <> [] ->
  exists r, determineComplexity dataPoints = Return r.
Proof.
  intros Hne.
  destruct (determineComplexity_unfold Hne)
    as (mt & tv & mx & first & rest & H).
  cbn zeta in H. destruct H as (_ & _ & _ & _ & H).
  eexists; exact H.
Qed.

(** ** NaN and the infinities in the regression *)

Section NaNFacts.

Lemma add_nan_l x : (NaN + x)%js = NaN.
Proof. reflexivity. Qed.

Lemma add_nan_r x : (x + NaN)%js = NaN.
Proof. destruct x; reflexivity. Qed.

Lemma sub_nan_l x : (NaN - x)%js = NaN.
Proof. reflexivity. Qed.

Lemma sub_nan_r x : (x - NaN)%js = NaN.
Proof. destruct x; reflexivity. Qed.

Lemma mul_nan_l x : (NaN * x)%js = NaN.
Proof. reflexivity. Qed.

Lemma mul_nan_r x : (x * NaN)%js = NaN.
Proof. destruct x; reflexivity. Qed.

Lemma div_nan_l x : (NaN / x)%js = NaN.
Proof. reflexivity. Qed.

Lemma div_nan_r x : (x / NaN)%js = NaN.
Proof. destruct x; reflexivity. Qed.

Lemma add_ninf_l x y : ninf_or_nan x -> ninf_or_nan (x + y)%js.
Proof.
  intros [-> | ->]; [|right; reflexivity].
  destruct y as [s|[|]| |s m e]; cbv; auto.
Qed.

Lemma add_ninf_r x : ninf_or_nan (x + neg_Infinity)%js.
Proof. destruct x as [s|[|]| |s m e]; cbv; auto. Qed.

Lemma add_pinf_l x y : pinf_or_nan x -> pinf_or_nan (x + y)%js.
Proof.
  intros [-> | ->]; [|right; reflexivity].
  destruct y as [s|[|]| |s m e]; cbv; auto.
Qed.

Lemma add_pinf_r x : pinf_or_nan (x + Infinity)%js.
Proof. destruct x as [s|[|]| |s m e]; cbv; auto. Qed.

Lemma sub_pinf_pinf x y : pinf_or_nan x -> pinf_or_nan y -> (x - y)%js = NaN.
Proof. intros [-> | ->] [-> | ->]; reflexivity. Qed.

Lemma mul_ninf_ninf x : ninf_or_nan x -> pinf_or_nan (x * x)%js.
Proof. intros [-> | ->]; cbv; auto. Qed.

(** Rounding keeps the sign it is given. *)
Lemma binary_round_aux_sign (s : bool) (m e : Z) (l : location) :
  let r := binary_round_aux prec emax s m e l in
  r = NaN \/ sign_bit r = s.
Proof.
  unfold binary_round_aux.
  destruct (shr_fexp prec emax m e l) as [mrs' e'].
  destruct (shr_fexp prec emax _ e' loc_Exact) as [mrs'' e''].
  destruct (shr_m mrs''); [right; reflexivity| |left; reflexivity].
  destruct (e'' <=? emax - prec); right; reflexivity.
Qed.

Lemma of_Z_sign (z : Z) : 0 <= z -> of_Z z = NaN \/ sign_bit (of_Z z) = false.
Proof.
  intros Hz. unfold of_Z, binary_normalize.
  destruct z as [|p|p]; [right; reflexivity| |lia].
  unfold binary_round.
  destruct (shl_align p 0 _) as [mz ez].
  apply binary_round_aux_sign.
Qed.

Lemma length_of_sign {A : Type} (l : list A) :
  ss.length_of l = NaN \/ sign_bit (ss.length_of l) = false.
Proof. apply of_Z_sign, Nat2Z.is_nonneg. Qed.

Lemma mul_nonneg_pinf x y :
  x = NaN \/ sign_bit x = false -> pinf_or_nan y -> pinf_or_nan (x * y)%js.
Proof.
  intros [-> | Hs] [-> | ->]; try (right; reflexivity).
  - destruct x as [s|s| |s m e]; simpl in Hs; subst; cbv; auto.
  - right. apply mul_nan_r.
Qed.

End NaNFacts.

(** Once a transformed size is [-Infinity], the sums of the regression are
    infinite or NaN. *)
Lemma sums_ninf_preserved (data : list (number * number)) (s : ss.sums) :
  ninf_or_nan (ss.sumX s) -> pinf_or_nan (ss.sumXX s) ->
  let s' := fold_left ss.sums_step data s in
  ninf_or_nan (ss.sumX s') /\ pinf_or_nan (ss.sumXX s').
Proof.
  revert s; induction data as [|[x y] data IH]; intros s HX HXX; simpl.
  - split; assumption.
  - apply IH; simpl.
    + apply add_ninf_l, HX.
    + apply add_pinf_l, HXX.
Qed.

Lemma sums_ninf (data : list (number * number)) (s : ss.sums) (y : number) :
  In (neg_Infinity, y) data ->
  let s' := fold_left ss.sums_step data s in
  ninf_or_nan (ss.sumX s') /\ pinf_or_nan (ss.sumXX s').
Proof.
  revert s; induction data as [|[x0 y0] data IH]; intros s Hin; simpl.
  - destruct Hin.
  - destruct Hin as [Heq | Hin].
    + inversion Heq; subst. apply sums_ninf_preserved; simpl.
      * apply add_ninf_r.
      * change (neg_Infinity * neg_Infinity)%js with Infinity.
        apply add_pinf_r.
    + apply IH, Hin.
Qed.

Lemma sums_nan_preserved (data : list (number * number)) (s : ss.sums) :
  ss.sumX s = NaN -> ss.sumX (fold_left ss.sums_step data s) = NaN.
Proof.
  revert s; induction data as [|[x y] data IH]; intros s HX; simpl.
  - assumption.
  - apply IH; simpl. rewrite HX. reflexivity.
Qed.

Lemma sums_nan (data : list (number * number)) (s : ss.sums) (y : number) :
  In (NaN, y) data -> ss.sumX (fold_left ss.sums_step data s) = NaN.
Proof.
  revert s; induction data as [|[x0 y0] data IH]; intros s Hin; simpl.
  - destruct Hin.
  - destruct Hin as [Heq | Hin].
    + inversion Heq; subst. apply sums_nan_preserved; simpl.
      apply add_nan_r.
    + apply IH, Hin.
Qed.

Lemma regression_nan_of_den (data : list (number * number)) :
  (2 <= List.length data)%nat ->
  let s := fold_left ss.sums_step data (ss.mkSums zero zero zero zero) in
  (ss.length_of data * ss.sumXX s - ss.sumX s * ss.sumX s)%js = NaN ->
  nan_line (ss.linearRegression data).
Proof.
  intros Hlen s Hden.
  assert (Hm : ss.m (ss.linearRegression data) = NaN).
  { destruct data as [|[x0 y0] [|p data]]; simpl in Hlen; try lia.
    simpl. fold s in Hden |- *.
    change (fold_left ss.sums_step data _) with s.
    rewrite Hden. apply div_nan_r. }
  split; [exact Hm|].
  destruct data as [|[x0 y0] [|p data]]; simpl in Hlen; try lia.
  simpl in Hm |- *. rewrite Hm, mul_nan_l, div_nan_l. apply sub_nan_r.
Qed.

Lemma sumSquaredErrors_nan (actual predicted : list number) :
  sumSquaredErrors actual predicted NaN = NaN.
Proof.
  revert predicted; induction actual as [|a actual IH]; intros predicted.
  - reflexivity.
  - simpl. apply IH.
Qed.

Lemma calculateRMSE_nan_predictions {A : Type} (f : A -> number)
      (g : A -> number) (l : list A) :
  l <> [] -> (forall a, In a l -> g a = NaN) ->
  calculateRMSE (map f l) (map g l) = NaN.
Proof.
  intros Hne Hg. unfold calculateRMSE.
  destruct l as [|a l]; [congruence|].
  cbn [map sumSquaredErrors hd tl].
  rewrite (Hg a (or_introl eq_refl)), sub_nan_r.
  change (square NaN) with NaN. rewrite add_nan_r, sumSquaredErrors_nan.
  reflexivity.
Qed.

(** A transform that sends some size to [-Infinity] or to NaN spoils the
    whole fit: its RMSE is NaN. *)
Lemma getRegressionRMSE_nan (dataPoints : list DataPoint.t)
      (transformFn : number -> number) (d : DataPoint.t) :
  In d dataPoints ->
  transformFn (DataPoint.n d) = neg_Infinity
  \/ transformFn (DataPoint.n d) = NaN ->
  getRegressionRMSE dataPoints transformFn = NaN.
Proof.
  intros Hin Hx. unfold getRegressionRMSE. cbn zeta.
  set (data := map (fun d => (transformFn (DataPoint.n d), DataPoint.time d))
                   dataPoints).
  assert (Hne : dataPoints <> []) by (intros ->; destruct Hin).
  apply calculateRMSE_nan_predictions; [exact Hne|].
  intros a Ha. unfold ss.linearRegressionLine.
  destruct (le_lt_dec 2 (List.length data)) as [Hlen | Hlen].
  - (* the general case of the regression *)
    assert (Hline : nan_line (ss.linearRegression data)).
    { apply regression_nan_of_den; [exact Hlen|].
      assert (Hd : In (transformFn (DataPoint.n d), DataPoint.time d) data).
      { subst data. apply in_map_iff. exists d. split; [reflexivity|exact Hin]. }
      destruct Hx as [Hx | Hx]; rewrite Hx in Hd.
      - destruct (sums_ninf _ (ss.mkSums zero zero zero zero) _ Hd)
          as [HX HXX].
        apply sub_pinf_pinf.
        + apply mul_nonneg_pinf; [apply length_of_sign | exact HXX].
        + apply mul_ninf_ninf, HX.
      - rewrite (sums_nan _ (ss.mkSums zero zero zero zero) _ Hd).
        rewrite mul_nan_l. apply sub_nan_r. }
    destruct Hline as [Hm Hb]. rewrite Hb. reflexivity.
  - (* a single point: slope 0 through that point *)
    subst data.
    destruct dataPoints as [|d0 [|d1 ds]]; simpl in Hlen; try lia;
      [congruence|].
    destruct Hin as [<- | []]. destruct Ha as [<- | []].
    simpl. destruct Hx as [-> | ->].
    + change (zero * neg_Infinity)%js with NaN. apply add_nan_r.
    + change (zero * NaN)%js with NaN. apply add_nan_r.
Qed.

(** C3, as it holds: a sequence of two or more points that contains a point
    of size 0 is classified without an error being thrown, but that point
    is not left out of any regression: [Math.log(0)] is [-Infinity], and
    the result gives the logarithmic and the linearithmic model the RMSE
    NaN.  The constant, the linear and the quadratic model are fitted on
    all the points. *)
Theorem zero_size_gives_nan_fits (dataPoints : list DataPoint.t) :
  (2 <= List.length dataPoints)%nat ->
  (exists d, In d dataPoints /\ is_zero (DataPoint.n d) = true) ->
  exists r meanTime,
    determineComplexity dataPoints = Return r /\
    ss.mean (map DataPoint.time dataPoints) = Return meanTime /\
    has_nan_fit "O(log n) - Logarithmic" r /\
    has_nan_fit "O(n log n) - Linear-ithmic" r /\
    has_fit "O(1) - Constant"
            (Model.rmse (constant_model dataPoints meanTime)) r /\
    has_fit "O(n) - Linear" (getRegressionRMSE dataPoints (fun n => n)) r /\
    has_fit "O(n^2) - Quadratic"
            (getRegressionRMSE dataPoints (fun n => square n)) r.
Proof.
  intros Hlen (d & Hin & Hz).
  assert (Hne : dataPoints <> []) by (intros ->; destruct Hin).
  destruct (determineComplexity_unfold Hne)
    as (mt & tv & mx & first & rest & H).
  cbn zeta in H. destruct H as (Hmean & _ & _ & _ & H).
  eexists; exists mt; split; [exact H|]. split; [exact Hmean|].
  unfold has_nan_fit, has_fit; cbn [AnalysisResult.results].
  assert (Hlog : getRegressionRMSE dataPoints (fun n => Math_log n) = NaN).
  { apply getRegressionRMSE_nan with (d := d); [exact Hin|].
    left. destruct (DataPoint.n d); try discriminate Hz. reflexivity. }
  assert (Hnlogn :
            getRegressionRMSE dataPoints (fun n => (n * Math_log n)%js) = NaN).
  { apply getRegressionRMSE_nan with (d := d); [exact Hin|].
    right. destruct (DataPoint.n d); try discriminate Hz. reflexivity. }
  assert (Hfit : forall m,
             In m (fit_models dataPoints mt) ->
             In (fit_of m)
                (Array_sort by_fit_rmse
                   (map fit_of
                        (Array_sort by_rmse (fit_models dataPoints mt))))).
  { intros m Hm. apply Array_sort_in, in_map, Array_sort_in, Hm. }
  repeat split.
  - apply (Hfit (Model.mk "O(log n) - Logarithmic" NaN 2)).
    unfold fit_models, the_models. rewrite Hlog. simpl. auto.
  - apply (Hfit (Model.mk "O(n log n) - Linear-ithmic" NaN 4)).
    unfold fit_models, the_models. rewrite Hnlogn. simpl. auto 6.
  - apply (Hfit (constant_model dataPoints mt)). simpl. auto.
  - apply (Hfit (Model.mk "O(n) - Linear"
                          (getRegressionRMSE dataPoints (fun n => n)) 3)).
    simpl. auto.
  - apply (Hfit (Model.mk "O(n^2) - Quadratic"
                          (getRegressionRMSE dataPoints (fun n => square n))
                          5)).
    simpl. auto 7.
Qed.

(** ** The simplicity scan *)

Section Occam.
Variable models : list Model.t.
Variable meanTime : number.

(** A turn of the loop keeps the current best or replaces it, by the
    candidate, by the constant model, or by both in a row. *)
Lemma occam_step_chain (first best candidate : Model.t) :
  In candidate models ->
  adoption_chain models meanTime first best ->
  adoption_chain models meanTime first
                 (occam_step models meanTime best candidate).
Proof.
  intros Hin Hchain. unfold occam_step.
  set (best' := if Model.complexity candidate <? Model.complexity best
                then _ else _).
  assert (Hchain' : adoption_chain models meanTime first best').
  { subst best'.
    destruct (Model.complexity candidate <? Model.complexity best) eqn:Hc;
      [|exact Hchain].
    cbn zeta.
    destruct (diff_of candidate best <? tolerance)%js eqn:Hd;
      [|exact Hchain].
    eapply chain_adopt; [exact Hchain|].
    apply adopts_simpler; [exact Hin | apply Z.ltb_lt, Hc | exact Hd]. }
  clearbody best'.
  destruct (is_Olog best') eqn:Hlog; [|exact Hchain'].
  destruct (find is_O1 models) as [o1|] eqn:Hfind; [|exact Hchain'].
  destruct (Model.rmse o1 <? Model.rmse best' * lit 3%float)%js eqn:H3;
    [|exact Hchain'].
  cbn zeta.
  destruct (Model.rmse best' / signalMagnitude_of meanTime
            <? lit 0.1%float)%js eqn:Hn; [|exact Hchain'].
  eapply chain_adopt; [exact Hchain'|].
  apply adopts_constant; assumption.
Qed.

Lemma occam_scan_chain_from (start first : Model.t) (rest : list Model.t) :
  incl rest models ->
  adoption_chain models meanTime start first ->
  adoption_chain models meanTime start
                 (occam_scan models meanTime first rest).
Proof.
  unfold occam_scan.
  revert first; induction rest as [|c rest IH]; intros first Hincl Hchain.
  - exact Hchain.
  - simpl. apply IH.
    + intros x Hx. apply Hincl. right. exact Hx.
    + apply occam_step_chain; [apply Hincl; left; reflexivity | exact Hchain].
Qed.

(** A turn of the loop follows the rule of a turn, and the rule leaves no
    choice. *)
Lemma occam_step_turn (best candidate : Model.t) :
  turn models meanTime best candidate
       (occam_step models meanTime best candidate).
Proof.
  unfold occam_step.
  set (mid := if Model.complexity candidate <? Model.complexity best
              then _ else _).
  apply turn_intro with (mid := mid).
  - subst mid. unfold passes.
    destruct (Z.ltb_spec (Model.complexity candidate)
                         (Model.complexity best)) as [Hc | Hc].
    + cbn zeta. destruct (diff_of candidate best <? tolerance)%js eqn:Hd.
      * left. split; [split; [exact Hc | reflexivity] | reflexivity].
      * right. split; [|reflexivity]. intros [_ H]. discriminate H.
    + right. split; [|reflexivity]. intros [H _]. lia.
  - clearbody mid. unfold yields_to_constant.
    destruct (is_Olog mid) eqn:Hlog.
    2:{ right. split; [|reflexivity]. intros o1 (H & _). discriminate H. }
    destruct (find is_O1 models) as [o1|] eqn:Hfind.
    2:{ right. split; [|reflexivity]. intros o1 (_ & H & _). discriminate H. }
    destruct (Model.rmse o1 <? Model.rmse mid * lit 3%float)%js eqn:H3.
    2:{ right. split; [|reflexivity]. intros o (_ & Ho & H & _).
        inversion Ho; subst o. rewrite H3 in H. discriminate H. }
    cbn zeta.
    destruct (Model.rmse mid / signalMagnitude_of meanTime
              <? lit 0.1%float)%js eqn:Hn.
    + left. exists o1. repeat split; assumption || reflexivity.
    + right. split; [|reflexivity]. intros o (_ & _ & _ & H).
      discriminate H.
Qed.

Lemma turn_functional (best candidate a b : Model.t) :
  turn models meanTime best candidate a ->
  turn models meanTime best candidate b ->
  a = b.
Proof.
  intros [mid1 a' Hm1 Ha] [mid2 b' Hm2 Hb].
  assert (Hmid : mid1 = mid2).
  { destruct Hm1 as [[Hp ->] | [Hn ->]], Hm2 as [[Hp' ->] | [Hn' ->]];
      try reflexivity; contradiction. }
  subst mid2.
  destruct Ha as [(o & Hy & ->) | [Hno ->]],
           Hb as [(o' & Hy' & ->) | [Hno' ->]].
  - destruct Hy as (_ & Hf & _), Hy' as (_ & Hf' & _). congruence.
  - exfalso. apply (Hno' o Hy).
  - exfalso. apply (Hno o' Hy').
  - reflexivity.
Qed.

(** The loop takes the turns of the rule, one for each model after the
    first and in their order, and the rule fixes its outcome. *)
Lemma occam_scan_follows (first : Model.t) (rest : list Model.t) :
  scan models meanTime first rest (occam_scan models meanTime first rest).
Proof.
  unfold occam_scan. revert first.
  induction rest as [|candidate rest IH]; intros first; simpl.
  - apply scan_end.
  - eapply scan_turn; [apply occam_step_turn | apply IH].
Qed.

Lemma scan_functional (first : Model.t) (rest : list Model.t)
      (a b : Model.t) :
  scan models meanTime first rest a ->
  scan models meanTime first rest b ->
  a = b.
Proof.
  intros Ha. revert b.
  induction Ha as [best | best candidate rest next final Hturn _ IH];
    intros b Hb; inversion Hb; subst.
  - reflexivity.
  - apply IH.
    match goal with
    | H : turn _ _ _ _ ?n |- scan _ _ next _ _ =>
        rewrite (turn_functional Hturn H)
    end.
    assumption.
Qed.

End Occam.

(** In the five models the type fixes the rank. *)
Lemma the_models_rank (c l li nl q : number) (m : Model.t) :
  In m (the_models c l li nl q) ->
  (is_O1 m = true -> Model.complexity m = 1) /\
  (is_Olog m = true -> Model.complexity m = 2) /\
  1 <= Model.complexity m.
Proof.
  unfold the_models. simpl.
  intros [<- | [<- | [<- | [<- | [<- | []]]]]];
    repeat split; try reflexivity; try discriminate; try lia;
    cbv; congruence.
Qed.

Lemma adopts_rank (dataPoints : list DataPoint.t) (meanTime : number)
      (best next : Model.t) :
  let models := Array_sort by_rmse (fit_models dataPoints meanTime) in
  In best models ->
  adopts models meanTime best next ->
  In next models /\ Model.complexity next < Model.complexity best.
Proof.
  intros models Hbest Hadopt.
  destruct Hadopt as [Hin Hc _ | Hlog Hfind _ _].
  - split; assumption.
  - apply find_some in Hfind. destruct Hfind as [Hin Ho1].
    split; [exact Hin|].
    apply Array_sort_in in Hin, Hbest.
    unfold fit_models in Hin, Hbest.
    destruct (the_models_rank Hin) as (H1 & _ & _).
    destruct (the_models_rank Hbest) as (_ & H2 & _).
    rewrite (H1 Ho1), (H2 Hlog). lia.
Qed.

Lemma adoption_chain_rank (dataPoints : list DataPoint.t) (meanTime : number)
      (first best : Model.t) :
  let models := Array_sort by_rmse (fit_models dataPoints meanTime) in
  In first models ->
  adoption_chain models meanTime first best ->
  In best models /\ Model.complexity best <= Model.complexity first.
Proof.
  intros models Hfirst Hchain.
  induction Hchain as [|best next Hchain [IHin IHle] Hadopt].
  - split; [exact Hfirst | lia].
  - destruct (adopts_rank dataPoints IHin Hadopt) as [Hin Hlt].
    split; [exact Hin | lia].
Qed.

(** C2, as it holds.  For every sequence of two or more points the
    classifier returns, and its choice is the outcome of the scan: from
    the first of the models sorted by RMSE, one turn for each of the other
    models in the order of the sorted array; in a turn the candidate
    replaces the current best exactly when its rank is lower and its RMSE
    exceeds that of the current best (not of the first) by less than 15%
    of it, with [1e-9] for a zero RMSE, and the constant model then
    replaces a logarithmic outcome exactly when its RMSE is below 3 times
    that of the logarithmic model, whose RMSE is below 10% of the signal.
    These turns leave no choice.  The choice is thus reached from the
    first model by a chain of replacements and its rank is at most that
    of the first model; and the answer is Constant when the timings are
    low and flat.  The loop follows these turns on every array of models,
    whatever the order the sort has left them in.  On
    [noisy_linear_series] the quadratic RMSE is marginally below the
    linear one and the answer is Linear. *)
Theorem occam_rule :
  (forall dataPoints : list DataPoint.t,
      (2 <= List.length dataPoints)%nat ->
      exists r meanTime timeVariance maxTime first rest best,
        let timeValues := map DataPoint.time dataPoints in
        let models := first :: rest in
        determineComplexity dataPoints = Return r /\
        ss.mean timeValues = Return meanTime /\
        ss.variance timeValues = Return timeVariance /\
        ss.max timeValues = Return maxTime /\
        sorted_models dataPoints = Return models /\
        scan models meanTime first rest best /\
        (forall best',
            scan models meanTime first rest best' -> best' = best) /\
        adoption_chain models meanTime first best /\
        Model.complexity best <= Model.complexity first /\
        AnalysisResult.bestFit r
        = if low_and_flat maxTime timeVariance meanTime
          then "O(1) - Constant"%string
          else Model.type best) /\
  (forall (models : list Model.t) (meanTime : number) (first : Model.t)
          (rest : list Model.t) (best : Model.t),
      scan models meanTime first rest best
      <-> best = occam_scan models meanTime first rest) /\
  (let models := models_or_nil (sorted_models noisy_linear_series) in
   marginally_lower (rmse_of_type "O(n^2) - Quadratic" models)
                    (rmse_of_type "O(n) - Linear" models) = true /\
   bestFit_of (determineComplexity noisy_linear_series)
   = Some "O(n) - Linear"%string).
Proof.
  split; [|split; [|vm_compute; split; reflexivity]].
  2:{ intros models meanTime first rest best. split.
      - intros H. apply (scan_functional H (occam_scan_follows _ _ _ _)).
      - intros ->. apply occam_scan_follows. }
  intros dataPoints Hlen.
  assert (Hne : dataPoints <> []) by (intros ->; simpl in Hlen; lia).
  destruct (determineComplexity_unfold Hne)
    as (mt & tv & mx & first & rest & H).
  cbn zeta in H. destruct H as (Hmean & Hvar & Hmax & Hsort & H).
  exists (AnalysisResult.mk
            (Model.type
               (if low_and_flat mx tv mt
                then constant_model dataPoints mt
                else occam_scan (first :: rest) mt first rest))
            (Math_round
               (confidence_of
                  (first :: rest) mt
                  (if low_and_flat mx tv mt
                   then constant_model dataPoints mt
                   else occam_scan (first :: rest) mt first rest)))
            (Array_sort by_fit_rmse (map fit_of (first :: rest)))).
  exists mt, tv, mx, first, rest, (occam_scan (first :: rest) mt first rest).
  cbn zeta.
  assert (Hchain : adoption_chain (first :: rest) mt first
                                  (occam_scan (first :: rest) mt first rest)).
  { apply occam_scan_chain_from.
    - intros x Hx; right; exact Hx.
    - apply chain_start. }
  repeat split.
  - rewrite H, Hsort. reflexivity.
  - exact Hmean.
  - exact Hvar.
  - exact Hmax.
  - unfold sorted_models. rewrite Hmean. cbn [bind]. rewrite Hsort.
    reflexivity.
  - apply occam_scan_follows.
  - intros best' Hbest'.
    apply (scan_functional Hbest' (occam_scan_follows _ _ first rest)).
  - exact Hchain.
  - pose proof (@adoption_chain_rank
                  dataPoints mt first
                  (occam_scan (first :: rest) mt first rest)) as Hrank.
    cbn zeta in Hrank. rewrite Hsort in Hrank.
    apply Hrank; [left; reflexivity | exact Hchain].
  - destruct (low_and_flat mx tv mt); reflexivity.
Qed.

Lemma occam_rule_witness :
  exists r meanTime timeVariance maxTime first rest best,
    determineComplexity chained_series = Return r /\
    sorted_models chained_series = Return (first :: rest) /\
    scan (first :: rest) meanTime first rest best /\
    AnalysisResult.bestFit r
    = if low_and_flat maxTime timeVariance meanTime
      then "O(1) - Constant"%string
      else Model.type best.
Proof.
  destruct (proj1 occam_rule chained_series)
    as (r & mt & tv & mx & first & rest & best & H).
  - simpl. lia.
  - cbn zeta in H.
    destruct H as (Hr & _ & _ & _ & Hs & Hc & _ & _ & _ & Hb).
    exists r, mt, tv, mx, first, rest, best.
    exact (conj Hr (conj Hs (conj Hc Hb))).
Defined.

(** C2, as the specification states it, fails on [chained_series]: the
    lowest RMSE is the quadratic one, the linear model is the simplest
    within 15% of it, and the classifier answers Constant, having gone
    from Quadratic to Linear-ithmic, Linear, Logarithmic and Constant. *)
Lemma occam_rule_counterexample : ~ spec_occam_claim chained_series.
Proof.
  intros H.
  assert (Hs : sorted_models chained_series
               = Return (models_or_nil (sorted_models chained_series)))
    by (vm_compute; reflexivity).
  specialize (H _ Hs).
  assert (Hcode : bestFit_of (determineComplexity chained_series)
                  = Some "O(1) - Constant"%string)
    by (vm_compute; reflexivity).
  assert (Hspec : option_map Model.type
                    (spec_simplest_within_tolerance
                       (models_or_nil (sorted_models chained_series)))
                  = Some "O(n) - Linear"%string)
    by (vm_compute; reflexivity).
  rewrite Hcode, Hspec in H. discriminate H.
Qed.

(** ** The classifier on particular series *)

(** C1, at the failing input: on [alternating_series], whose sizes are
    1, 2, 3, 4 and whose durations are 3, 1, 3, 1, the classifier answers
    with the confidence -4.  The separation term is negative there and
    only [Math.min(1, separation)] is applied to it. *)
Theorem confidence_negative_on_alternating_series :
  forallb well_formed alternating_series = true
  /\ confidence_of_result (determineComplexity alternating_series)
     = Some (lit (-4)%float)
  /\ bestFit_of (determineComplexity alternating_series)
     = Some "O(1) - Constant"%string.
Proof. vm_compute. repeat split; reflexivity. Qed.

(** *** Integers as numbers *)

Lemma digits2_pos_size (p : positive) : digits2_pos p = Pos.size p.
Proof. induction p as [p IH|p IH|]; simpl; congruence. Qed.

Lemma digits2_pos_iter (p k : positive) :
  digits2_pos (Pos.iter xO p k) = (digits2_pos p + k)%positive.
Proof.
  induction k as [|k IH] using Pos.peano_ind.
  - simpl. rewrite Pos.add_1_r. reflexivity.
  - rewrite Pos.iter_succ. cbn [digits2_pos]. rewrite IH.
    rewrite Pos.add_succ_r. reflexivity.
Qed.

Lemma iter_xO_value (p k : positive) :
  Z.pos (Pos.iter xO p k) = Z.pos p * 2 ^ Z.pos k.
Proof.
  change (Pos.iter xO p k) with (shift_pos k p).
  rewrite shift_pos_correct, Z.pow_pos_fold. apply Z.mul_comm.
Qed.

(** The bounds that the number of binary digits gives. *)
Lemma digits_bounds (p : positive) :
  2 ^ (Z.pos (digits2_pos p) - 1) <= Z.pos p < 2 ^ Z.pos (digits2_pos p).
Proof.
  rewrite digits2_pos_size. split.
  - pose proof (Pos.size_le p) as H.
    apply Pos2Z.pos_le_pos in H. rewrite Pos2Z.inj_pow in H.
    change (Z.pos p~0) with (2 * Z.pos p) in H.
    replace (Z.pos (Pos.size p)) with (Z.succ (Z.pos (Pos.size p) - 1)) in H
      by lia.
    rewrite Z.pow_succ_r in H by lia. lia.
  - pose proof (Pos.size_gt p) as H.
    apply Pos2Z.pos_lt_pos in H. rewrite Pos2Z.inj_pow in H. exact H.
Qed.

Lemma digits_small (p : positive) :
  Z.pos p < 2 ^ 53 -> Z.pos (digits2_pos p) <= 53.
Proof.
  intros Hp. destruct (digits_bounds p) as [Hlo _].
  destruct (Z_le_gt_dec (Z.pos (digits2_pos p)) 53) as [H | H]; [exact H|].
  assert (Hpow : 2 ^ 53 <= 2 ^ (Z.pos (digits2_pos p) - 1))
    by (apply Z.pow_le_mono_r; lia).
  lia.
Qed.

(** Rounding an integer from 1 to [2^53 - 1] leaves it as it is: the
    mantissa is the integer shifted to 53 bits. *)
Lemma binary_round_small (s : bool) (p : positive) :
  Z.pos p < 2 ^ 53 ->
  let d := Z.pos (digits2_pos p) in
  exists mz,
    binary_round prec emax s p 0 = S754_finite s mz (d - 53)
    /\ Z.pos mz = Z.pos p * 2 ^ (53 - d)
    /\ d <= 53.
Proof.
  intros Hp d. pose proof (@digits_small p Hp) as Hd. fold d in Hd.
  unfold binary_round.
  assert (Hfexp : fexp prec emax (d + 0) = d - 53).
  { unfold fexp, SpecFloat.emin, prec, emax. subst d. lia. }
  fold d. rewrite Hfexp.
  assert (Hal : exists mz,
             shl_align p 0 (d - 53) = (mz, d - 53)
             /\ Z.pos mz = Z.pos p * 2 ^ (53 - d)
             /\ Z.pos (digits2_pos mz) = 53).
  { unfold shl_align. rewrite Z.sub_0_r.
    destruct (d - 53) as [|k|k] eqn:Hk; try lia.
    - exists p. replace (53 - d) with 0 by lia.
      rewrite Z.pow_0_r, Z.mul_1_r. repeat split. subst d. lia.
    - exists (Pos.iter xO p k). repeat split.
      + rewrite iter_xO_value. f_equal. f_equal. lia.
      + rewrite digits2_pos_iter, Pos2Z.inj_add. fold d. lia. }
  destruct Hal as (mz & -> & Hval & Hdig).
  exists mz. split; [|split; assumption].
  unfold binary_round_aux, shr_fexp. cbn [Zdigits2]. rewrite Hdig.
  assert (Hfexp' : fexp prec emax (53 + (d - 53)) - (d - 53) = 0).
  { unfold fexp, SpecFloat.emin, prec, emax. subst d. lia. }
  rewrite Hfexp'. cbn [shr shr_record_of_loc shr_m loc_of_shr_record
                         round_nearest_even Zdigits2].
  rewrite Hdig, Hfexp'. cbn [shr shr_m].
  assert (Hle : (d - 53 <=? emax - prec) = true).
  { apply Z.leb_le. unfold emax, prec. lia. }
  rewrite Hle. reflexivity.
Qed.

Lemma of_Z_small (p : positive) :
  Z.pos p < 2 ^ 53 ->
  let d := Z.pos (digits2_pos p) in
  exists mz,
    of_Z (Z.pos p) = S754_finite false mz (d - 53)
    /\ Z.pos mz = Z.pos p * 2 ^ (53 - d)
    /\ d <= 53.
Proof. apply binary_round_small. Qed.

(** *** Flat series *)

Lemma sub_self (x : number) : is_finite x = true -> (x - x)%js = zero.
Proof.
  destruct x as [[|]|s| |s m e]; try discriminate; intros _;
    try reflexivity.
  unfold sub, SFsub. rewrite Z.sub_diag. reflexivity.
Qed.

Lemma sumSquaredErrors_exact (meanTime : number)
      (dataPoints : list DataPoint.t) :
  is_finite meanTime = true ->
  (forall d, In d dataPoints -> DataPoint.time d = meanTime) ->
  sumSquaredErrors (map DataPoint.time dataPoints)
                   (map (fun _ => meanTime) (map DataPoint.n dataPoints))
                   zero
  = zero.
Proof.
  intros Hfin. induction dataPoints as [|d ds IH]; intros Hall;
    [reflexivity|].
  cbn [map sumSquaredErrors hd tl].
  rewrite (Hall d (or_introl eq_refl)), (sub_self meanTime Hfin).
  change (zero + square zero)%js with zero.
  apply IH. intros d' Hd'. apply Hall. right. exact Hd'.
Qed.

(** When the mean of the durations is computed exactly, each of them
    being that mean, the RMSE of the constant model is 0. *)
Lemma constant_rmse_of_exact_mean (dataPoints : list DataPoint.t)
      (meanTime : number) :
  dataPoints <> [] ->
  Z.of_nat (List.length dataPoints) < 2 ^ 53 ->
  is_finite meanTime = true ->
  (forall d, In d dataPoints -> DataPoint.time d = meanTime) ->
  Model.rmse (constant_model dataPoints meanTime) = zero.
Proof.
  intros Hne Hlen Hfin Hall.
  unfold constant_model. cbn [Model.rmse]. unfold calculateRMSE.
  rewrite (sumSquaredErrors_exact dataPoints Hfin Hall).
  unfold ss.length_of. rewrite length_map.
  destruct dataPoints as [|d ds]; [congruence|].
  destruct (Z.of_nat (List.length (d :: ds))) as [|p|p] eqn:Hp;
    try (cbn [List.length] in Hp; lia).
  destruct (@of_Z_small p Hlen) as (mz & -> & _).
  reflexivity.
Qed.


Lemma calculateRMSE_sign (actual predicted : list number) :
  let r := calculateRMSE actual predicted in
  r = NaN \/ sign_bit r = false \/ is_zero r = true.
Proof.
  unfold calculateRMSE, sqrt, SFsqrt.
  destruct (sumSquaredErrors actual predicted zero / ss.length_of actual)%js
    as [s|[|]| |[|] m e]; cbn zeta; auto.
  destruct (SFsqrt_core_binary prec emax (Z.pos m) e) as [[mz ez] lz].
  destruct (binary_round_aux_sign false mz ez lz) as [H | H]; auto.
Qed.

Lemma zero_minus_not_positive (r : number) :
  r = NaN \/ sign_bit r = false \/ is_zero r = true ->
  (zero - r >? zero)%js = false.
Proof.
  intros [-> | [H | H]]; [reflexivity| |].
  - destruct r as [s|s| |s m e]; simpl in H; subst; reflexivity.
  - destruct r as [[|]|s| |s m e]; try discriminate H; reflexivity.
Qed.

Section HeadOfSort.
Context {A : Type} (compareFn : A -> A -> number) (c : A).

(** An element that the comparator never puts after another one stays in
    front when the array is sorted. *)
Lemma insert_keeps_last (x : A) (l : list A) :
  (compareFn c x >? zero)%js = false ->
  exists l', insert_from_right compareFn x (l ++ [c]) = l' ++ [c].
Proof.
  intros Hx. induction l as [|y l [l' IH]]; simpl.
  - rewrite Hx. exists [x]. reflexivity.
  - destruct (compareFn y x >? zero)%js.
    + rewrite IH. exists (y :: l'). reflexivity.
    + exists (x :: y :: l). reflexivity.
Qed.

Lemma fold_insert_keeps_last (a acc : list A) :
  (forall x, In x a -> (compareFn c x >? zero)%js = false) ->
  exists l',
    fold_left (fun rs x => insert_from_right compareFn x rs) a (acc ++ [c])
    = l' ++ [c].
Proof.
  revert acc; induction a as [|x a IH]; intros acc Ha; simpl.
  - exists acc. reflexivity.
  - destruct (insert_keeps_last x acc (Ha x (or_introl eq_refl)))
      as [l' ->].
    apply IH. intros y Hy. apply Ha. right. exact Hy.
Qed.

Lemma Array_sort_head (a : list A) :
  (forall x, In x a -> (compareFn c x >? zero)%js = false) ->
  exists rest, Array_sort compareFn (c :: a) = c :: rest.
Proof.
  intros Ha. unfold Array_sort. simpl.
  destruct (fold_insert_keeps_last a [] Ha) as [l' Hl]. simpl in Hl.
  rewrite Hl, rev_app_distr. exists (rev l'). reflexivity.
Qed.

End HeadOfSort.

Lemma occam_scan_constant (models rest : list Model.t) (meanTime : number)
      (c : Model.t) :
  Model.complexity c = 1 -> is_Olog c = false ->
  (forall m, In m rest -> 1 <= Model.complexity m) ->
  occam_scan models meanTime c rest = c.
Proof.
  intros Hc Hlog. unfold occam_scan.
  induction rest as [|m rest IH]; intros Hrest; simpl; [reflexivity|].
  assert (Hstep : occam_step models meanTime c m = c).
  { unfold occam_step.
    assert (Hm : (Model.complexity m <? Model.complexity c) = false).
    { apply Z.ltb_ge. rewrite Hc. apply Hrest. left. reflexivity. }
    rewrite Hm, Hlog. reflexivity. }
  rewrite Hstep. apply IH. intros m' Hm'. apply Hrest. right. exact Hm'.
Qed.

(** On [long_flat_series] the answer is not Constant with confidence
    100: one of the two fails. *)
Lemma long_flat_series_answer :
  ~ constant_for_sure (determineComplexity long_flat_series).
Proof.
  assert (Hq : match determineComplexity long_flat_series with
               | Return r =>
                   String.eqb (AnalysisResult.bestFit r) "O(1) - Constant"
                   && eqb (AnalysisResult.confidence r) (lit 100%float)
               | Throw _ => false
               end = false)
    by (vm_compute; reflexivity).
  unfold constant_for_sure, bestFit_of, confidence_of_result.
  revert Hq.
  destruct (determineComplexity long_flat_series) as [r|e];
    intros Hq [Hbest Hconf]; [|discriminate Hbest].
  inversion Hbest as [Hb]. inversion Hconf as [Hc].
  rewrite Hb, Hc in Hq. discriminate Hq.
Qed.

(** With four regressions that fit [long_flat_series] exactly as well as
    the constant model, as lines through the computed mean do, the choice
    is Constant and the confidence is 70: the separation is 0. *)
Lemma long_flat_series_with_equal_fits :
  let meanTime := lit 11555307.520000001%float in
  let c := Model.rmse (constant_model long_flat_series meanTime) in
  match Array_sort by_rmse (the_models c c c c c) with
  | first :: rest =>
      let models := first :: rest in
      let best := occam_scan models meanTime first rest in
      Model.type best = "O(1) - Constant"%string
      /\ Math_round (confidence_of models meanTime best) = lit 70%float
  | [] => False
  end.
Proof. vm_compute. split; reflexivity. Qed.

(** C5, as it holds: whenever the RMSE of the constant model is computed
    as 0, the classifier answers Constant with confidence 100; the RMSE
    is 0 whenever the mean that [ss.mean] computes is the duration that
    the points share (an array holds at most [2^32 - 1] of them), as on
    the flat series of the specification.
    On [long_flat_series], three points of duration 11555307.52, the mean
    computed is not that duration but the next number above it, the RMSE
    of the constant model is not 0 and not below the noise floor, and the
    answer is not Constant with confidence 100. *)
Theorem flat_series_classification :
  (forall (dataPoints : list DataPoint.t) (meanTime : number),
      ss.mean (map DataPoint.time dataPoints) = Return meanTime ->
      Model.rmse (constant_model dataPoints meanTime) = zero ->
      bestFit_of (determineComplexity dataPoints)
      = Some "O(1) - Constant"%string
      /\ confidence_of_result (determineComplexity dataPoints)
         = Some (lit 100%float))
  /\ (forall (dataPoints : list DataPoint.t) (meanTime : number),
         Z.of_nat (List.length dataPoints) <= 2 ^ 32 - 1 ->
         ss.mean (map DataPoint.time dataPoints) = Return meanTime ->
         is_finite meanTime = true ->
         (forall d, In d dataPoints -> DataPoint.time d = meanTime) ->
         Model.rmse (constant_model dataPoints meanTime) = zero)
  /\ (bestFit_of (determineComplexity flat_series_of_spec)
      = Some "O(1) - Constant"%string
      /\ confidence_of_result (determineComplexity flat_series_of_spec)
         = Some (lit 100%float))
  /\ (forallb well_formed long_flat_series = true
      /\ flat long_flat_series = true
      /\ ss.mean (map DataPoint.time long_flat_series)
         = Return (lit 11555307.520000001%float)
      /\ (Model.rmse (constant_model long_flat_series
                                     (lit 11555307.520000001%float))
          <? noiseFloor)%js = false
      /\ ~ constant_for_sure (determineComplexity long_flat_series)).
Proof.
  split; [|split; [|split; [vm_compute; split; reflexivity|]]].
  2:{ intros dataPoints meanTime Hlen Hmean Hfin Hall.
      apply constant_rmse_of_exact_mean; try assumption; [|lia].
      intros ->. discriminate Hmean. }
  2:{ repeat split; try (vm_compute; reflexivity).
      apply long_flat_series_answer. }
  intros dataPoints meanTime Hmean Hzero.
  assert (Hne : dataPoints <> []).
  { intros ->. discriminate Hmean. }
  destruct (determineComplexity_unfold Hne)
    as (mt & tv & mx & first & rest & H).
  cbn zeta in H. destruct H as (Hmean' & _ & _ & Hsort & H).
  rewrite Hmean in Hmean'. inversion Hmean'; subst mt. clear Hmean'.
  set (c := constant_model dataPoints meanTime) in *.
  (* the constant model stays in front *)
  assert (Hhead : first = c).
  { destruct (@Array_sort_head
                _ by_rmse c
                (tl (fit_models dataPoints meanTime))) as [rest' Hrest'].
    - intros m Hm. unfold by_rmse. rewrite Hzero.
      apply zero_minus_not_positive.
      unfold fit_models, the_models in Hm. simpl in Hm.
      destruct Hm as [<- | [<- | [<- | [<- | []]]]];
        apply calculateRMSE_sign.
    - change (c :: tl (fit_models dataPoints meanTime))
        with (fit_models dataPoints meanTime) in Hrest'.
      rewrite Hsort in Hrest'. inversion Hrest'. reflexivity. }
  subst first.
  (* nothing replaces it *)
  assert (Hscan : occam_scan (c :: rest) meanTime c rest = c).
  { apply occam_scan_constant; try reflexivity.
    intros m Hm.
    assert (Hin : In m (fit_models dataPoints meanTime)).
    { apply (Array_sort_in by_rmse). rewrite Hsort. right. exact Hm. }
    unfold fit_models in Hin. apply (the_models_rank Hin). }
  rewrite Hsort in H. rewrite Hscan in H.
  assert (Hbest : (if low_and_flat mx tv meanTime then c else c) = c)
    by (destruct (low_and_flat mx tv meanTime); reflexivity).
  rewrite Hbest in H. rewrite H. simpl.
  unfold confidence_of. subst c. simpl in Hzero |- *. rewrite Hzero.
  split; reflexivity.
Qed.

Lemma flat_series_classification_witness :
  bestFit_of (determineComplexity flat_series_of_spec)
  = Some "O(1) - Constant"%string
  /\ confidence_of_result (determineComplexity flat_series_of_spec)
     = Some (lit 100%float).
Proof.
  apply (proj1 flat_series_classification flat_series_of_spec (lit 1%float));
    vm_compute; reflexivity.
Defined.

(** C5, as the specification states it, fails on [long_flat_series]: its
    three durations are equal, and the answer is not Constant with
    confidence 100. *)
Lemma flat_series_counterexample : ~ spec_flat_claim long_flat_series.
Proof.
  intros H. apply long_flat_series_answer, H.
  - simpl. lia.
  - vm_compute. reflexivity.
Qed.

(** C3, as the specification states it, fails on
    [series_with_zero_size]: the result holds RMSEs that are not finite. *)
Lemma zero_size_counterexample :
  ~ (exists r,
        determineComplexity series_with_zero_size = Return r
        /\ all_fits_finite r).
Proof.
  intros (r & Hr & Hfin).
  assert (H : exists r0,
             determineComplexity series_with_zero_size = Return r0
             /\ forallb (fun f => is_finite (ModelFit.rmse f))
                        (AnalysisResult.results r0) = false)
    by (eexists; split; vm_compute; reflexivity).
  destruct H as (r0 & Hr0 & Hnot).
  rewrite Hr in Hr0. inversion Hr0; subst r0.
  unfold all_fits_finite in Hfin. rewrite Forall_forall in Hfin.
  apply (proj2 (forallb_forall _ _)) in Hfin. congruence.
Qed.

Lemma zero_size_gives_nan_fits_witness :
  exists r,
    determineComplexity series_with_zero_size = Return r /\
    has_nan_fit "O(log n) - Logarithmic" r /\
    has_nan_fit "O(n log n) - Linear-ithmic" r.
Proof.
  destruct (@zero_size_gives_nan_fits series_with_zero_size)
    as (r & mt & Hr & _ & Hlog & Hnlogn & _).
  - simpl; lia.
  - exists (point 0 1). split; [left; reflexivity | reflexivity].
  - exists r. exact (conj Hr (conj Hlog Hnlogn)).
Defined.

(** C7, as it holds: on fewer than two points the classifier throws only
    when there is no point at all, and then the error is the one of
    [ss.mean]; a single point is classified. *)
Theorem short_sequences (dataPoints : list DataPoint.t) :
  (List.length dataPoints < 2)%nat ->
  (dataPoints = []
   /\ determineComplexity dataPoints
      = Throw (mkError "Error" "mean requires at least one data point"))
  \/ (exists d r,
         dataPoints = [d] /\ determineComplexity dataPoints = Return r).
Proof.
  intros Hlen. destruct dataPoints as [|d [|d' ds]]; simpl in Hlen; try lia.
  - left. split; reflexivity.
  - right. destruct (@determineComplexity_returns [d]) as [r Hr];
      [discriminate|].
    exists d, r. split; [reflexivity | exact Hr].
Qed.

Lemma short_sequences_witness :
  ([point 5 1] = []
   /\ determineComplexity [point 5 1]
      = Throw (mkError "Error" "mean requires at least one data point"))
  \/ (exists d r,
         [point 5 1] = [d] /\ determineComplexity [point 5 1] = Return r).
Proof. apply short_sequences. simpl. lia. Defined.

(** C7, as the specification states it, fails: no InsufficientDataError is
    raised on the empty sequence nor on a sequence of one point. *)
Lemma short_sequences_counterexample :
  ~ raises "InsufficientDataError" (determineComplexity [])
  /\ ~ raises "InsufficientDataError" (determineComplexity [point 5 1]).
Proof.
  split.
  - intros (e & He & Hname). inversion He; subst e. discriminate Hname.
  - intros (e & He & _).
    destruct (@determineComplexity_returns [point 5 1]) as [r Hr];
      [discriminate|].
    rewrite Hr in He. discriminate He.
Qed.

(** * Properties of the measurement engine *)

Section EngineFacts.
Variable AlgState : Type.
Variable algorithm :
  AlgState -> list number -> AlgState * list number * option JsError.
Variable clock : nat -> number.

Lemma no_throw_app (evs1 evs2 : list Event) :
  no_throw evs1 -> no_throw evs2 -> no_throw (evs1 ++ evs2).
Proof. intros H1 H2. apply Forall_app. split; assumption. Qed.

Lemma sound_ret {A : Type} (a : A) : sound (ret a : M AlgState A).
Proof. intros w. exists []. split; [reflexivity | constructor]. Qed.

Lemma sound_throw {A : Type} (e : JsError) : sound (throw e : M AlgState A).
Proof. intros w. exists []. split; [reflexivity | left; constructor]. Qed.

Lemma sound_lift {A : Type} (c : completion A) : sound (lift c : M AlgState A).
Proof.
  intros w. exists []. split; [reflexivity|].
  destruct c; simpl; [constructor | left; constructor].
Qed.

Lemma sound_timeout {A : Type} : sound (fun w => Timeout w : outcome AlgState A).
Proof. intros w. exists []. split; [reflexivity | constructor]. Qed.

Lemma sound_now : sound (now clock : M AlgState number).
Proof.
  intros w. exists [EvNow (clock (reads w))]. split; [reflexivity|].
  simpl. repeat constructor.
Qed.

Lemma sound_call (array : list number) : sound (call algorithm array).
Proof.
  intros w. unfold call.
  destruct (algorithm (alg_state w) array) as [[s' array'] [e|]].
  - exists [EvCall array (Some e)]. split; [reflexivity|].
    right. exists array, []. split; [reflexivity | constructor].
  - exists [EvCall array None]. split; [reflexivity|].
    simpl. repeat constructor.
Qed.

Lemma sound_bind {A B : Type} (c : M AlgState A) (k : A -> M AlgState B) :
  sound c -> (forall a, sound (k a)) -> sound (mbind c k).
Proof.
  intros Hc Hk w. unfold mbind.
  destruct (Hc w) as (evs1 & Ht1 & Hf1).
  destruct (c w) as [[a|e] w1|w1]; simpl in Ht1, Hf1.
  - destruct (Hk a w1) as (evs2 & Ht2 & Hf2).
    exists (evs2 ++ evs1). split.
    + rewrite Ht2, Ht1. apply app_assoc.
    + destruct (k a w1) as [[b|e] w2|w2]; simpl in Hf2 |- *;
        try (apply no_throw_app; assumption).
      destruct Hf2 as [Hn | (arg & evs' & -> & Hn)].
      * left. apply no_throw_app; assumption.
      * right. exists arg, (evs' ++ evs1).
        split; [reflexivity | apply no_throw_app; assumption].
  - exists evs1. split; assumption.
  - exists evs1. split; assumption.
Qed.

Lemma sound_for_lt {S : Type} (body : S -> M AlgState S) (bound : number) :
  (forall st, sound (body st)) ->
  forall fuel i st, sound (for_lt fuel i bound body st).
Proof.
  intros Hbody. induction fuel as [|fuel IH]; intros i st; simpl;
    destruct (of_Z i <? bound)%js; try apply sound_ret.
  - apply sound_timeout.
  - apply sound_bind; [apply Hbody | intros st'; apply IH].
Qed.

Lemma sound_while {S : Type} (cond : S -> bool) (body : S -> M AlgState S) :
  (forall st, sound (body st)) ->
  forall fuel st, sound (while fuel cond body st).
Proof.
  intros Hbody. induction fuel as [|fuel IH]; intros st; simpl;
    destruct (cond st); try apply sound_ret.
  - apply sound_timeout.
  - apply sound_bind; [apply Hbody | intros st'; apply IH].
Qed.

Lemma sound_for_of {S A : Type} (body : S -> A -> M AlgState S) :
  (forall st x, sound (body st x)) ->
  forall items st, sound (for_of body items st).
Proof.
  intros Hbody. induction items as [|x items IH]; intros st; simpl.
  - apply sound_ret.
  - apply sound_bind; [apply Hbody | intros st'; apply IH].
Qed.

Ltac sound_steps :=
  repeat first
    [ apply sound_ret | apply sound_lift | apply sound_now
    | apply sound_call
    | apply sound_bind; [|intros ?]
    | apply sound_for_lt; intros ?
    | apply sound_while; intros ? ].

Lemma sound_warmup (fuel : nat) (inputSizes : list number) :
  sound (warmup algorithm fuel inputSizes).
Proof. unfold warmup. destruct inputSizes; sound_steps. Qed.

Lemma sound_calibrate (fuel : nat) (n : number) :
  sound (calibrate algorithm clock fuel n).
Proof. unfold calibrate, cal_body. sound_steps. Qed.

Lemma sound_timed_batch (fuel : nat) (n batchSize : number)
      (times : list number) :
  sound (timed_batch algorithm clock fuel n batchSize times).
Proof. unfold timed_batch. sound_steps. Qed.

Lemma sound_measure_size (fuel : nat) (iterations : number)
      (dataPoints : list DataPoint.t) (n : number) :
  sound (measure_size algorithm clock fuel iterations dataPoints n).
Proof.
  unfold measure_size.
  apply sound_bind; [apply sound_calibrate|]. intros [calDuration calCount].
  apply sound_bind; [apply sound_for_lt; intros; apply sound_timed_batch|].
  intros times. sound_steps.
Qed.

Lemma sound_runAnalysis (fuel : nat) (inputSizes : list number)
      (iterations : number) :
  sound (runAnalysis algorithm clock fuel inputSizes iterations).
Proof.
  unfold runAnalysis.
  apply sound_bind; [apply sound_warmup|]. intros _.
  apply sound_for_of. intros; apply sound_measure_size.
Qed.

(** The sizes of the data points returned are the sizes requested. *)
Lemma measure_size_appends (fuel : nat) (iterations : number)
      (dataPoints pts : list DataPoint.t) (n : number)
      (w w' : World AlgState) :
  measure_size algorithm clock fuel iterations dataPoints n w
  = Done (Return pts) w' ->
  exists avgTime, pts = dataPoints ++ [DataPoint.mk n avgTime].
Proof.
  unfold measure_size, mbind.
  destruct (calibrate algorithm clock fuel n w)
    as [[[calDuration calCount]|e] w1|w1]; try discriminate.
  destruct (for_lt fuel 0 iterations _ [] w1) as [[times|e] w2|w2];
    try discriminate.
  unfold lift. destruct (ss.mean times) as [avgTime|e]; try discriminate.
  unfold ret. intros H. inversion H. exists avgTime. reflexivity.
Qed.

Lemma for_of_measure_sizes (fuel : nat) (iterations : number)
      (sizes : list number) :
  forall (acc pts : list DataPoint.t) (w w' : World AlgState),
    for_of (measure_size algorithm clock fuel iterations) sizes acc w
    = Done (Return pts) w' ->
    map DataPoint.n pts = map DataPoint.n acc ++ sizes.
Proof.
  induction sizes as [|n sizes IH]; intros acc pts w w'; simpl.
  - unfold ret. intros H. inversion H. rewrite app_nil_r. reflexivity.
  - unfold mbind.
    destruct (measure_size algorithm clock fuel iterations acc n w)
      as [[acc'|e] w1|w1] eqn:Hm; try discriminate.
    intros H. apply IH in H. rewrite H.
    apply measure_size_appends in Hm. destruct Hm as [t ->].
    rewrite map_app, <- app_assoc. reflexivity.
Qed.

Lemma runAnalysis_sizes (fuel : nat) (sizes : list number)
      (iterations : number) (pts : list DataPoint.t)
      (w w' : World AlgState) :
  runAnalysis algorithm clock fuel sizes iterations w = Done (Return pts) w' ->
  map DataPoint.n pts = sizes.
Proof.
  unfold runAnalysis, mbind.
  destruct (warmup algorithm fuel sizes w) as [[[]|e] w1|w1];
    try discriminate.
  apply for_of_measure_sizes.
Qed.

(** C4, as it holds: within any step budget, if an invocation of the
    algorithm under test has thrown, in the warm-up, in a calibration or
    in a timed batch, then that invocation is the last event of the run and
    the run has completed abruptly with the very error thrown, not wrapped
    into another error; and a run that returns data points has seen no
    invocation throw and returns one point for each requested size. *)
Theorem algorithm_error_propagates (fuel : nat) (inputSizes : list number)
        (iterations : number) (w : World AlgState) :
  let o := runAnalysis algorithm clock fuel inputSizes iterations w in
  exists evs,
    trace (world_of o) = evs ++ trace w /\
    (forall arg e,
        In (EvCall arg (Some e)) evs ->
        (exists w', o = Done (Throw e) w') /\
        (exists evs', evs = EvCall arg (Some e) :: evs' /\ no_throw evs')) /\
    (forall pts w',
        o = Done (Return pts) w' ->
        no_throw evs /\ map DataPoint.n pts = inputSizes).
Proof.
  intros o.
  destruct (sound_runAnalysis fuel inputSizes iterations w)
    as (evs & Ht & Hfits).
  fold o in Ht, Hfits. exists evs. split; [exact Ht|]. split.
  - intros arg e Hin.
    assert (Hthrew : ~ no_throw evs).
    { intros Hn. unfold no_throw in Hn. rewrite Forall_forall in Hn.
      specialize (Hn _ Hin). discriminate Hn. }
    destruct o as [[pts|e0] w'|w']; simpl in Hfits; try contradiction.
    destruct Hfits as [Hn | (arg0 & evs' & -> & Hn)]; [contradiction|].
    destruct Hin as [Heq | Hin].
    + inversion Heq; subst. split; [exists w'; reflexivity|].
      exists evs'. split; [reflexivity | exact Hn].
    + unfold no_throw in Hn. rewrite Forall_forall in Hn.
      specialize (Hn _ Hin). discriminate Hn.
  - intros pts w' Ho. split.
    + rewrite Ho in Hfits. exact Hfits.
    + subst o. apply runAnalysis_sizes in Ho. exact Ho.
Qed.

End EngineFacts.

Lemma algorithm_error_propagates_witness :
  exists w',
    runAnalysis failing_algorithm ticking_clock 1000 [lit 10%float]
                (lit 10%float) initial_world
    = Done (Throw boom) w'.
Proof.
  destruct (algorithm_error_propagates
              failing_algorithm ticking_clock 1000 [lit 10%float]
              (lit 10%float) initial_world) as (evs & Ht & Hthrow & _).
  rewrite app_nil_r in Ht.
  assert (Hev : In (EvCall (map (fun i => of_Z (Z.of_nat i)) (seq 0 10))
                           (Some boom)) evs).
  { rewrite <- Ht. vm_compute. left. reflexivity. }
  destruct (Hthrow _ _ Hev) as [Hdone _]. exact Hdone.
Defined.

(** C4, as the specification states it, fails: an algorithm that throws a
    TypeError makes the engine complete with that TypeError, which no
    AlgorithmExecutionError wraps. *)
Lemma algorithm_error_counterexample :
  ~ spec_wraps_failure
      (runAnalysis failing_algorithm ticking_clock 1000 [lit 10%float]
                   (lit 10%float) initial_world)
      boom.
Proof.
  assert (H : exists w',
             runAnalysis failing_algorithm ticking_clock 1000 [lit 10%float]
                         (lit 10%float) initial_world
             = Done (Throw boom) w')
    by (eexists; vm_compute; reflexivity).
  destruct H as [w' ->].
  intros (e & w & Heq & Hname & _). inversion Heq; subst e.
  discriminate Hname.
Qed.

(** ** Requested sizes *)

Lemma floor_Z_nonneg (m : positive) (e : Z) : 0 <= floor_Z false m e.
Proof.
  unfold floor_Z, signed, cond_Zopp. destruct (0 <=? e) eqn:He.
  - apply Z.mul_nonneg_nonneg; [lia|]. apply Z.pow_nonneg. lia.
  - apply Z.div_pos; [lia|]. apply Z.pow_pos_nonneg; lia.
Qed.

Lemma ToLength_negative (n : number) : (n <? zero)%js = true -> ToLength n = 0.
Proof.
  destruct n as [s|[|]| |[|] m e]; try discriminate; intros _;
    [reflexivity|].
  unfold ToLength, trunc_Z, ceil_Z. cbn [negb].
  pose proof (floor_Z_nonneg m e) as Hf.
  rewrite Z.max_l by lia. reflexivity.
Qed.

(** C6, as it holds: a negative size is no error.  [generateInputArray]
    returns the empty array for it, a run that returns gives one data point
    for each requested size, the negative ones included, and on the sizes
    -5 and 2 the engine returns two data points, of sizes -5 and 2. *)
Theorem negative_size_is_measured :
  (forall n : number,
      (n <? zero)%js = true -> generateInputArray n = Return []) /\
  (forall (AlgState : Type) algorithm clock fuel inputSizes iterations
          (w w' : World AlgState) pts,
      runAnalysis algorithm clock fuel inputSizes iterations w
      = Done (Return pts) w' ->
      map DataPoint.n pts = inputSizes) /\
  (exists w',
      runAnalysis idle_algorithm ticking_clock 1000
                  [lit (-5)%float; lit 2%float] (lit 10%float) initial_world
      = Done (Return [DataPoint.mk (lit (-5)%float)
                                   (lit 1%float / lit 15%float)%js;
                      DataPoint.mk (lit 2%float)
                                   (lit 1%float / lit 15%float)%js])
             w').
Proof.
  split; [|split].
  - intros n Hn. unfold generateInputArray.
    rewrite (ToLength_negative n Hn). reflexivity.
  - intros AlgState algorithm clock fuel inputSizes iterations w w' pts.
    apply runAnalysis_sizes.
  - eexists. vm_compute. reflexivity.
Qed.

Lemma negative_size_is_measured_witness :
  generateInputArray (lit (-5)%float) = Return [].
Proof.
  apply (proj1 negative_size_is_measured). vm_compute. reflexivity.
Defined.

(** C6, as the specification states it, fails: for the size -5 the
    generator raises no InvalidSizeError, and neither does the engine. *)
Lemma negative_size_counterexample :
  ~ raises "InvalidSizeError" (generateInputArray (lit (-5)%float))
  /\ ~ (exists e w,
           runAnalysis idle_algorithm ticking_clock 1000
                       [lit (-5)%float; lit 2%float] (lit 10%float)
                       initial_world
           = Done (Throw e) w
           /\ err_name e = "InvalidSizeError"%string).
Proof.
  split.
  - intros (e & He & _).
    assert (H : generateInputArray (lit (-5)%float) = Return [])
      by (vm_compute; reflexivity).
    rewrite H in He. discriminate He.
  - assert (H : exists pts w',
               runAnalysis idle_algorithm ticking_clock 1000
                           [lit (-5)%float; lit 2%float] (lit 10%float)
                           initial_world
               = Done (Return pts) w')
      by (do 2 eexists; vm_compute; reflexivity).
    destruct H as (pts & w' & ->).
    intros (e & w & Heq & _). discriminate Heq.
Qed.

(** ** The warm-up *)

Lemma below_100 (i : Z) : 0 <= i < 100 -> (of_Z i <? lit 100%float)%js = true.
Proof.
  intros Hi.
  assert (H : forallb (fun k => (of_Z (Z.of_nat k) <? lit 100%float)%js)
                      (seq 0 100) = true) by (vm_compute; reflexivity).
  rewrite forallb_forall in H. specialize (H (Z.to_nat i)).
  rewrite Z2Nat.id in H by lia. apply H. apply in_seq. lia.
Qed.

Section Warmup.
Variable AlgState : Type.
Variable algorithm :
  AlgState -> list number -> AlgState * list number * option JsError.
Variable clock : nat -> number.

Lemma mbind_call {B : Type} (array : list number)
      (k : list number -> M AlgState B) (w : World AlgState) :
  mbind (call algorithm array) k w
  = let '(s', array', thrown) := algorithm (alg_state w) array in
    let w' := mkWorld s' (reads w) (EvCall array thrown :: trace w) in
    match thrown with
    | Some e => Done (Throw e) w'
    | None => k array' w'
    end.
Proof.
  unfold mbind, call.
  destruct (algorithm (alg_state w) array) as [[s' array'] [e|]]; reflexivity.
Qed.

(** The loop of the warm-up from its turn [i]: [100 - i] invocations in a
    row, the first on the array given, unless one of them throws. *)
Lemma warmup_loop (k : nat) :
  forall (fuel : nat) (i : Z) (array : list number) (w : World AlgState),
    i + Z.of_nat k = 100 -> 0 <= i -> (k <= fuel)%nat ->
    let o := for_lt fuel i (lit 100%float) (call algorithm) array w in
    exists calls,
      trace (world_of o) = rev calls ++ trace w /\
      Forall (fun ev => is_call ev = true) calls /\
      ((0 < k)%nat -> exists thrown evs, calls = EvCall array thrown :: evs) /\
      ((List.length calls = k /\ exists array', o = Done (Return array') (world_of o))
       \/ (exists e, o = Done (Throw e) (world_of o))).
Proof.
  induction k as [|k IH]; intros fuel i array w Hi Hpos Hfuel o.
  - assert (i = 100) by lia. subst i.
    assert (Ho : o = Done (Return array) w).
    { subst o. destruct fuel; reflexivity. }
    rewrite Ho. exists []. simpl. repeat split.
    + constructor.
    + intros Hk. inversion Hk.
    + left. split; [reflexivity | exists array; reflexivity].
  - destruct fuel as [|fuel]; [lia|].
    subst o. cbn [for_lt]. rewrite below_100 by lia.
    rewrite mbind_call.
    destruct (algorithm (alg_state w) array) as [[s' array'] [e|]];
      cbv beta iota zeta.
    + exists [EvCall array (Some e)]. simpl. repeat split.
      * repeat constructor.
      * intros _. exists (Some e), []. reflexivity.
      * right. exists e. reflexivity.
    + set (w1 := mkWorld s' (reads w) (EvCall array None :: trace w)).
      destruct (IH fuel (i + 1) array' w1) as (calls & Ht & Hc & _ & Hend);
        try lia.
      exists (EvCall array None :: calls). repeat split.
      * rewrite Ht. simpl. rewrite <- app_assoc. reflexivity.
      * constructor; [reflexivity | exact Hc].
      * intros _. exists None, calls. reflexivity.
      * destruct Hend as [[Hlen Hret] | Hthrow].
        -- left. split; [simpl; rewrite Hlen; reflexivity | exact Hret].
        -- right. exact Hthrow.
Qed.

Lemma runAnalysis_cons (fuel : nat) (warmupSize : number)
      (rest : list number) (iterations : number) (w : World AlgState)
      (warmupArray : list number) :
  generateInputArray warmupSize = Return warmupArray ->
  runAnalysis algorithm clock fuel (warmupSize :: rest) iterations w
  = match for_lt fuel 0 (lit 100%float) (call algorithm) warmupArray w with
    | Done (Return _) w1 =>
        for_of (measure_size algorithm clock fuel iterations)
               (warmupSize :: rest) [] w1
    | Done (Throw e) w1 => Done (Throw e) w1
    | Timeout w1 => Timeout w1
    end.
Proof.
  intros Hgen. unfold runAnalysis, warmup. rewrite Hgen.
  unfold mbind, lift, ret.
  destruct (for_lt fuel 0 (lit 100%float) (call algorithm) warmupArray w)
    as [[array'|e] w1|w1]; reflexivity.
Qed.

End Warmup.

(** C8: the engine starts with the warm-up, a hundred invocations of the
    algorithm in a row before the clock is read at all, the first of them
    on the array generated for the first requested size,
    [inputSizes\[0\]]; a run stops there if one of them throws.  Without
    sizes nothing is invoked.  On the sizes 5 and 3 the warm-up runs on
    the array of 5 elements, although 3 is the smallest size. *)
Theorem warmup_before_timing :
  (forall (AlgState : Type) algorithm clock fuel warmupSize rest iterations
          (w : World AlgState) warmupArray,
      (100 <= fuel)%nat ->
      generateInputArray warmupSize = Return warmupArray ->
      let o :=
        runAnalysis algorithm clock fuel (warmupSize :: rest) iterations w in
      exists warm later,
        trace (world_of o) = rev (warm ++ later) ++ trace w /\
        Forall (fun ev => is_call ev = true) warm /\
        (exists thrown evs, warm = EvCall warmupArray thrown :: evs) /\
        (List.length warm = 100%nat
         \/ (later = [] /\ exists e w', o = Done (Throw e) w'))) /\
  (forall (AlgState : Type) algorithm clock fuel iterations
          (w : World AlgState),
      runAnalysis algorithm clock fuel [] iterations w = Done (Return []) w) /\
  (let o := runAnalysis idle_algorithm ticking_clock 1000
                        [lit 5%float; lit 3%float] (lit 10%float)
                        initial_world in
   firstn 101 (events_since initial_world o)
   = repeat (EvCall (map (fun i => of_Z (Z.of_nat i)) (seq 0 5)) None) 100
     ++ [EvNow zero]).
Proof.
  split; [|split; [reflexivity | vm_compute; reflexivity]].
  intros AlgState algorithm clock fuel warmupSize rest iterations w
         warmupArray Hfuel Hgen o.
  subst o.
  rewrite (@runAnalysis_cons _ algorithm clock fuel warmupSize rest
                             iterations w _ Hgen).
  destruct (@warmup_loop _ algorithm 100 fuel 0 warmupArray w)
    as (calls & Ht & Hc & Hfirst & Hend); try lia.
  destruct Hend as [[Hlen [array' Hret]] | [e Hthrow]].
  - rewrite Hret.
    set (w1 := world_of _) in *.
    assert (Hs : sound (for_of (measure_size algorithm clock fuel iterations)
                               (warmupSize :: rest) []))
      by (apply sound_for_of; intros; apply sound_measure_size).
    destruct (Hs w1) as (evs & Hte & _).
    exists calls, (rev evs). repeat split.
    + rewrite Hte, Ht, rev_app_distr, rev_involutive, <- app_assoc.
      reflexivity.
    + exact Hc.
    + apply Hfirst. lia.
    + left. exact Hlen.
  - rewrite Hthrow. exists calls, []. repeat split.
    + simpl. rewrite app_nil_r. exact Ht.
    + exact Hc.
    + apply Hfirst. lia.
    + right. split; [reflexivity|]. do 2 eexists. reflexivity.
Qed.


Lemma warmup_before_timing_witness :
  let o := runAnalysis idle_algorithm ticking_clock 1000
                       [lit 5%float; lit 3%float] (lit 10%float)
                       initial_world in
  exists warm later,
    trace (world_of o) = rev (warm ++ later) ++ [] /\
    Forall (fun ev => is_call ev = true) warm /\
    (exists thrown evs,
        warm = EvCall (map (fun i => of_Z (Z.of_nat i)) (seq 0 5)) thrown
               :: evs) /\
    (List.length warm = 100%nat
     \/ (later = [] /\ exists e w', o = Done (Throw e) w')).
Proof.
  apply (proj1 warmup_before_timing unit idle_algorithm ticking_clock 1000%nat
               (lit 5%float) [lit 3%float] (lit 10%float) initial_world).
  - lia.
  - vm_compute. reflexivity.
Defined.

(** ** The calibration *)

Section CalibrationFacts.
Variable AlgState : Type.
Variable algorithm :
  AlgState -> list number -> AlgState * list number * option JsError.
Variable clock : nat -> number.

Lemma while_unfold {S : Type} (fuel : nat) (cond : S -> bool)
      (body : S -> M AlgState S) (st : S) :
  while (Datatypes.S fuel) cond body st
  = if cond st
    then mbind (body st) (fun st' => while fuel cond body st')
    else ret st.
Proof. reflexivity. Qed.

Lemma cal_cond_count (calStart : number) (c : Calibration) :
  cal_cond calStart c = true -> calCount c < 1000000.
Proof.
  unfold cal_cond. intros H. apply andb_prop in H. destruct H as [_ H].
  apply Z.ltb_lt. exact H.
Qed.

Lemma cal_body_step {B : Type} (c : Calibration)
      (k : Calibration -> M AlgState B) (w : World AlgState) :
  mbind (cal_body algorithm clock c) k w
  = let '(s', array', thrown) := algorithm (alg_state w) (calibrationArray c) in
    let w1 := mkWorld s' (reads w)
                      (EvCall (calibrationArray c) thrown :: trace w) in
    match thrown with
    | Some e => Done (Throw e) w1
    | None =>
        k (mkCal array' (clock (reads w)) (calCount c + 1))
          (mkWorld s' (S (reads w))
                   (EvNow (clock (reads w)) :: trace w1))
    end.
Proof.
  unfold cal_body, mbind, call, now, ret.
  destruct (algorithm (alg_state w) (calibrationArray c))
    as [[s' array'] [e|]]; reflexivity.
Qed.

(** The loop of the calibration ends within the step budget that is left
    below the cap on the count, and it ends because its condition fails. *)
Lemma calibration_loop_ends (calStart : number) (fuel : nat) :
  forall (c : Calibration) (w : World AlgState),
    0 <= calCount c <= 1000000 ->
    1000000 - calCount c <= Z.of_nat fuel ->
    exists r w',
      while fuel (cal_cond calStart) (cal_body algorithm clock) c w
      = Done r w' /\
      forall c', r = Return c' ->
                 calCount c <= calCount c' <= 1000000
                 /\ cal_cond calStart c' = false
                 /\ count_calls (trace w')
                    = count_calls (trace w) + (calCount c' - calCount c).
Proof.
  induction fuel as [|fuel IH]; intros c w Hc Hfuel.
  - assert (Hcond : cal_cond calStart c = false).
    { unfold cal_cond. replace (calCount c) with 1000000 by lia.
      apply andb_false_r. }
    simpl. rewrite Hcond. exists (Return c), w. split; [reflexivity|].
    intros c' Hc'. inversion Hc'; subst c'.
    split; [lia | split; [exact Hcond | lia]].
  - rewrite while_unfold.
    destruct (cal_cond calStart c) eqn:Hcond.
    + pose proof (cal_cond_count _ _ Hcond) as Hlt.
      rewrite cal_body_step.
      destruct (algorithm (alg_state w) (calibrationArray c))
        as [[s' array'] [e|]]; cbv beta iota zeta.
      * do 2 eexists. split; [reflexivity|]. intros c' Hc'. discriminate Hc'.
      * match goal with
        | |- context [while fuel _ _ ?c1 ?w1] =>
            destruct (IH c1 w1) as (r & w' & Hrun & Hres)
        end; cbn [calCount]; try lia.
        exists r, w'. split; [exact Hrun|].
        intros c' Hc'. destruct (Hres c' Hc') as (Hle & Hfalse & Hcalls).
        cbn [calCount trace] in Hle, Hcalls.
        split; [lia | split; [exact Hfalse|]].
        rewrite Hcalls. unfold count_calls. cbn [filter is_call List.length].
        lia.
    + exists (Return c), w. split; [reflexivity|].
      intros c' Hc'. inversion Hc'; subst c'.
      split; [lia | split; [exact Hcond | lia]].
Qed.

(** With an algorithm that does not throw, the loop returns. *)
Lemma calibration_loop_returns (calStart : number) (fuel : nat) :
  never_throws algorithm ->
  forall (c : Calibration) (w : World AlgState),
    0 <= calCount c <= 1000000 ->
    1000000 - calCount c <= Z.of_nat fuel ->
    exists c' w',
      while fuel (cal_cond calStart) (cal_body algorithm clock) c w
      = Done (Return c') w'.
Proof.
  intros Hquiet.
  induction fuel as [|fuel IH]; intros c w Hc Hfuel.
  - assert (Hcond : cal_cond calStart c = false).
    { unfold cal_cond. replace (calCount c) with 1000000 by lia.
      apply andb_false_r. }
    simpl. rewrite Hcond. exists c, w. reflexivity.
  - rewrite while_unfold.
    destruct (cal_cond calStart c) eqn:Hcond;
      [|exists c, w; reflexivity].
    pose proof (cal_cond_count _ _ Hcond) as Hlt.
    rewrite cal_body_step.
    pose proof (Hquiet (alg_state w) (calibrationArray c)) as Hq.
    destruct (algorithm (alg_state w) (calibrationArray c))
      as [[s' array'] thrown]. cbn [snd] in Hq. subst thrown.
    cbv beta iota zeta. apply IH; cbn [calCount]; lia.
Qed.

(** On a clock that stands still at [t] the loop runs up to the cap. *)
Lemma calibration_loop_stalled (t : number) (k : nat) :
  is_finite t = true ->
  (forall n, clock n = t) ->
  (forall s array, snd (algorithm s array) = None) ->
  forall (fuel : nat) (c : Calibration) (w : World AlgState),
    calEnd c = t -> 0 <= calCount c ->
    calCount c + Z.of_nat k = 1000000 -> (k <= fuel)%nat ->
    exists array' w',
      while fuel (cal_cond t) (cal_body algorithm clock) c w
      = Done (Return (mkCal array' t 1000000)) w'.
Proof.
  intros Hfin Hclock Hquiet.
  induction k as [|k IH]; intros fuel c w Hend Hpos Hcount Hfuel.
  - assert (Hcond : cal_cond t c = false).
    { unfold cal_cond. replace (calCount c) with 1000000 by lia.
      apply andb_false_r. }
    exists (calibrationArray c), w.
    destruct c as [arr e n]; simpl in *. subst e.
    replace n with 1000000 in * by lia.
    destruct fuel; simpl; rewrite Hcond; reflexivity.
  - destruct fuel as [|fuel]; [lia|].
    rewrite while_unfold.
    assert (Hcond : cal_cond t c = true).
    { unfold cal_cond. rewrite Hend, (sub_self t Hfin).
      apply andb_true_intro. split; [reflexivity | apply Z.ltb_lt; lia]. }
    rewrite Hcond, cal_body_step.
    pose proof (Hquiet (alg_state w) (calibrationArray c)) as Hq.
    destruct (algorithm (alg_state w) (calibrationArray c))
      as [[s' array'] thrown]. simpl in Hq. subst thrown.
    cbv beta iota zeta. rewrite Hclock.
    apply IH; cbn [calEnd calCount]; try reflexivity; lia.
Qed.

(** The events of one more turn. *)
Lemma flat_map_seq_shift {B : Type} (f : nat -> list B) (k start : nat) :
  flat_map f (seq (S start) k) = flat_map (fun i => f (S i)) (seq start k).
Proof.
  revert start; induction k as [|k IH]; intros start; simpl.
  - reflexivity.
  - rewrite IH. reflexivity.
Qed.

Lemma calibration_turns_S (k : nat) (s : AlgState) (array : list number)
      (r : nat) :
  calibration_turns algorithm clock (S k) s array r
  = EvCall array None :: EvNow (clock r)
    :: calibration_turns algorithm clock k
         (fst (fst (algorithm s array))) (snd (fst (algorithm s array)))
         (S r).
Proof.
  unfold calibration_turns. cbn [seq flat_map app reused snd].
  rewrite Nat.add_0_r. do 2 f_equal.
  rewrite flat_map_seq_shift. apply flat_map_ext. intros i.
  cbn [reused]. destruct (algorithm s array) as [[s' array'] thrown].
  cbn [fst snd]. rewrite Nat.add_succ_r. reflexivity.
Qed.

(** The loop of the calibration, turn by turn: it goes on exactly while
    the elapsed time read is below 5 and the count below the cap, every
    turn invokes the algorithm on the array as the turn before left it
    and then reads the clock. *)
Lemma calibration_loop_turns (calStart : number) (fuel : nat) :
  forall (c c' : Calibration) (w w' : World AlgState) (r : nat),
    reads w = S r -> calEnd c = clock r ->
    while fuel (cal_cond calStart) (cal_body algorithm clock) c w
    = Done (Return c') w' ->
    exists k : nat,
      calCount c' = calCount c + Z.of_nat k /\
      calEnd c' = clock (r + k) /\
      (forall j, (j < k)%nat ->
                 (clock (r + j)%nat - calStart <? lit 5%float)%js = true
                 /\ calCount c + Z.of_nat j < 1000000) /\
      cal_cond calStart c' = false /\
      trace w'
      = rev (calibration_turns algorithm clock k (alg_state w)
                               (calibrationArray c) (S r))
        ++ trace w /\
      (alg_state w', calibrationArray c')
      = reused algorithm k (alg_state w) (calibrationArray c).
Proof.
  induction fuel as [|fuel IH]; intros c c' w w' r Hreads Hend Hrun.
  - simpl in Hrun. destruct (cal_cond calStart c) eqn:Hcond;
      [discriminate Hrun|].
    inversion Hrun; subst c' w'. exists 0%nat.
    rewrite Z.add_0_r, Nat.add_0_r. repeat split; try assumption; lia.
  - rewrite while_unfold in Hrun.
    destruct (cal_cond calStart c) eqn:Hcond.
    2:{ inversion Hrun; subst c' w'. exists 0%nat.
        rewrite Z.add_0_r, Nat.add_0_r. repeat split; try assumption; lia. }
    rewrite cal_body_step in Hrun.
    pose proof (calibration_turns_S) as Hturns.
    specialize (Hturns) with (s := alg_state w) (array := calibrationArray c).
    destruct (algorithm (alg_state w) (calibrationArray c))
      as [[s' array'] [e|]] eqn:Halg; cbv beta iota zeta in Hrun;
      [discriminate Hrun|].
    cbn [fst snd] in Hturns.
    apply (IH _ _ _ _ (S r)) in Hrun;
      [| cbn [reads]; rewrite Hreads; reflexivity
       | cbn [calEnd]; rewrite Hreads; reflexivity ].
    destruct Hrun as (k & Hcount & Hend' & Hwhile & Hstop & Htrace & Hst).
    cbn [calCount calibrationArray alg_state trace] in *.
    exists (S k). repeat split.
    + lia.
    + rewrite Hend'. f_equal. lia.
    + destruct j as [|j].
      * rewrite Nat.add_0_r, <- Hend.
        unfold cal_cond in Hcond. apply andb_prop in Hcond. apply Hcond.
      * replace (r + S j)%nat with (S r + j)%nat by lia.
        apply Hwhile. lia.
    + destruct j as [|j].
      * apply cal_cond_count in Hcond. lia.
      * assert (Hj : (j < k)%nat) by lia.
        destruct (Hwhile j Hj) as [_ Hlt]. lia.
    + exact Hstop.
    + rewrite Htrace, Hturns. cbn [rev]. rewrite Hreads.
      rewrite <- !app_assoc. reflexivity.
    + rewrite Hst. cbn [reused]. rewrite Halg. reflexivity.
Qed.

Lemma reused_read_only (k : nat) (s : AlgState) (array : list number) :
  read_only algorithm -> snd (reused algorithm k s array) = array.
Proof.
  intros Hro. revert s. induction k as [|k IH]; intros s; [reflexivity|].
  cbn [reused]. pose proof (Hro s array) as H.
  destruct (algorithm s array) as [[s' array'] thrown]. cbn [fst snd] in H.
  subst array'. apply IH.
Qed.

End CalibrationFacts.

(** C9: whatever the algorithm, the clock and the size, the calibration
    comes to an end within a budget of 1000000 turns; when it returns, the
    count is at most 1000000, either the elapsed time is not below 5 or
    the count is 1000000, and the algorithm has been invoked as many times
    as the count says; and it returns, with the count it has reached,
    whenever the array can be generated and the algorithm does not throw.
    A calibration that returns has read the clock and then taken [k]
    turns: each turn invokes the algorithm, the first on the array
    generated for the size and every other one on that array as the turn
    before left it (the very same array when the algorithm only reads
    it), and then reads the clock; every turn was taken while the elapsed
    time read so far was below 5, and the loop stopped at the first
    reading that is not, or at the cap; the count is [k] and the duration
    is the last reading minus the first.  On a clock that advances by 1
    from reading to reading this makes 5 turns.  On a clock that stands
    still, with an algorithm that does not throw, it returns the count
    1000000 and the elapsed time 0, from which the engine goes on with
    batches of 15000000000 invocations. *)
Theorem calibration_terminates :
  (forall (AlgState : Type) algorithm clock (fuel : nat) (n : number)
          (w : World AlgState),
      1000000 <= Z.of_nat fuel ->
      exists r w',
        calibrate algorithm clock fuel n w = Done r w' /\
        forall calDuration calCount,
          r = Return (calDuration, calCount) ->
          0 <= calCount <= 1000000
          /\ ((calDuration <? lit 5%float)%js = false
              \/ calCount = 1000000)
          /\ count_calls (trace w') = count_calls (trace w) + calCount) /\
  (forall (AlgState : Type) algorithm clock (fuel : nat) (n : number)
          (w : World AlgState) array,
      1000000 <= Z.of_nat fuel ->
      never_throws algorithm ->
      generateInputArray n = Return array ->
      exists calDuration calCount w',
        calibrate algorithm clock fuel n w
        = Done (Return (calDuration, calCount)) w') /\
  (forall (AlgState : Type) algorithm clock (fuel : nat) (n : number)
          (w w' : World AlgState) calDuration calCount,
      calibrate algorithm clock fuel n w
      = Done (Return (calDuration, calCount)) w' ->
      exists (array : list number) (k : nat),
        let calStart := clock (reads w) in
        generateInputArray n = Return array /\
        calCount = Z.of_nat k /\
        calCount <= 1000000 /\
        calDuration = (clock (reads w + k)%nat - calStart)%js /\
        (forall j, (j < k)%nat ->
                   (clock (reads w + j)%nat - calStart <? lit 5%float)%js
                   = true) /\
        ((calDuration <? lit 5%float)%js = false \/ calCount = 1000000) /\
        trace w'
        = rev (EvNow calStart
               :: calibration_turns algorithm clock k (alg_state w) array
                                    (S (reads w)))
          ++ trace w /\
        alg_state w' = fst (reused algorithm k (alg_state w) array) /\
        (read_only algorithm ->
         forall i, snd (reused algorithm i (alg_state w) array) = array)) /\
  (exists w',
      calibrate idle_algorithm ticking_clock 10 (lit 3%float) initial_world
      = Done (Return (lit 5%float, 5)) w'
      /\ events_since initial_world
                      (Done (Return (lit 5%float, 5)) w' : outcome unit _)
         = EvNow zero
           :: flat_map (fun i => [EvCall [zero; lit 1%float; lit 2%float] None;
                                  EvNow (of_Z i)])
                       [1; 2; 3; 4; 5]) /\
  (forall (AlgState : Type) algorithm (clock : nat -> number) (fuel : nat)
          (n t : number) (w : World AlgState) array,
      1000000 <= Z.of_nat fuel ->
      is_finite t = true ->
      (forall k, clock k = t) ->
      (forall s a, snd (algorithm s a) = None) ->
      generateInputArray n = Return array ->
      exists w',
        calibrate algorithm clock fuel n w
        = Done (Return (zero, 1000000)) w') /\
  batchSize_of zero 1000000 = lit 15000000000%float.
Proof.
  split; [|split; [|split; [|split; [|split; [|vm_compute; reflexivity]]]]].
  - intros AlgState algorithm clock fuel n w Hfuel.
    unfold calibrate, mbind at 1, lift.
    destruct (generateInputArray n) as [array|e].
    2:{ do 2 eexists. split; [reflexivity|]. intros d k H. discriminate H. }
    unfold mbind at 1, now at 1.
    set (calStart := clock (reads w)).
    set (w1 := mkWorld _ _ _).
    destruct (@calibration_loop_ends
                _ algorithm clock calStart fuel (mkCal array calStart 0) w1)
      as (r & w' & Hrun & Hres); cbn [calCount]; try lia.
    unfold mbind. rewrite Hrun.
    destruct r as [c|e].
    + do 2 eexists. split; [reflexivity|].
      intros d k H. unfold ret in H. inversion H; subst d k.
      destruct (Hres c eq_refl) as (Hle & Hcond & Hcalls).
      cbn [calCount] in Hle, Hcalls.
      split; [lia|]. split.
      * unfold cal_cond in Hcond. apply andb_false_iff in Hcond.
        destruct Hcond as [Hd | Hk]; [left; exact Hd|].
        right. apply Z.ltb_ge in Hk. lia.
      * rewrite Hcalls. subst w1. unfold count_calls.
        cbn [trace filter is_call]. lia.
    + do 2 eexists. split; [reflexivity|]. intros d k H. discriminate H.
  - intros AlgState algorithm clock fuel n w array Hfuel Hquiet Hgen.
    unfold calibrate, mbind at 1, lift. rewrite Hgen.
    unfold mbind at 1, now at 1.
    set (calStart := clock (reads w)).
    set (w1 := mkWorld _ _ _).
    destruct (@calibration_loop_returns
                _ algorithm clock calStart fuel Hquiet
                (mkCal array calStart 0) w1)
      as (c' & w' & Hrun); cbn [calCount]; try lia.
    unfold mbind. rewrite Hrun. unfold ret. do 3 eexists. reflexivity.
  - intros AlgState algorithm clock fuel n w w' calDuration calCount Hrun.
    unfold calibrate, mbind at 1, lift in Hrun.
    destruct (generateInputArray n) as [array|e]; [|discriminate Hrun].
    unfold mbind at 1, now at 1 in Hrun.
    set (calStart := clock (reads w)) in *.
    set (w1 := mkWorld _ _ _) in Hrun.
    unfold mbind at 1 in Hrun.
    destruct (while fuel (cal_cond calStart) (cal_body algorithm clock)
                    (mkCal array calStart 0) w1)
      as [[c'|e] w2|w2] eqn:Hloop; try discriminate Hrun.
    unfold ret in Hrun. inversion Hrun; subst calDuration calCount w2.
    clear Hrun.
    apply (@calibration_loop_turns _ algorithm clock calStart fuel
             _ _ _ _ (reads w)) in Hloop; [|reflexivity|reflexivity].
    destruct Hloop as (k & Hcount & Hend & Hwhile & Hstop & Htrace & Hst).
    cbn [calCount calibrationArray alg_state trace w1] in *.
    assert (Hk : Z.of_nat k <= 1000000).
    { destruct k as [|k]; [lia|].
      destruct (Hwhile k) as [_ Hlt]; lia. }
    exists array, k. cbn zeta. repeat split.
    + lia.
    + lia.
    + rewrite Hend. reflexivity.
    + intros j Hj. apply (Hwhile j Hj).
    + unfold cal_cond in Hstop. apply andb_false_iff in Hstop.
      destruct Hstop as [Hd | Hc]; [left; exact Hd|].
      right. apply Z.ltb_ge in Hc. lia.
    + rewrite Htrace. cbn [rev]. rewrite <- app_assoc. reflexivity.
    + rewrite <- Hst. reflexivity.
    + intros Hro i. apply reused_read_only, Hro.
  - eexists. split; vm_compute; reflexivity.
  - intros AlgState algorithm clock fuel n t w array Hfuel Hfin Hclock Hquiet
           Hgen.
    unfold calibrate, mbind at 1, lift. rewrite Hgen.
    unfold mbind at 1, now at 1. rewrite Hclock.
    set (w1 := mkWorld _ _ _).
    assert (Hk : exists k : nat, Z.of_nat k = 1000000)
      by (exists (Z.to_nat 1000000); apply Z2Nat.id; lia).
    destruct Hk as [k Hk].
    destruct (@calibration_loop_stalled
                _ algorithm clock t k Hfin Hclock Hquiet
                fuel (mkCal array t 0) w1)
      as (array' & w' & Hrun); cbn [calEnd calCount];
      [reflexivity | lia | lia | lia |].
    unfold mbind. rewrite Hrun. unfold ret. cbn [calEnd calCount].
    rewrite (sub_self t Hfin). exists w'. reflexivity.
Qed.

Lemma calibration_terminates_witness :
  exists r w',
    calibrate idle_algorithm (fun _ => zero) (Z.to_nat 1000000)
              (lit 10%float) initial_world
    = Done r w'.
Proof.
  destruct (proj1 calibration_terminates unit idle_algorithm (fun _ => zero)
                  (Z.to_nat 1000000) (lit 10%float) initial_world)
    as (r & w' & Hrun & _).
  - lia.
  - exists r, w'. exact Hrun.
Defined.

(** * The classifier and the store *)

Module StoreFacts.
Import Store.

Lemma frame_refl (h : t) : frame h h.
Proof. split; [apply le_n | reflexivity]. Qed.

Lemma frame_alloc (h0 h : t) (o : Obj) : frame h0 h -> frame h0 (h ++ [o]).
Proof.
  intros [Hlen Hsame]. split.
  - rewrite length_app. lia.
  - intros l Hl. rewrite nth_error_app1 by lia. apply Hsame, Hl.
Qed.

Lemma update_length (l : nat) (o : Obj) (h : t) :
  List.length (update l o h) = List.length h.
Proof.
  revert l; induction h as [|x h IH]; intros [|l]; simpl; try reflexivity.
  rewrite IH. reflexivity.
Qed.

Lemma update_other (l l' : nat) (o : Obj) (h : t) :
  l <> l' -> nth_error (update l o h) l' = nth_error h l'.
Proof.
  revert l l'; induction h as [|x h IH]; intros [|l] [|l'] Hneq; simpl;
    try reflexivity; try congruence.
  apply IH. congruence.
Qed.

Lemma frame_update (h0 h : t) (l : nat) (o : Obj) :
  frame h0 h -> (List.length h0 <= l)%nat -> frame h0 (update l o h).
Proof.
  intros [Hlen Hsame] Hl. split.
  - rewrite update_length. exact Hlen.
  - intros l' Hl'. rewrite update_other by lia. apply Hsame, Hl'.
Qed.

Section Keeps.
Variable h0 : t.

Lemma keeps_weaken {A : Type} (c : HM A) (Q R : A -> Prop) :
  keeps h0 c Q -> (forall a, Q a -> R a) -> keeps h0 c R.
Proof.
  intros Hc HQR h Hf. destruct (Hc h Hf) as [Hf' HQ].
  split; [exact Hf' | intros a Ha; apply HQR, HQ, Ha].
Qed.

Lemma keeps_ret {A : Type} (a : A) (Q : A -> Prop) :
  Q a -> keeps h0 (ret a) Q.
Proof.
  intros HQ h Hf. split; [exact Hf|].
  intros a' Ha. inversion Ha; subst. exact HQ.
Qed.

Lemma keeps_fail {A : Type} (e : JsError) (Q : A -> Prop) :
  keeps h0 (fail e) Q.
Proof. intros h Hf. split; [exact Hf | intros a Ha; discriminate Ha]. Qed.

Lemma keeps_lift {A : Type} (c : completion A) : keeps h0 (lift c) any.
Proof. intros h Hf. split; [exact Hf | intros; exact I]. Qed.

Lemma keeps_bind {A B : Type} (c : HM A) (k : A -> HM B)
      (Q : A -> Prop) (R : B -> Prop) :
  keeps h0 c Q -> (forall a, Q a -> keeps h0 (k a) R) ->
  keeps h0 (bind c k) R.
Proof.
  intros Hc Hk h Hf. unfold bind.
  destruct (Hc h Hf) as [Hf' HQ].
  destruct (c h) as [[a|e] h']; simpl in *.
  - apply (Hk a (HQ a eq_refl) h' Hf').
  - split; [exact Hf' | intros a Ha; discriminate Ha].
Qed.

(** What is allocated is not in [h0]. *)
Lemma keeps_alloc (o : Obj) : keeps h0 (alloc o) (fresh h0).
Proof.
  intros h Hf. split.
  - apply frame_alloc, Hf.
  - intros a Ha. inversion Ha; subst. simpl. apply Hf.
Qed.

Lemma keeps_deref (v : Value) : keeps h0 (deref v) any.
Proof.
  intros h Hf. unfold deref.
  destruct v as [x|s|l|]; try (split; [exact Hf | intros; exact I]).
  destruct (nth_error h l); split; try exact Hf; intros; exact I.
Qed.

(** Writing is allowed on what is not in [h0]. *)
Lemma keeps_store (v : Value) (o : Obj) :
  fresh h0 v -> keeps h0 (store v o) any.
Proof.
  intros Hv h Hf. unfold store.
  destruct v as [x|s|l|]; try (split; [exact Hf | intros; exact I]).
  split; [apply frame_update; assumption | intros; exact I].
Qed.

Lemma keeps_get (v : Value) (name : string) : keeps h0 (get v name) any.
Proof.
  unfold get. destruct v as [x|s|l|].
  - apply keeps_ret. exact I.
  - apply keeps_ret. exact I.
  - eapply keeps_bind; [apply keeps_deref|].
    intros o _. apply keeps_ret. exact I.
  - apply keeps_fail.
Qed.

Lemma keeps_elements (arr : Value) : keeps h0 (elements arr) any.
Proof.
  unfold elements. eapply keeps_bind; [apply keeps_deref|].
  intros [elems|fields] _; [apply keeps_ret; exact I | apply keeps_fail].
Qed.

Lemma keeps_mapM {A B : Type} (f : A -> HM B) (l : list A) :
  (forall x, keeps h0 (f x) any) -> keeps h0 (mapM f l) any.
Proof.
  intros Hf. induction l as [|x l IH]; simpl.
  - apply keeps_ret. exact I.
  - eapply keeps_bind; [apply Hf|]. intros y _.
    eapply keeps_bind; [apply IH|]. intros ys _.
    apply keeps_ret. exact I.
Qed.

(** [map] reads its array and returns a new one. *)
Lemma keeps_Array_map (f : Value -> HM Value) (arr : Value) :
  (forall x, keeps h0 (f x) any) -> keeps h0 (Array_map f arr) (fresh h0).
Proof.
  intros Hf. unfold Array_map.
  eapply keeps_bind; [apply keeps_elements|]. intros elems _.
  eapply keeps_bind; [apply keeps_mapM, Hf|]. intros vs _.
  apply keeps_alloc.
Qed.

Lemma keeps_numbers (arr : Value) : keeps h0 (numbers arr) any.
Proof.
  unfold numbers. eapply keeps_bind; [apply keeps_elements|].
  intros elems _. apply keeps_ret. exact I.
Qed.

(** [sort] writes the array it is called on and nothing else. *)
Lemma keeps_sort_by_rmse (arr : Value) :
  fresh h0 arr -> keeps h0 (sort_by_rmse arr) any.
Proof.
  intros Harr. unfold sort_by_rmse.
  eapply keeps_bind; [apply keeps_elements|]. intros elems _.
  eapply keeps_bind.
  { apply keeps_mapM. intros v.
    eapply keeps_bind; [apply keeps_get|]. intros r _.
    apply keeps_ret. exact I. }
  intros keys _. apply keeps_store, Harr.
Qed.

Lemma keeps_read_model (v : Value) : keeps h0 (read_model v) any.
Proof.
  unfold read_model.
  eapply keeps_bind; [apply keeps_get|]. intros type _.
  eapply keeps_bind; [apply keeps_get|]. intros rmse _.
  eapply keeps_bind; [apply keeps_get|]. intros complexity _.
  apply keeps_ret. exact I.
Qed.

Lemma keeps_any {A : Type} (c : HM A) (Q : A -> Prop) :
  keeps h0 c Q -> keeps h0 c any.
Proof. intros Hc. eapply keeps_weaken; [exact Hc | intros; exact I]. Qed.

Lemma keeps_getRegressionRMSE (dataPoints : Value)
      (timeValues : list number) (transformFn : number -> number) :
  keeps h0 (getRegressionRMSE dataPoints timeValues transformFn) any.
Proof.
  unfold getRegressionRMSE.
  eapply keeps_bind.
  { apply keeps_Array_map. intros d.
    eapply keeps_bind; [apply keeps_get|]. intros n _.
    eapply keeps_bind; [apply keeps_get|]. intros time _.
    eapply keeps_any, keeps_alloc. }
  intros data _.
  eapply keeps_bind; [apply keeps_elements|]. intros points _.
  eapply keeps_bind.
  { apply keeps_mapM. intros p.
    eapply keeps_bind; [apply keeps_elements|]. intros xy _.
    apply keeps_ret. exact I. }
  intros pairs _. cbv zeta.
  eapply keeps_bind; [apply keeps_alloc|]. intros model _.
  eapply keeps_bind.
  { apply keeps_Array_map. intros d.
    eapply keeps_bind; [apply keeps_get|]. intros n _.
    apply keeps_ret. exact I. }
  intros predictions _.
  eapply keeps_bind; [apply keeps_numbers|]. intros predicted _.
  apply keeps_ret. exact I.
Qed.

Lemma keeps_confidence (models : Value) (meanTime : number)
      (bestModel : Model.t) :
  keeps h0 (confidence models meanTime bestModel) any.
Proof.
  unfold confidence.
  destruct (Model.rmse bestModel <? noiseFloor)%js;
    [apply keeps_ret; exact I|].
  eapply keeps_bind.
  { apply keeps_Array_map. intros x. apply keeps_ret. exact I. }
  intros sortedByFit Hfresh.
  eapply keeps_bind; [apply keeps_sort_by_rmse, Hfresh|]. intros _ _.
  eapply keeps_bind; [apply keeps_elements|]. intros sorted _.
  eapply keeps_bind; [apply keeps_mapM; intros; apply keeps_read_model|].
  intros sorted' _. apply keeps_ret. exact I.
Qed.

Lemma keeps_determineComplexity (dataPoints : Value) :
  keeps h0 (Store.determineComplexity dataPoints) any.
Proof.
  unfold Store.determineComplexity.
  eapply keeps_bind;
    [apply keeps_Array_map; intros; apply keeps_get|]. intros nValues _.
  eapply keeps_bind;
    [apply keeps_Array_map; intros; apply keeps_get|]. intros timeValues _.
  eapply keeps_bind; [apply keeps_numbers|]. intros times _.
  eapply keeps_bind; [apply keeps_lift|]. intros meanTime _.
  eapply keeps_bind;
    [apply keeps_Array_map; intros; apply keeps_ret; exact I|].
  intros constantPredictions _.
  eapply keeps_bind; [apply keeps_numbers|]. intros predicted _.
  cbv zeta.
  do 4 (eapply keeps_bind; [apply keeps_getRegressionRMSE|]; intros ? _).
  eapply keeps_bind;
    [apply keeps_mapM; intros; eapply keeps_any, keeps_alloc|].
  intros objects _.
  eapply keeps_bind; [apply keeps_alloc|]. intros models Hmodels.
  eapply keeps_bind; [apply keeps_sort_by_rmse, Hmodels|]. intros _ _.
  eapply keeps_bind; [apply keeps_elements|]. intros sorted _.
  eapply keeps_bind; [apply keeps_mapM; intros; apply keeps_read_model|].
  intros [|first rest] _; [apply keeps_fail|].
  eapply keeps_bind; [apply keeps_lift|]. intros timeVariance _.
  eapply keeps_bind; [apply keeps_lift|]. intros maxTime _.
  destruct (if low_and_flat maxTime timeVariance meanTime
            then find is_O1 (first :: rest)
            else Some (occam_scan (first :: rest) meanTime first rest))
    as [bestModel|]; [|apply keeps_fail].
  eapply keeps_bind; [apply keeps_confidence|]. intros confidence _.
  eapply keeps_bind.
  { apply keeps_Array_map. intros m.
    eapply keeps_bind; [apply keeps_get|]. intros type _.
    eapply keeps_bind; [apply keeps_get|]. intros rmse _.
    eapply keeps_any, keeps_alloc. }
  intros results Hresults.
  eapply keeps_bind; [apply keeps_sort_by_rmse, Hresults|]. intros _ _.
  eapply keeps_any, keeps_alloc.
Qed.

End Keeps.

End StoreFacts.

(** On the series of this file the classifier on the store answers as the
    classifier on lists does. *)
Lemma store_agrees_on_examples :
  Forall (fun series =>
            Store.classify_list series = determineComplexity series)
         [alternating_series; chained_series; noisy_linear_series;
          flat_series_of_spec; long_flat_series; series_with_zero_size;
          [point 5 1]; []].
Proof.
  repeat (apply Forall_cons; [vm_compute; reflexivity|]). apply Forall_nil.
Qed.

(** C10: whatever the store and whatever the value passed for the data
    points, the classifier leaves every object of the store as it was: the
    array of data points and each of its elements are among them.  What it
    writes, it writes to arrays it has made itself. *)
Theorem classifier_leaves_input_unchanged (h : Store.t)
        (dataPoints : Store.Value) (l : nat) :
  (l < List.length h)%nat ->
  nth_error (snd (Store.determineComplexity dataPoints h)) l = nth_error h l.
Proof.
  intros Hl.
  destruct (StoreFacts.keeps_determineComplexity
              dataPoints (StoreFacts.frame_refl h)) as [[_ Hsame] _].
  apply Hsame, Hl.
Qed.

Lemma classifier_leaves_input_unchanged_witness :
  let '(h, dataPoints) := Store.lay_out chained_series in
  nth_error (snd (Store.determineComplexity dataPoints h)) 3
  = nth_error h 3.
Proof.
  apply (@classifier_leaves_input_unchanged
           (fst (Store.lay_out chained_series))
           (snd (Store.lay_out chained_series)) 3%nat).
  simpl. lia.
Defined.


(** * Further properties of the classifier *)

Lemma signed_not_positive (r : number) :
  r = NaN \/ sign_bit r = true -> (r >? zero)%js = false.
Proof.
  intros [-> | H]; [reflexivity|].
  destruct r as [s|s| |s m e]; simpl in H; subst; reflexivity.
Qed.

Lemma binary_normalize_neg (p : positive) (e : Z) :
  (binary_normalize prec emax (Z.neg p) e false >? zero)%js = false.
Proof.
  apply signed_not_positive. unfold binary_normalize, binary_round.
  destruct (shl_align p e _) as [mz ez].
  destruct (binary_round_aux_sign true (Z.pos mz) ez loc_Exact) as [H | H];
    [left | right]; exact H.
Qed.

(** The sign of a difference: [x - y] and [y - x] are not both positive. *)
Lemma sub_antisym (x y : number) :
  (x - y >? zero)%js = true -> (y - x >? zero)%js = false.
Proof.
  destruct x as [sx|sx| |sx mx ex], y as [sy|sy| |sy my ey];
    try solve [ repeat match goal with s : bool |- _ => destruct s end;
                (discriminate || reflexivity) ].
  unfold sub, SFsub. rewrite (Z.min_comm ey ex).
  set (a := cond_Zopp sx _). set (b := cond_Zopp sy _).
  replace (b - a) with (- (a - b)) by lia.
  destruct (a - b) as [|p|p]; cbn [Z.opp].
  - discriminate.
  - intros _. apply binary_normalize_neg.
  - rewrite binary_normalize_neg. discriminate.
Qed.

(** A difference of finite numbers is not NaN. *)
Lemma shr_1_nonneg (mrs : shr_record) :
  0 <= shr_m mrs -> 0 <= shr_m (shr_1 mrs).
Proof.
  destruct mrs as [m r s]. destruct m as [|[p|p|]|p]; simpl; intros; lia.
Qed.

Lemma iter_shr_1_nonneg (n : positive) :
  forall mrs, 0 <= shr_m mrs -> 0 <= shr_m (iter_pos shr_1 n mrs).
Proof.
  induction n as [n IH|n IH|]; intros mrs H; simpl.
  - apply IH, IH, shr_1_nonneg, H.
  - apply IH, IH, H.
  - apply shr_1_nonneg, H.
Qed.

Lemma shr_fexp_nonneg (m e : Z) (l : location) :
  0 <= m -> 0 <= shr_m (fst (shr_fexp prec emax m e l)).
Proof.
  intros Hm. unfold shr_fexp, shr.
  assert (H0 : 0 <= shr_m (shr_record_of_loc m l))
    by (destruct l as [|[| |]]; exact Hm).
  destruct (fexp prec emax (Zdigits2 m + e) - e); cbn [fst]; try exact H0.
  apply iter_shr_1_nonneg, H0.
Qed.

Lemma binary_round_aux_not_nan (s : bool) (m e : Z) (l : location) :
  0 <= m -> is_nan (binary_round_aux prec emax s m e l) = false.
Proof.
  intros Hm. unfold binary_round_aux.
  pose proof (shr_fexp_nonneg e l Hm) as H1.
  destruct (shr_fexp prec emax m e l) as [mrs' e']. cbn [fst] in H1.
  set (m2 := round_nearest_even (shr_m mrs') (loc_of_shr_record mrs')).
  assert (Hm2 : 0 <= m2).
  { subst m2. unfold round_nearest_even.
    destruct (loc_of_shr_record mrs') as [|[| |]]; try exact H1; try lia.
    destruct (Z.even (shr_m mrs')); lia. }
  pose proof (shr_fexp_nonneg e' loc_Exact Hm2) as H2.
  destruct (shr_fexp prec emax m2 e' loc_Exact) as [mrs'' e''].
  cbn [fst] in H2.
  destruct (shr_m mrs'') as [|p|p]; [reflexivity| |lia].
  destruct (e'' <=? emax - prec); reflexivity.
Qed.

Lemma binary_normalize_not_nan (m e : Z) (szero : bool) :
  is_nan (binary_normalize prec emax m e szero) = false.
Proof.
  unfold binary_normalize, binary_round.
  destruct m as [|p|p]; [reflexivity| |];
    destruct (shl_align p e _) as [mz ez];
    apply binary_round_aux_not_nan; lia.
Qed.

Lemma sub_finite_not_nan (x y : number) :
  is_finite x = true -> is_finite y = true -> is_nan (x - y)%js = false.
Proof.
  destruct x as [sx|sx| |sx mx ex], y as [sy|sy| |sy my ey];
    try discriminate; intros _ _;
    try solve [ repeat match goal with s : bool |- _ => destruct s end;
                reflexivity ].
  unfold sub, SFsub. apply binary_normalize_not_nan.
Qed.

(** A number that is neither NaN nor positive is zero or negative. *)
Lemma not_positive_leb (z : number) :
  is_nan z = false -> (z >? zero)%js = false -> leb z zero = true.
Proof.
  destruct z as [s|[|]| |[|] m e]; try discriminate; reflexivity.
Qed.

Section Ascending.
Context {A : Type} (compareFn : A -> A -> number).
Hypothesis antisym :
  forall a b, (compareFn a b >? zero)%js = true ->
              (compareFn b a >? zero)%js = false.

Lemma descending_cons (y : A) (l : list A) :
  descending compareFn l ->
  (forall z, hd_error l = Some z -> (compareFn z y >? zero)%js = false) ->
  descending compareFn (y :: l).
Proof.
  intros Hl Hhd. destruct l as [|z l]; [exact I|].
  split; [apply Hhd; reflexivity | exact Hl].
Qed.

Lemma descending_tail (y : A) (l : list A) :
  descending compareFn (y :: l) -> descending compareFn l.
Proof. destruct l as [|z l]; [intros; exact I | intros [_ H]; exact H]. Qed.

Lemma insert_descending (x : A) (l : list A) :
  descending compareFn l ->
  descending compareFn (insert_from_right compareFn x l).
Proof.
  induction l as [|y l IH]; intros Hl; [exact I|].
  cbn [insert_from_right].
  destruct (compareFn y x >? zero)%js eqn:Hyx.
  - apply descending_cons; [apply IH; eapply descending_tail; exact Hl|].
    intros z Hz. destruct l as [|y' l]; cbn [insert_from_right] in Hz.
    + inversion Hz; subst z. apply antisym, Hyx.
    + destruct (compareFn y' x >? zero)%js; inversion Hz; subst z.
      * destruct Hl as [H _]. exact H.
      * apply antisym, Hyx.
  - apply descending_cons; [exact Hl|].
    intros z Hz. inversion Hz; subst z. exact Hyx.
Qed.

Lemma fold_insert_descending (a acc : list A) :
  descending compareFn acc ->
  descending compareFn
    (fold_left (fun rs x => insert_from_right compareFn x rs) a acc).
Proof.
  revert acc; induction a as [|x a IH]; intros acc Hacc; simpl.
  - exact Hacc.
  - apply IH, insert_descending, Hacc.
Qed.

Lemma ascending_snoc (l : list A) (x : A) :
  ascending compareFn l = true ->
  (forall z, hd_error (rev l) = Some z -> leb (compareFn z x) zero = true) ->
  ascending compareFn (l ++ [x]) = true.
Proof.
  induction l as [|a l IH]; intros Hl Hlast; [reflexivity|].
  destruct l as [|b l].
  - simpl. rewrite (Hlast a eq_refl). reflexivity.
  - change ((a :: b :: l) ++ [x]) with (a :: (b :: l) ++ [x]).
    cbn [ascending] in Hl. apply andb_prop in Hl. destruct Hl as [Hab Hl].
    change (ascending compareFn (a :: (b :: l) ++ [x]))
      with (leb (compareFn a b) zero
            && ascending compareFn ((b :: l) ++ [x])).
    rewrite Hab. cbn [andb]. apply IH; [exact Hl|].
    intros z Hz. apply Hlast.
    cbn [rev] in Hz |- *.
    destruct (rev l ++ [b]) as [|h t] eqn:Hr.
    + destruct (rev l); discriminate Hr.
    + exact Hz.
Qed.

Lemma ascending_rev (l : list A) :
  (forall x y, In x l -> In y l -> is_nan (compareFn x y) = false) ->
  descending compareFn l -> ascending compareFn (rev l) = true.
Proof.
  induction l as [|y l IH]; intros Hnan Hl; [reflexivity|].
  cbn [rev]. apply ascending_snoc.
  - apply IH.
    + intros a b Ha Hb. apply Hnan; right; assumption.
    + eapply descending_tail; exact Hl.
  - rewrite rev_involutive. intros z Hz.
    destruct l as [|z' l]; [discriminate Hz|].
    inversion Hz; subst z'. destruct Hl as [H _].
    apply not_positive_leb; [|exact H].
    apply Hnan; [right; left; reflexivity | left; reflexivity].
Qed.

(** Where the comparator returns no NaN, the sorted array is in ascending
    order. *)
Lemma Array_sort_ascending (a : list A) :
  (forall x y, In x a -> In y a -> is_nan (compareFn x y) = false) ->
  ascending compareFn (Array_sort compareFn a) = true.
Proof.
  intros Hnan. unfold Array_sort. apply ascending_rev.
  - intros x y Hx Hy.
    pose proof (fold_insert_perm compareFn a []) as Hperm.
    rewrite app_nil_r in Hperm.
    apply Hnan; eapply Permutation_in; eassumption.
  - apply fold_insert_descending. exact I.
Qed.

End Ascending.

(** ** The RMSE *)

Section SignFacts.

Lemma mul_self_sign (x : number) : sign_bit (x * x)%js = false.
Proof.
  destruct x as [s|s| |s m e]; try reflexivity;
    try (destruct s; reflexivity).
  unfold mul, SFmul.
  destruct (binary_round_aux_sign (xorb s s) (Z.pos (m * m)) (e + e) loc_Exact)
    as [H | H]; rewrite H; [reflexivity | destruct s; reflexivity].
Qed.

Lemma add_sign (x y : number) :
  sign_bit x = false -> sign_bit y = false -> sign_bit (x + y)%js = false.
Proof.
  destruct x as [sx|sx| |sx mx ex], y as [sy|sy| |sy my ey];
    intros Hx Hy; simpl in Hx, Hy; subst; try reflexivity.
  unfold add, SFadd. cbn [cond_Zopp]. rewrite <- Pos2Z.inj_add.
  unfold binary_normalize, binary_round.
  destruct (shl_align _ _ _) as [mz ez].
  destruct (binary_round_aux_sign false (Z.pos mz) ez loc_Exact) as [H | H];
    rewrite H; reflexivity.
Qed.

Lemma div_sign (x y : number) :
  sign_bit x = false -> sign_bit y = false -> sign_bit (x / y)%js = false.
Proof.
  destruct x as [sx|sx| |sx mx ex], y as [sy|sy| |sy my ey];
    intros Hx Hy; simpl in Hx, Hy; subst; try reflexivity.
  unfold div, SFdiv. cbn [xorb].
  destruct (SFdiv_core_binary prec emax (Z.pos mx) ex (Z.pos my) ey)
    as [[mz ez] lz].
  destruct (binary_round_aux_sign false mz ez lz) as [H | H];
    rewrite H; reflexivity.
Qed.

Lemma sqrt_sign (x : number) :
  sign_bit x = false -> sign_bit (sqrt x) = false.
Proof.
  destruct x as [s|s| |s m e]; intros Hx; simpl in Hx; subst;
    try reflexivity.
  unfold sqrt, SFsqrt.
  destruct (SFsqrt_core_binary prec emax (Z.pos m) e) as [[mz ez] lz].
  destruct (binary_round_aux_sign false mz ez lz) as [H | H];
    rewrite H; reflexivity.
Qed.

Lemma length_of_sign_bit {A : Type} (l : list A) :
  sign_bit (ss.length_of l) = false.
Proof. destruct (length_of_sign l) as [H | H]; rewrite H; reflexivity. Qed.

Lemma sumSquaredErrors_sign (actual predicted : list number) (sum : number) :
  sign_bit sum = false ->
  sign_bit (sumSquaredErrors actual predicted sum) = false.
Proof.
  revert predicted sum; induction actual as [|val actual IH];
    intros predicted sum Hsum; simpl; [exact Hsum|].
  apply IH, add_sign; [exact Hsum | apply mul_self_sign].
Qed.

Lemma not_below_zero (x : number) :
  sign_bit x = false -> (x <? zero)%js = false.
Proof.
  destruct x as [s|s| |s m e]; intros H; simpl in H; subst; reflexivity.
Qed.

End SignFacts.

(** X1: an RMSE is never negative: it is NaN, [+0], a positive number or
    [+Infinity], and the comparison [rmse < 0] fails. *)
Theorem calculateRMSE_never_negative (actual predicted : list number) :
  sign_bit (calculateRMSE actual predicted) = false
  /\ (calculateRMSE actual predicted <? zero)%js = false.
Proof.
  assert (H : sign_bit (calculateRMSE actual predicted) = false).
  { unfold calculateRMSE. apply sqrt_sign, div_sign.
    - apply sumSquaredErrors_sign. reflexivity.
    - apply length_of_sign_bit. }
  split; [exact H | apply not_below_zero, H].
Qed.

Lemma sumSquaredErrors_short (actual predicted : list number) (sum : number) :
  (List.length predicted < List.length actual)%nat ->
  sumSquaredErrors actual predicted sum = NaN.
Proof.
  revert predicted sum; induction actual as [|val actual IH];
    intros predicted sum Hlen; simpl in Hlen; [lia|].
  destruct predicted as [|p predicted]; cbn [sumSquaredErrors hd tl].
  - rewrite sub_nan_r. change (square NaN) with NaN.
    rewrite add_nan_r. apply sumSquaredErrors_nan.
  - apply IH. simpl in Hlen. lia.
Qed.

Lemma sumSquaredErrors_nan_actual (actual predicted : list number)
      (sum : number) :
  In NaN actual -> sumSquaredErrors actual predicted sum = NaN.
Proof.
  revert predicted sum; induction actual as [|val actual IH];
    intros predicted sum Hin; [destruct Hin|].
  cbn [sumSquaredErrors]. destruct Hin as [-> | Hin].
  - rewrite sub_nan_l. change (square NaN) with NaN.
    rewrite add_nan_r. apply sumSquaredErrors_nan.
  - apply IH, Hin.
Qed.

Lemma calculateRMSE_nan_actual (actual predicted : list number) :
  In NaN actual -> calculateRMSE actual predicted = NaN.
Proof.
  intros Hin. unfold calculateRMSE.
  rewrite sumSquaredErrors_nan_actual by exact Hin. reflexivity.
Qed.

(** X2: the RMSE is NaN when there is nothing to compare: [actual] is empty
    (0 / 0), or [predicted] is shorter than [actual], so that some
    [predicted\[i\]] is [undefined]. *)
Theorem calculateRMSE_of_missing_values (actual predicted : list number) :
  actual = [] \/ (List.length predicted < List.length actual)%nat ->
  calculateRMSE actual predicted = NaN.
Proof.
  intros [-> | Hlen]; [reflexivity|].
  unfold calculateRMSE. rewrite sumSquaredErrors_short by exact Hlen.
  reflexivity.
Qed.

Lemma calculateRMSE_of_missing_values_witness :
  calculateRMSE [lit 1%float; lit 2%float] [lit 1%float] = NaN.
Proof.
  apply calculateRMSE_of_missing_values. right. simpl. lia.
Defined.

(** ** The result of a classification *)

(** What the classifier returns, when it returns: the pieces of the
    result in terms of the five fits. *)
Lemma determineComplexity_result (dataPoints : list DataPoint.t)
      (r : AnalysisResult.t) :
  determineComplexity dataPoints = Return r ->
  exists meanTime best,
    let fits := fit_models dataPoints meanTime in
    ss.mean (map DataPoint.time dataPoints) = Return meanTime /\
    In best fits /\
    AnalysisResult.bestFit r = Model.type best /\
    AnalysisResult.results r
    = Array_sort by_fit_rmse (map fit_of (Array_sort by_rmse fits)).
Proof.
  intros Hr.
  assert (Hne : dataPoints <> []) by (intros ->; discriminate Hr).
  destruct (determineComplexity_unfold Hne)
    as (mt & tv & mx & first & rest & H).
  cbn zeta in H. destruct H as (Hmean & _ & _ & Hsort & H).
  rewrite H in Hr. inversion Hr; subst r; clear Hr.
  cbn [AnalysisResult.bestFit AnalysisResult.results].
  exists mt.
  set (best := if low_and_flat mx tv mt then _ else _).
  exists best. cbn zeta. repeat split; try assumption; try reflexivity.
  subst best. destruct (low_and_flat mx tv mt).
  - left. reflexivity.
  - apply (Array_sort_in by_rmse).
    assert (Hchain : adoption_chain (first :: rest) mt first
                       (occam_scan (first :: rest) mt first rest)).
    { apply occam_scan_chain_from.
      - intros x Hx; right; exact Hx.
      - apply chain_start. }
    pose proof (@adoption_chain_rank
                  dataPoints mt first
                  (occam_scan (first :: rest) mt first rest)) as Hrank.
    cbn zeta in Hrank. rewrite Hsort in Hrank |- *.
    apply Hrank; [left; reflexivity | exact Hchain].
Qed.

(** X3: the result lists the five growth models, each once and with the RMSE
    computed for it, whatever the data: [results] is a rearrangement of
    the five fits. *)
Theorem results_list_the_five_models (dataPoints : list DataPoint.t)
        (r : AnalysisResult.t) :
  determineComplexity dataPoints = Return r ->
  (exists meanTime,
      ss.mean (map DataPoint.time dataPoints) = Return meanTime /\
      Permutation (AnalysisResult.results r)
                  (map fit_of (fit_models dataPoints meanTime))) /\
  Permutation (map ModelFit.type (AnalysisResult.results r))
              ["O(1) - Constant"; "O(log n) - Logarithmic"; "O(n) - Linear";
               "O(n log n) - Linear-ithmic"; "O(n^2) - Quadratic"]%string.
Proof.
  intros Hr.
  destruct (determineComplexity_result dataPoints Hr) as (mt & best & H).
  cbn zeta in H. destruct H as (Hmean & _ & _ & Hres).
  assert (Hperm : Permutation (AnalysisResult.results r)
                              (map fit_of (fit_models dataPoints mt))).
  { rewrite Hres.
    eapply perm_trans; [apply Array_sort_perm|].
    apply Permutation_map, Array_sort_perm. }
  split.
  - exists mt. split; assumption.
  - apply (Permutation_map ModelFit.type) in Hperm. exact Hperm.
Qed.

Lemma results_list_the_five_models_witness :
  exists r,
    determineComplexity chained_series = Return r /\
    Permutation (map ModelFit.type (AnalysisResult.results r))
                ["O(1) - Constant"; "O(log n) - Logarithmic"; "O(n) - Linear";
                 "O(n log n) - Linear-ithmic"; "O(n^2) - Quadratic"]%string.
Proof.
  destruct (@determineComplexity_returns chained_series) as [r Hr];
    [discriminate|].
  exists r. split; [exact Hr|].
  apply (proj2 (results_list_the_five_models chained_series Hr)).
Defined.

Lemma by_fit_rmse_antisym (a b : ModelFit.t) :
  (by_fit_rmse a b >? zero)%js = true -> (by_fit_rmse b a >? zero)%js = false.
Proof. apply sub_antisym. Qed.

(** X4: when every RMSE of the result is finite, the results are in
    ascending order of RMSE for the comparator of the source: for two
    consecutive results [a] and [b], the difference [a.rmse - b.rmse] is
    zero or negative. *)
Theorem results_in_ascending_order (dataPoints : list DataPoint.t)
        (r : AnalysisResult.t) :
  determineComplexity dataPoints = Return r ->
  (forall fit, In fit (AnalysisResult.results r) ->
               is_finite (ModelFit.rmse fit) = true) ->
  ascending by_fit_rmse (AnalysisResult.results r) = true.
Proof.
  intros Hr Hfin.
  destruct (determineComplexity_result dataPoints Hr) as (mt & best & H).
  cbn zeta in H. destruct H as (_ & _ & _ & Hres).
  rewrite Hres in Hfin |- *.
  apply Array_sort_ascending; [apply by_fit_rmse_antisym|].
  intros x y Hx Hy. unfold by_fit_rmse.
  apply sub_finite_not_nan; apply Hfin;
    apply (proj1 (Array_sort_in by_fit_rmse _ _)); assumption.
Qed.

Lemma results_in_ascending_order_witness :
  exists r,
    determineComplexity noisy_linear_series = Return r /\
    ascending by_fit_rmse (AnalysisResult.results r) = true.
Proof.
  assert (H : exists r,
             determineComplexity noisy_linear_series = Return r
             /\ forallb (fun fit => is_finite (ModelFit.rmse fit))
                        (AnalysisResult.results r) = true)
    by (eexists; split; vm_compute; reflexivity).
  destruct H as (r & Hr & Hfin).
  exists r. split; [exact Hr|].
  apply (results_in_ascending_order noisy_linear_series Hr).
  apply (proj1 (forallb_forall _ _) Hfin).
Defined.

(** X5: the model the classifier names is one of the results it lists, so the
    lookup of the request handler, [results.find(r => r.type === bigO)],
    always finds it, and the RMSE the handler reports is the RMSE of that
    model, never the fallback 0. *)
Theorem reported_rmse_is_of_best_fit (dataPoints : list DataPoint.t)
        (r : AnalysisResult.t) :
  determineComplexity dataPoints = Return r ->
  exists fit,
    In fit (AnalysisResult.results r) /\
    ModelFit.type fit = AnalysisResult.bestFit r /\
    bestModelResult r = Some fit /\
    reported_rmse r = ModelFit.rmse fit.
Proof.
  intros Hr.
  destruct (determineComplexity_result dataPoints Hr) as (mt & best & H).
  cbn zeta in H. destruct H as (_ & Hbest & Htype & Hres).
  assert (Hperm : Permutation (map fit_of (fit_models dataPoints mt))
                              (AnalysisResult.results r)).
  { rewrite Hres. apply Permutation_sym.
    eapply perm_trans; [apply Array_sort_perm|].
    apply Permutation_map, Array_sort_perm. }
  assert (Hfind : bestModelResult r = Some (fit_of best)).
  { unfold bestModelResult. rewrite Htype.
    eapply find_unique_perm; [exact Hperm|].
    unfold fit_models, the_models in Hbest |- *. cbn zeta in Hbest |- *.
    destruct Hbest as [<- | [<- | [<- | [<- | [<- | []]]]]]; reflexivity. }
  exists (fit_of best). repeat split.
  - apply find_some in Hfind. apply Hfind.
  - symmetry. exact Htype.
  - exact Hfind.
  - unfold reported_rmse. rewrite Hfind. reflexivity.
Qed.

Lemma reported_rmse_is_of_best_fit_witness :
  exists r fit,
    determineComplexity alternating_series = Return r /\
    bestModelResult r = Some fit /\
    ModelFit.type fit = AnalysisResult.bestFit r.
Proof.
  destruct (@determineComplexity_returns alternating_series) as [r Hr];
    [discriminate|].
  destruct (reported_rmse_is_of_best_fit alternating_series Hr)
    as (fit & _ & Htype & Hfind & _).
  exists r, fit. split; [exact Hr|]. split; assumption.
Defined.

(** ** A duration that is NaN *)

Section NoSwap.
Context {A : Type} (compareFn : A -> A -> number).

Lemma fold_insert_no_swap (a acc : list A) :
  (forall x y, In x (a ++ acc) -> In y (a ++ acc) ->
               (compareFn x y >? zero)%js = false) ->
  fold_left (fun rs x => insert_from_right compareFn x rs) a acc
  = rev a ++ acc.
Proof.
  revert acc; induction a as [|x a IH]; intros acc H; [reflexivity|].
  cbn [fold_left rev].
  assert (Hins : insert_from_right compareFn x acc = x :: acc).
  { destruct acc as [|y acc]; [reflexivity|]. cbn [insert_from_right].
    rewrite H; [reflexivity | |].
    - apply in_or_app. right. left. reflexivity.
    - left. reflexivity. }
  rewrite Hins, IH.
  - rewrite <- app_assoc. reflexivity.
  - intros u v Hu Hv. apply H.
    + apply in_app_or in Hu. destruct Hu as [Hu | [<- | Hu]].
      * right. apply in_or_app. left. exact Hu.
      * left. reflexivity.
      * right. apply in_or_app. right. exact Hu.
    + apply in_app_or in Hv. destruct Hv as [Hv | [<- | Hv]].
      * right. apply in_or_app. left. exact Hv.
      * left. reflexivity.
      * right. apply in_or_app. right. exact Hv.
Qed.

(** An array no two elements of which the comparator puts in order is
    left as it is. *)
Lemma Array_sort_no_swap (a : list A) :
  (forall x y, In x a -> In y a -> (compareFn x y >? zero)%js = false) ->
  Array_sort compareFn a = a.
Proof.
  intros H. unfold Array_sort. rewrite fold_insert_no_swap.
  - rewrite app_nil_r. apply rev_involutive.
  - rewrite app_nil_r. exact H.
Qed.

End NoSwap.

(** X6: a single NaN among the durations decides the whole classification:
    the five RMSEs are NaN, the sort leaves the models in the order of the
    source, and the classifier answers Constant with the confidence NaN. *)
Theorem nan_duration_gives_constant (dataPoints : list DataPoint.t) :
  (exists d, In d dataPoints /\ DataPoint.time d = NaN) ->
  determineComplexity dataPoints
  = Return (AnalysisResult.mk
              "O(1) - Constant" NaN
              (map fit_of (the_models NaN NaN NaN NaN NaN))).
Proof.
  intros (d & Hin & Hd).
  assert (Hne : dataPoints <> []) by (intros ->; destruct Hin).
  assert (Hnan : In NaN (map DataPoint.time dataPoints)).
  { rewrite <- Hd. apply in_map, Hin. }
  destruct (determineComplexity_unfold Hne)
    as (mt & tv & mx & first & rest & H).
  cbn zeta in H. destruct H as (_ & _ & _ & Hsort & H).
  assert (Hfits : fit_models dataPoints mt = the_models NaN NaN NaN NaN NaN).
  { unfold fit_models, getRegressionRMSE. cbn zeta.
    rewrite !calculateRMSE_nan_actual by exact Hnan. reflexivity. }
  assert (Hconst : constant_model dataPoints mt
                   = Model.mk "O(1) - Constant" NaN 1).
  { unfold constant_model.
    rewrite calculateRMSE_nan_actual by exact Hnan. reflexivity. }
  rewrite Hfits in Hsort, H. rewrite Hconst in H. clear Hfits Hconst.
  set (c := Model.mk "O(1) - Constant" NaN 1) in *.
  set (M := the_models NaN NaN NaN NaN NaN) in *.
  assert (Hid : Array_sort by_rmse M = M) by (vm_compute; reflexivity).
  rewrite Hid in Hsort, H. clear Hid.
  assert (Hfirst : first = c /\ rest = tl M).
  { subst M. unfold the_models in Hsort. inversion Hsort.
    split; reflexivity. }
  destruct Hfirst as [-> ->]. clear Hsort.
  assert (Hscan : occam_scan M mt c (tl M) = c).
  { apply occam_scan_constant; try reflexivity.
    intros m Hm. apply (@the_models_rank NaN NaN NaN NaN NaN).
    right. exact Hm. }
  rewrite Hscan in H. clear Hscan.
  assert (Hbest : (if low_and_flat mx tv mt then c else c) = c)
    by (destruct (low_and_flat mx tv mt); reflexivity).
  rewrite Hbest in H. clear Hbest.
  assert (Hconf : confidence_of M mt c = NaN).
  { unfold confidence_of. subst c. cbn [Model.rmse].
    change (NaN <? noiseFloor)%js with false. cbv iota.
    unfold confidence_blend. cbn zeta. cbn [Model.rmse].
    rewrite div_nan_l. reflexivity. }
  rewrite Hconf in H. clear Hconf.
  assert (Hres : Array_sort by_fit_rmse (map fit_of M) = map fit_of M)
    by (vm_compute; reflexivity).
  rewrite Hres in H. exact H.
Qed.

Lemma nan_duration_gives_constant_witness :
  determineComplexity [point 10 1; DataPoint.mk (lit 100%float) NaN;
                       point 1000 3]
  = Return (AnalysisResult.mk
              "O(1) - Constant" NaN
              (map fit_of (the_models NaN NaN NaN NaN NaN))).
Proof.
  apply nan_duration_gives_constant.
  exists (DataPoint.mk (lit 100%float) NaN).
  split; [right; left; reflexivity | reflexivity].
Defined.

(** ** Integers as lengths and indices *)

Section SmallIntegers.

Lemma trunc_of_Z (z : Z) :
  0 < z < 2 ^ 53 ->
  exists m e, of_Z z = S754_finite false m e /\ trunc_Z false m e = z.
Proof.
  intros Hz. destruct z as [|p|p]; try lia.
  destruct (@of_Z_small p) as (mz & Heq & Hval & Hd); [lia|].
  exists mz, (Z.pos (digits2_pos p) - 53). split; [exact Heq|].
  unfold trunc_Z, floor_Z, signed, cond_Zopp.
  destruct (0 <=? Z.pos (digits2_pos p) - 53) eqn:He.
  - apply Z.leb_le in He.
    assert (H53 : Z.pos (digits2_pos p) = 53) by lia.
    rewrite Hval, H53. change (53 - 53) with 0. rewrite Z.pow_0_r. lia.
  - rewrite Hval.
    replace (- (Z.pos (digits2_pos p) - 53))
      with (53 - Z.pos (digits2_pos p)) by lia.
    apply Z.div_mul. apply Z.pow_nonzero; lia.
Qed.

Lemma ToLength_of_Z (z : Z) : 0 <= z < 2 ^ 53 -> ToLength (of_Z z) = z.
Proof.
  intros Hz. destruct (Z.eq_dec z 0) as [-> | Hnz]; [reflexivity|].
  destruct (@trunc_of_Z z) as (m & e & -> & Ht); [lia|].
  unfold ToLength. rewrite Ht. lia.
Qed.

(** On integers below [2^53] the comparison of numbers is the comparison
    of integers. *)
Lemma compare_of_Z (i n : Z) :
  0 <= i < 2 ^ 53 -> 0 <= n < 2 ^ 53 ->
  SFcompare (of_Z i) (of_Z n) = Some (i ?= n).
Proof.
  intros Hi Hn.
  destruct i as [|p|p]; try lia; destruct n as [|q|q]; try lia.
  - reflexivity.
  - destruct (@of_Z_small q) as (mq & -> & _); [lia|]. reflexivity.
  - destruct (@of_Z_small p) as (mp & -> & _); [lia|]. reflexivity.
  - destruct (@of_Z_small p) as (mp & -> & Hp & Hdp); [lia|].
    destruct (@of_Z_small q) as (mq & -> & Hq & Hdq); [lia|].
    destruct (digits_bounds p) as [Hplo Hphi].
    destruct (digits_bounds q) as [Hqlo Hqhi].
    set (dp := Z.pos (digits2_pos p)) in *.
    set (dq := Z.pos (digits2_pos q)) in *.
    unfold SFcompare. f_equal.
    destruct (Z.compare_spec (dp - 53) (dq - 53)) as [He | He | He].
    + assert (Hd : dp = dq) by lia.
      rewrite Pos.compare_cont_spec. cbn [Pos.switch_Eq].
      change (mp ?= mq)%positive with (Z.pos mp ?= Z.pos mq).
      rewrite Hp, Hq, Hd.
      assert (Hpow : 2 ^ (53 - dq) > 0)
        by (apply Z.lt_gt, Z.pow_pos_nonneg; lia).
      rewrite <- (Zmult_compare_compat_r _ _ _ Hpow).
      destruct (Z.pos p ?= Z.pos q); reflexivity.
    + symmetry. apply Z.compare_lt_iff.
      assert (Hpow : 2 ^ dp <= 2 ^ (dq - 1)) by (apply Z.pow_le_mono_r; lia).
      lia.
    + symmetry. apply Z.compare_gt_iff.
      assert (Hpow : 2 ^ dq <= 2 ^ (dp - 1)) by (apply Z.pow_le_mono_r; lia).
      lia.
Qed.

Lemma ltb_of_Z (i n : Z) :
  0 <= i < 2 ^ 53 -> 0 <= n < 2 ^ 53 ->
  (of_Z i <? of_Z n)%js = (i <? n).
Proof.
  intros Hi Hn. unfold ltb, SFltb. rewrite compare_of_Z by assumption.
  unfold Z.ltb. destruct (i ?= n); reflexivity.
Qed.

Lemma leb_of_Z (i n : Z) :
  0 <= i < 2 ^ 53 -> 0 <= n < 2 ^ 53 ->
  (of_Z i <=? of_Z n)%js = (i <=? n).
Proof.
  intros Hi Hn. unfold leb, SFleb. rewrite compare_of_Z by assumption.
  unfold Z.leb. destruct (i ?= n); reflexivity.
Qed.

End SmallIntegers.

(** * Further properties of the measurement engine *)

(** X7: the array for an integer size from 0 to [2^32 - 1] has that length and
    holds [i] at the index [i]; from [2^32] on the array constructor
    throws a RangeError. *)
Theorem generateInputArray_contract (n : Z) :
  (0 <= n <= 2 ^ 32 - 1 ->
   exists array,
     generateInputArray (of_Z n) = Return array
     /\ Z.of_nat (List.length array) = n
     /\ forall i, 0 <= i < n ->
                  nth_error array (Z.to_nat i) = Some (of_Z i))
  /\ (2 ^ 32 <= n < 2 ^ 53 ->
      generateInputArray (of_Z n) = Throw RangeError_length).
Proof.
  split; intros Hn; unfold generateInputArray;
    rewrite ToLength_of_Z by lia.
  - assert (Hle : (n >? 2 ^ 32 - 1) = false)
      by (rewrite Z.gtb_ltb; apply Z.ltb_ge; lia).
    rewrite Hle. eexists. split; [reflexivity|]. split.
    + rewrite length_map, length_seq. lia.
    + intros i Hi. rewrite nth_error_map.
      assert (Hnth : nth_error (seq 0 (Z.to_nat n)) (Z.to_nat i)
                     = Some (Z.to_nat i)).
      { rewrite nth_error_nth' with (d := O) by (rewrite length_seq; lia).
        rewrite seq_nth by lia. reflexivity. }
      rewrite Hnth. cbn [option_map]. rewrite Z2Nat.id by lia. reflexivity.
  - assert (Hgt : (n >? 2 ^ 32 - 1) = true)
      by (rewrite Z.gtb_ltb; apply Z.ltb_lt; lia).
    rewrite Hgt. reflexivity.
Qed.

Lemma generateInputArray_contract_witness :
  (exists array,
      generateInputArray (of_Z 3) = Return array
      /\ Z.of_nat (List.length array) = 3
      /\ forall i, 0 <= i < 3 ->
                   nth_error array (Z.to_nat i) = Some (of_Z i))
  /\ generateInputArray (of_Z (2 ^ 32)) = Throw RangeError_length.
Proof.
  split.
  - apply (proj1 (generateInputArray_contract 3)). lia.
  - apply (proj2 (generateInputArray_contract (2 ^ 32))). lia.
Defined.

Section QuietRuns.
Variable AlgState : Type.
Variable algorithm :
  AlgState -> list number -> AlgState * list number * option JsError.
Variable clock : nat -> number.
Hypothesis quiet : never_throws algorithm.



End QuietRuns.



(** ** What the algorithm is invoked on *)

Section Emits.
Variable AlgState : Type.
Variable algorithm :
  AlgState -> list number -> AlgState * list number * option JsError.
Variable clock : nat -> number.
Variable P : Event -> Prop.

Lemma emits_ret {A : Type} (a : A) (Q : A -> Prop) :
  Q a -> emits P (ret a : M AlgState A) Q.
Proof.
  intros Ha w. split.
  - exists []. split; [reflexivity | constructor].
  - intros a' w' H. inversion H; subst. exact Ha.
Qed.

Lemma emits_lift {A : Type} (c : completion A) (Q : A -> Prop) :
  (forall a, c = Return a -> Q a) -> emits P (lift c : M AlgState A) Q.
Proof.
  intros Hc w. split.
  - exists []. split; [reflexivity | constructor].
  - intros a w' H. inversion H; subst. apply Hc. reflexivity.
Qed.

Lemma emits_timeout {A : Type} (Q : A -> Prop) :
  emits P (fun w => Timeout w : outcome AlgState A) Q.
Proof.
  intros w. split.
  - exists []. split; [reflexivity | constructor].
  - intros a w' H. discriminate H.
Qed.

Lemma emits_now (Q : number -> Prop) :
  (forall t, P (EvNow t)) -> (forall t, Q t) ->
  emits P (now clock : M AlgState number) Q.
Proof.
  intros HP HQ w. split.
  - exists [EvNow (clock (reads w))]. split; [reflexivity|].
    constructor; [apply HP | constructor].
  - intros a w' _. apply HQ.
Qed.

Lemma emits_call (array : list number) (Q : list number -> Prop) :
  (forall thrown, P (EvCall array thrown)) ->
  (forall s, Q (snd (fst (algorithm s array)))) ->
  emits P (call algorithm array) Q.
Proof.
  intros HP HQ w. unfold call.
  pose proof (HQ (alg_state w)) as Hq.
  destruct (algorithm (alg_state w) array) as [[s' array'] thrown].
  simpl in Hq. split.
  - exists [EvCall array thrown]. split.
    + destruct thrown; reflexivity.
    + constructor; [apply HP | constructor].
  - intros a w' H. destruct thrown; inversion H; subst. exact Hq.
Qed.

Lemma emits_bind {A B : Type} (c : M AlgState A) (k : A -> M AlgState B)
      (Q : A -> Prop) (R : B -> Prop) :
  emits P c Q -> (forall a, Q a -> emits P (k a) R) ->
  emits P (mbind c k) R.
Proof.
  intros Hc Hk w. unfold mbind.
  destruct (Hc w) as [(evs1 & Ht1 & Hf1) Hq].
  destruct (c w) as [[a|e] w1|w1]; simpl in Ht1.
  - destruct (Hk a (Hq a w1 eq_refl) w1) as [(evs2 & Ht2 & Hf2) Hr].
    split; [|exact Hr].
    exists (evs2 ++ evs1). split.
    + rewrite Ht2, Ht1. apply app_assoc.
    + apply Forall_app. split; assumption.
  - split; [exists evs1; split; assumption|].
    intros b w' H. discriminate H.
  - split; [exists evs1; split; assumption|].
    intros b w' H. discriminate H.
Qed.

Lemma emits_for_lt {S : Type} (body : S -> M AlgState S) (bound : number)
      (I : S -> Prop) :
  (forall st, I st -> emits P (body st) I) ->
  forall fuel i st, I st -> emits P (for_lt fuel i bound body st) I.
Proof.
  intros Hbody. induction fuel as [|fuel IH]; intros i st Hst; simpl;
    destruct (of_Z i <? bound)%js; try (apply emits_ret; exact Hst).
  - apply emits_timeout.
  - eapply emits_bind; [apply Hbody, Hst|]. intros st' Hst'. apply IH, Hst'.
Qed.

Lemma emits_while {S : Type} (cond : S -> bool) (body : S -> M AlgState S)
      (I : S -> Prop) :
  (forall st, I st -> emits P (body st) I) ->
  forall fuel st, I st -> emits P (while fuel cond body st) I.
Proof.
  intros Hbody. induction fuel as [|fuel IH]; intros st Hst; simpl;
    destruct (cond st); try (apply emits_ret; exact Hst).
  - apply emits_timeout.
  - eapply emits_bind; [apply Hbody, Hst|]. intros st' Hst'. apply IH, Hst'.
Qed.

Lemma emits_for_of {S A : Type} (body : S -> A -> M AlgState S)
      (I : S -> Prop) (items : list A) :
  (forall st x, In x items -> I st -> emits P (body st x) I) ->
  forall st, I st -> emits P (for_of body items st) I.
Proof.
  induction items as [|x items IH]; intros Hbody st Hst; simpl.
  - apply emits_ret, Hst.
  - eapply emits_bind; [apply Hbody; [left; reflexivity | exact Hst]|].
    intros st' Hst'. apply IH; [|exact Hst'].
    intros st0 y Hy. apply Hbody. right. exact Hy.
Qed.

End Emits.

Section RequestedSizes.
Variable AlgState : Type.
Variable algorithm :
  AlgState -> list number -> AlgState * list number * option JsError.
Variable clock : nat -> number.
Variable inputSizes : list number.
Hypothesis unchanged : read_only algorithm.

Lemma emits_call_requested (array : list number) :
  requested inputSizes array ->
  emits (on_requested inputSizes) (call algorithm array)
        (requested inputSizes).
Proof.
  intros Ha. apply emits_call.
  - intros thrown. exact Ha.
  - intros s. rewrite unchanged. exact Ha.
Qed.

Lemma emits_generate (n : number) :
  In n inputSizes ->
  emits (on_requested inputSizes)
        (lift (generateInputArray n) : M AlgState (list number))
        (requested inputSizes).
Proof.
  intros Hn. apply emits_lift. intros a Ha. exists n. split; assumption.
Qed.

Lemma emits_now_requested :
  emits (on_requested inputSizes) (now clock : M AlgState number)
        (fun _ => True).
Proof. apply emits_now; intros; exact Logic.I. Qed.

Lemma emits_measure_size (fuel : nat) (iterations : number)
      (dataPoints : list DataPoint.t) (n : number) :
  In n inputSizes ->
  emits (on_requested inputSizes)
        (measure_size algorithm clock fuel iterations dataPoints n)
        (fun _ => True).
Proof.
  intros Hn. unfold measure_size.
  eapply emits_bind with (Q := fun _ => True).
  { unfold calibrate.
    eapply emits_bind; [apply emits_generate, Hn|]. intros array Harray.
    eapply emits_bind; [apply emits_now_requested|]. intros calStart _.
    eapply emits_bind
      with (Q := fun c => requested inputSizes (calibrationArray c)).
    - apply emits_while; [|exact Harray].
      intros c Hc. unfold cal_body.
      eapply emits_bind; [apply emits_call_requested, Hc|].
      intros array' Harray'.
      eapply emits_bind; [apply emits_now_requested|]. intros t _.
      apply emits_ret. exact Harray'.
    - intros c _. apply emits_ret. exact Logic.I. }
  intros [calDuration calCount] _.
  eapply emits_bind with (Q := fun _ => True).
  { apply emits_for_lt; [|exact Logic.I].
    intros times _. unfold timed_batch.
    eapply emits_bind; [apply emits_generate, Hn|]. intros array Harray.
    eapply emits_bind; [apply emits_now_requested|]. intros start _.
    eapply emits_bind.
    - apply emits_for_lt; [|exact Harray].
      intros a Ha. apply emits_call_requested, Ha.
    - intros _ _.
      eapply emits_bind; [apply emits_now_requested|]. intros end_ _.
      apply emits_ret. exact Logic.I. }
  intros times _.
  eapply emits_bind with (Q := fun _ => True).
  { apply emits_lift. intros; exact Logic.I. }
  intros avgTime _. apply emits_ret. exact Logic.I.
Qed.

Lemma emits_warmup (fuel : nat) (sizes : list number) :
  (forall n, hd_error sizes = Some n -> In n inputSizes) ->
  emits (on_requested inputSizes) (warmup algorithm fuel sizes) (fun _ => True).
Proof.
  intros Hhd. unfold warmup. destruct sizes as [|warmupSize rest].
  - apply emits_ret. exact Logic.I.
  - eapply emits_bind;
      [apply emits_generate, Hhd; reflexivity|].
    intros array Harray.
    eapply emits_bind with (Q := requested inputSizes).
    + apply emits_for_lt; [|exact Harray].
      intros a Ha. apply emits_call_requested, Ha.
    + intros _ _. apply emits_ret. exact Logic.I.
Qed.

Lemma emits_runAnalysis (fuel : nat) (iterations : number) :
  emits (on_requested inputSizes)
        (runAnalysis algorithm clock fuel inputSizes iterations)
        (fun _ => True).
Proof.
  unfold runAnalysis.
  eapply emits_bind with (Q := fun _ => True).
  { apply emits_warmup. intros n Hn.
    destruct inputSizes as [|n0 rest]; [discriminate Hn|].
    inversion Hn; subst. left. reflexivity. }
  intros _ _. apply emits_for_of; [|exact Logic.I].
  intros st n Hn _. apply emits_measure_size, Hn.
Qed.

End RequestedSizes.

(** X9: an algorithm that leaves its input as it was is only ever invoked on
    the arrays of the requested sizes: in the warm-up, in the calibrations
    and in the timed batches, every argument is the array that
    [generateInputArray] returns for one of [inputSizes]. *)
Theorem algorithm_runs_on_requested_sizes :
  forall (AlgState : Type) algorithm clock (fuel : nat)
         (inputSizes : list number) (iterations : number)
         (w : World AlgState),
    read_only algorithm ->
    exists evs,
      trace (world_of (runAnalysis algorithm clock fuel inputSizes
                                   iterations w))
      = evs ++ trace w
      /\ forall arg thrown,
           In (EvCall arg thrown) evs ->
           exists n, In n inputSizes /\ generateInputArray n = Return arg.
Proof.
  intros AlgState algorithm clock fuel inputSizes iterations w Hro.
  destruct (@emits_runAnalysis _ algorithm clock inputSizes Hro fuel
                               iterations w) as [(evs & Ht & Hall) _].
  exists evs. split; [exact Ht|].
  intros arg thrown Hin. rewrite Forall_forall in Hall.
  apply (Hall _ Hin).
Qed.

Lemma algorithm_runs_on_requested_sizes_witness :
  exists evs,
    trace (world_of (runAnalysis idle_algorithm ticking_clock 1000
                                 [lit 2%float; lit 3%float] (lit 2%float)
                                 initial_world))
    = evs ++ []
    /\ forall arg thrown,
         In (EvCall arg thrown) evs ->
         exists n, In n [lit 2%float; lit 3%float]
                   /\ generateInputArray n = Return arg.
Proof.
  apply (@algorithm_runs_on_requested_sizes
           unit idle_algorithm ticking_clock 1000%nat
           [lit 2%float; lit 3%float] (lit 2%float) initial_world).
  intros s a. reflexivity.
Defined.

(** * Properties of the callers *)

(** ** The command-line program *)

Section MainFacts.
Variable AlgState : Type.
Variable algorithm :
  AlgState -> list number -> AlgState * list number * option JsError.
Variable clock : nat -> number.

Lemma analyze_nothing (fuel : nat) (w : World AlgState) :
  analyze algorithm clock fuel [] w = Done (Throw mean_of_nothing) w.
Proof. reflexivity. Qed.

Lemma analyze_returns (fuel : nat) (n : number) (rest : list number)
      (w w' : World AlgState) (dataPoints : list DataPoint.t) :
  runAnalysis algorithm clock fuel (n :: rest) (lit 10%float) w
  = Done (Return dataPoints) w' ->
  exists complexity,
    determineComplexity dataPoints = Return complexity
    /\ analyze algorithm clock fuel (n :: rest) w
       = Done (Return (dataPoints, complexity)) w'.
Proof.
  intros Hrun.
  assert (Hne : dataPoints <> []).
  { apply runAnalysis_sizes in Hrun. intros ->. discriminate Hrun. }
  destruct (determineComplexity_returns Hne) as [r Hr].
  exists r. split; [exact Hr|].
  unfold analyze, mbind at 1. rewrite Hrun.
  unfold mbind, lift. rewrite Hr. reflexivity.
Qed.

End MainFacts.

Section StrategyFacts.
Variable pow : number -> number -> number.

Lemma inputSizes_of_none (fuel : nat) (strategy : Strategy) :
  no_sizes strategy -> inputSizes_of pow fuel strategy = Some (Return []).
Proof.
  assert (H1 : of_Z 1 = lit 1%float) by (vm_compute; reflexivity).
  destruct strategy as [maxPower|startSize steps|startSize stepSize count];
    intros Hno; cbn [no_sizes] in Hno; cbn [inputSizes_of];
    destruct fuel; cbn [powers_loop doubling_loop linear_loop];
    rewrite ?H1; change (of_Z 0) with zero; rewrite Hno; reflexivity.
Qed.

End StrategyFacts.

(** X10: the analysis of [main] is the measurement followed by the
    classification of what it returns.  On an empty size list the
    measurement returns no data point and the classification throws the
    error of [ss.mean]; on any other size list, whenever the measurement
    returns, the classification returns as well.  [main] builds the empty
    size list when the maximal power is below 1 or the number of steps or
    of data points is not above 0, and then its analysis throws that error
    without having invoked the algorithm. *)
Theorem main_analysis_needs_sizes :
  forall (AlgState : Type) algorithm clock (fuel : nat) (w : World AlgState),
    analyze algorithm clock fuel [] w = Done (Throw mean_of_nothing) w
    /\ (forall n rest dataPoints w',
           runAnalysis algorithm clock fuel (n :: rest) (lit 10%float) w
           = Done (Return dataPoints) w' ->
           exists complexity,
             determineComplexity dataPoints = Return complexity
             /\ analyze algorithm clock fuel (n :: rest) w
                = Done (Return (dataPoints, complexity)) w')
    /\ (forall pow strategy,
           no_sizes strategy ->
           main_run pow algorithm clock fuel strategy w
           = Done (Throw mean_of_nothing) w).
Proof.
  intros AlgState algorithm clock fuel w. split; [reflexivity|]. split.
  - intros n rest dataPoints w'. apply analyze_returns.
  - intros pow strategy Hno. unfold main_run.
    rewrite (inputSizes_of_none pow fuel strategy Hno). reflexivity.
Qed.

Lemma main_analysis_needs_sizes_witness :
  main_run pow_of_integers idle_algorithm ticking_clock 1000
           (Doubling (lit 100%float) zero) initial_world
  = Done (Throw mean_of_nothing) initial_world.
Proof.
  apply (proj2 (proj2 (main_analysis_needs_sizes
                         idle_algorithm ticking_clock 1000 initial_world))).
  reflexivity.
Defined.

(** ** The size lists *)

Lemma push_below {A : Type} (a : list A) (x : A) :
  Z.of_nat (List.length a) < 2 ^ 32 - 1 -> push a x = Return (a ++ [x]).
Proof.
  intros H. unfold push. apply Z.ltb_lt in H. rewrite H. reflexivity.
Qed.

Lemma seq_snoc (start len : nat) :
  seq start (S len) = seq start len ++ [(start + len)%nat].
Proof. apply seq_S. Qed.

Section LoopCounts.
Variable pow : number -> number -> number.

Lemma powers_loop_counts (maxPower : Z) (j : nat) :
  forall (fuel : nat) (i : Z) (inputSizes : list number),
    0 <= maxPower <= 2 ^ 32 - 1 -> 1 <= i ->
    i + Z.of_nat j = maxPower + 1 -> (j <= fuel)%nat ->
    Z.of_nat (List.length inputSizes) = i - 1 ->
    powers_loop pow fuel i (of_Z maxPower) inputSizes
    = Some (Return
              (inputSizes
               ++ map (fun k => pow (lit 10%float) (of_Z (i + Z.of_nat k)))
                      (seq 0 j))).
Proof.
  induction j as [|j IH]; intros fuel i inputSizes Hmax Hi Hj Hfuel Hlen.
  - assert (Hcond : (of_Z i <=? of_Z maxPower)%js = false).
    { rewrite leb_of_Z by lia. apply Z.leb_gt. lia. }
    destruct fuel; simpl; rewrite Hcond, app_nil_r; reflexivity.
  - destruct fuel as [|fuel]; [lia|].
    assert (Hcond : (of_Z i <=? of_Z maxPower)%js = true).
    { rewrite leb_of_Z by lia. apply Z.leb_le. lia. }
    cbn [powers_loop]. rewrite Hcond, push_below by lia.
    rewrite IH; try lia.
    + rewrite <- app_assoc. do 3 f_equal. cbn [app seq map].
      rewrite <- seq_shift, map_map. f_equal.
      * replace (i + Z.of_nat 0) with i by (simpl; lia). reflexivity.
      * apply map_ext. intros k.
        replace (i + 1 + Z.of_nat k) with (i + Z.of_nat (S k)) by lia.
        reflexivity.
    + rewrite length_app. simpl. lia.
Qed.

End LoopCounts.

Lemma doubling_loop_counts (steps : Z) (j : nat) :
  forall (fuel : nat) (i : Z) (current : number) (inputSizes : list number),
    0 <= steps <= 2 ^ 32 - 1 -> 0 <= i ->
    i + Z.of_nat j = steps -> (j <= fuel)%nat ->
    Z.of_nat (List.length inputSizes) = i ->
    doubling_loop fuel i (of_Z steps) current inputSizes
    = Some (Return
              (inputSizes
               ++ map (fun k => Nat.iter k (fun c => (c * lit 2%float)%js)
                                         current)
                      (seq 0 j))).
Proof.
  induction j as [|j IH];
    intros fuel i current inputSizes Hmax Hi Hj Hfuel Hlen.
  - assert (Hcond : (of_Z i <? of_Z steps)%js = false).
    { rewrite ltb_of_Z by lia. apply Z.ltb_ge. lia. }
    destruct fuel; simpl; rewrite Hcond, app_nil_r; reflexivity.
  - destruct fuel as [|fuel]; [lia|].
    assert (Hcond : (of_Z i <? of_Z steps)%js = true).
    { rewrite ltb_of_Z by lia. apply Z.ltb_lt. lia. }
    cbn [doubling_loop]. rewrite Hcond, push_below by lia.
    rewrite IH; try lia.
    + rewrite <- app_assoc. do 3 f_equal. cbn [app seq map].
      rewrite <- seq_shift, map_map. f_equal.
      apply map_ext. intros k. rewrite Nat.iter_succ_r. reflexivity.
    + rewrite length_app. simpl. lia.
Qed.

Lemma linear_loop_counts (startSize stepSize : number) (count : Z) (j : nat) :
  forall (fuel : nat) (i : Z) (inputSizes : list number),
    0 <= count <= 2 ^ 32 - 1 -> 0 <= i ->
    i + Z.of_nat j = count -> (j <= fuel)%nat ->
    Z.of_nat (List.length inputSizes) = i ->
    linear_loop fuel i startSize stepSize (of_Z count) inputSizes
    = Some (Return
              (inputSizes
               ++ map (fun k => (startSize
                                 + of_Z (i + Z.of_nat k) * stepSize)%js)
                      (seq 0 j))).
Proof.
  induction j as [|j IH]; intros fuel i inputSizes Hmax Hi Hj Hfuel Hlen.
  - assert (Hcond : (of_Z i <? of_Z count)%js = false).
    { rewrite ltb_of_Z by lia. apply Z.ltb_ge. lia. }
    destruct fuel; simpl; rewrite Hcond, app_nil_r; reflexivity.
  - destruct fuel as [|fuel]; [lia|].
    assert (Hcond : (of_Z i <? of_Z count)%js = true).
    { rewrite ltb_of_Z by lia. apply Z.ltb_lt. lia. }
    cbn [linear_loop]. rewrite Hcond, push_below by lia.
    rewrite IH; try lia.
    + rewrite <- app_assoc. do 3 f_equal. cbn [app seq map].
      rewrite <- seq_shift, map_map. f_equal.
      * replace (i + Z.of_nat 0) with i by (simpl; lia). reflexivity.
      * apply map_ext. intros k.
        replace (i + 1 + Z.of_nat k) with (i + Z.of_nat (S k)) by lia.
        reflexivity.
    + rewrite length_app. simpl. lia.
Qed.

(** X11: each strategy of [main] yields as many sizes as it is asked for, for
    a count from 0 to [2^32 - 1]: the powers [10 ** 1], ..., [10 **
    maxPower]; the start size doubled 0, 1, ..., [steps - 1] times; and
    [startSize + i * stepSize] for [i] from 0 to [count - 1]. *)
Theorem strategies_yield_the_count :
  forall (pow : number -> number -> number) (fuel : nat) (count : Z),
    0 <= count <= 2 ^ 32 - 1 -> (Z.to_nat count <= fuel)%nat ->
    inputSizes_of pow fuel (PowersOf10 (of_Z count))
    = Some (Return
              (map (fun k => pow (lit 10%float) (of_Z (1 + Z.of_nat k)))
                   (seq 0 (Z.to_nat count))))
    /\ (forall startSize,
           inputSizes_of pow fuel (Doubling startSize (of_Z count))
           = Some (Return
                     (map (fun k => Nat.iter k (fun c => (c * lit 2%float)%js)
                                             startSize)
                          (seq 0 (Z.to_nat count)))))
    /\ (forall startSize stepSize,
           inputSizes_of pow fuel (LinearSteps startSize stepSize (of_Z count))
           = Some (Return
                     (map (fun k => (startSize
                                     + of_Z (Z.of_nat k) * stepSize)%js)
                          (seq 0 (Z.to_nat count))))).
Proof.
  intros pow fuel count Hcount Hfuel. unfold inputSizes_of. split; [|split].
  - rewrite (@powers_loop_counts pow count (Z.to_nat count)); try lia.
    + reflexivity.
    + reflexivity.
  - intros startSize.
    rewrite (@doubling_loop_counts count (Z.to_nat count)); try lia.
    + reflexivity.
    + reflexivity.
  - intros startSize stepSize.
    rewrite (@linear_loop_counts startSize stepSize count (Z.to_nat count));
      try lia.
    + reflexivity.
    + reflexivity.
Qed.

Lemma strategies_yield_the_count_witness :
  inputSizes_of pow_of_integers 10 (Doubling (lit 100%float) (of_Z 3))
  = Some (Return
            (map (fun k => Nat.iter k (fun c => (c * lit 2%float)%js)
                                    (lit 100%float))
                 (seq 0 (Z.to_nat 3)))).
Proof.
  destruct (@strategies_yield_the_count pow_of_integers 10%nat 3)
    as (_ & H & _); [lia | simpl; lia|].
  apply H.
Defined.

(** *** A step of zero *)

Lemma add_zero_ltb (i z bound : number) :
  is_zero i = true -> is_zero z = true ->
  is_zero (i + z)%js = true
  /\ ((i + z)%js <? bound)%js = (i <? bound)%js.
Proof.
  destruct i as [si| | |]; try discriminate.
  destruct z as [sz| | |]; try discriminate. intros _ _.
  destruct si, sz; split; reflexivity.
Qed.

Lemma add_zero_leb (i z bound : number) :
  is_zero z = true -> ((i + z)%js <=? bound)%js = (i <=? bound)%js.
Proof.
  destruct z as [sz| | |]; try discriminate. intros _.
  destruct i as [si|si| |si mi ei]; try reflexivity.
  destruct si, sz; reflexivity.
Qed.

Section ZeroStep.
Variable pow : number -> number -> number.

Lemma testSuite_loop_never_returns (zeros steps : option number) :
  is_zero (ToNumber_answer steps) = true ->
  forall (fuel : nat) (i : number) (suite suite' : list number),
    is_zero i = true ->
    (i <? ToNumber_answer zeros + lit 1%float)%js = true ->
    testSuite_loop pow fuel i zeros steps suite <> Some (Return suite').
Proof.
  intros Hsteps.
  induction fuel as [|fuel IH]; intros i suite suite' Hi Hcond;
    cbn [testSuite_loop]; rewrite Hcond; [discriminate|].
  destruct (push suite (pow (lit 10%float) i)) as [s1|e]; [|discriminate].
  destruct (add_zero_ltb i (ToNumber_answer steps)
                         (ToNumber_answer zeros + lit 1%float)%js Hi Hsteps)
    as [Hz Hlt].
  apply IH; [exact Hz|]. rewrite Hlt. exact Hcond.
Qed.

End ZeroStep.

(** X12: [testSuite] never returns a suite when the step is 0, which is also
    what an empty answer to the prompt for the step gives ([null] counts
    as 0), as long as [zeros + 1] is positive: the counter stays at 0, and
    the loop goes on until the array is full. *)
Theorem testSuite_with_zero_step :
  forall (pow : number -> number -> number) (fuel : nat)
         (zeros steps : option number) (suite : list number),
    is_zero (ToNumber_answer steps) = true ->
    (zero <? ToNumber_answer zeros + lit 1%float)%js = true ->
    testSuite pow fuel zeros steps <> Some (Return suite).
Proof.
  intros pow fuel zeros steps suite Hsteps Hzeros. unfold testSuite.
  apply testSuite_loop_never_returns;
    [exact Hsteps | reflexivity | exact Hzeros].
Qed.

Lemma testSuite_with_zero_step_witness :
  testSuite pow_of_integers 1000 (Some (lit 3%float)) None
  <> Some (Return [lit 1%float; lit 10%float; lit 100%float; lit 1000%float]).
Proof.
  apply testSuite_with_zero_step; reflexivity.
Defined.

Lemma linear_range_never_returns (linearEnd linearStep : number) :
  is_zero linearStep = true ->
  forall (fuel : nat) (i : number) (inputSizes inputSizes' : list number),
    (i <=? linearEnd)%js = true ->
    linear_range fuel i linearEnd linearStep inputSizes
    <> Some (Return inputSizes').
Proof.
  intros Hstep.
  induction fuel as [|fuel IH]; intros i inputSizes inputSizes' Hcond;
    cbn [linear_range]; rewrite Hcond; [discriminate|].
  destruct (push inputSizes i) as [s1|e]; [|discriminate].
  apply IH. rewrite add_zero_leb by exact Hstep. exact Hcond.
Qed.

(** X13: the linear strategy of the web page never finishes its size list when
    the step is 0 and the start is not above the end: the counter stays
    where it is, and the loop goes on until the array is full. *)
Theorem linear_range_with_zero_step :
  forall (fuel : nat) (linearStart linearEnd linearStep : number)
         (inputSizes : list number),
    is_zero linearStep = true ->
    (linearStart <=? linearEnd)%js = true ->
    linear_range fuel linearStart linearEnd linearStep []
    <> Some (Return inputSizes).
Proof.
  intros fuel linearStart linearEnd linearStep inputSizes Hstep Hcond.
  apply linear_range_never_returns; assumption.
Qed.

Lemma linear_range_with_zero_step_witness :
  linear_range 1000 (lit 100%float) (lit 1000%float) zero []
  <> Some (Return [lit 100%float]).
Proof.
  apply linear_range_with_zero_step; reflexivity.
Defined.

(** ** The thresholds on the confidence *)

Lemma compare_eq_75 (c : number) :
  SFcompare c (lit 75%float) = Some Eq -> c = lit 75%float.
Proof.
  assert (H75 : lit 75%float
                = S754_finite false 5277655813324800 (-46))
    by (vm_compute; reflexivity).
  rewrite H75. destruct c as [s|s| |s m e]; unfold SFcompare.
  - discriminate.
  - destruct s; discriminate.
  - discriminate.
  - destruct s; [discriminate|].
    destruct (Z.compare_spec e (-46)) as [He | He | He]; try discriminate.
    rewrite Pos.compare_cont_spec. cbn [Pos.switch_Eq].
    destruct (Pos.compare_spec m 5277655813324800) as [Hm | Hm | Hm];
      try discriminate.
    intros _. subst. reflexivity.
Qed.

(** X14: the callers draw the line between low and sufficient confidence at
    different places: the warning of [main], the banner of the graph and
    the web page disagree exactly at the confidence 75, where [main]
    warns of low confidence while the graph has no banner and the web page
    shows the result.  For a confidence that is NaN there is neither a
    warning nor a banner. *)
Theorem low_confidence_thresholds (confidence : number) :
  (console_warns confidence = true /\ banner_drawn confidence = false
   <-> confidence = lit 75%float)
  /\ (is_nan confidence = false ->
      bigO_shown confidence = negb (banner_drawn confidence))
  /\ (is_nan confidence = true ->
      console_warns confidence = false /\ banner_drawn confidence = false
      /\ bigO_shown confidence = false).
Proof.
  unfold console_warns, banner_drawn, bigO_shown, leb, ltb, geb, SFleb, SFltb.
  split; [|split].
  - split.
    + intros [Hle Hlt]. apply compare_eq_75.
      destruct (SFcompare confidence (lit 75%float)) as [[| |]|];
        try discriminate; reflexivity.
    + intros ->. vm_compute. split; reflexivity.
  - assert (H75 : lit 75%float
                  = S754_finite false 5277655813324800 (-46))
      by (vm_compute; reflexivity).
    rewrite H75. intros Hnan.
    destruct confidence as [s|s| |s m e]; try discriminate Hnan;
      try (destruct s; reflexivity).
    unfold SFcompare. destruct s; [reflexivity|].
    rewrite (Z.compare_antisym e (-46)).
    destruct (e ?= -46); cbn [CompOpp]; try reflexivity.
    rewrite !Pos.compare_cont_spec. cbn [Pos.switch_Eq].
    rewrite (Pos.compare_antisym m 5277655813324800).
    destruct (m ?= 5277655813324800)%positive; reflexivity.
  - destruct confidence; try discriminate. intros _. repeat split.
Qed.

Lemma low_confidence_thresholds_witness :
  bigO_shown (lit 80%float) = negb (banner_drawn (lit 80%float)).
Proof.
  apply (proj1 (proj2 (low_confidence_thresholds (lit 80%float)))).
  reflexivity.
Defined.

(** * The first version of the engine *)

Section FirstVersionFacts.
Variable AlgState : Type.
Variable algorithm :
  AlgState -> list number -> AlgState * list number * option JsError.
Variable clock : nat -> number.

Lemma first_measure_emits (inputSizes : list number)
      (dataPoints : list number) (n : number) :
  In n inputSizes ->
  emits (on_indexed inputSizes)
        (FirstVersion.measure_size algorithm clock inputSizes dataPoints n)
        (fun _ => True).
Proof.
  intros Hn. unfold FirstVersion.measure_size.
  eapply emits_bind
    with (Q := fun array =>
                 generateInputArray
                   (ToNumber_undefined (element_at inputSizes n))
                 = Return array).
  { apply emits_lift. intros a Ha. exact Ha. }
  intros array Harray.
  eapply emits_bind with (Q := fun _ => True).
  { apply emits_now; intros; exact I. }
  intros start _.
  eapply emits_bind with (Q := fun _ => True).
  { apply emits_call.
    - intros thrown. exists n. split; assumption.
    - intros; exact I. }
  intros _ _.
  eapply emits_bind with (Q := fun _ => True).
  { apply emits_now; intros; exact I. }
  intros end_ _. apply emits_ret. exact I.
Qed.

Lemma first_measure_appends (inputSizes : list number)
      (dataPoints durations : list number) (n : number)
      (w w' : World AlgState) :
  FirstVersion.measure_size algorithm clock inputSizes dataPoints n w
  = Done (Return durations) w' ->
  List.length durations = S (List.length dataPoints).
Proof.
  unfold FirstVersion.measure_size. unfold mbind at 1, lift.
  destruct (generateInputArray _) as [array|e]; [|discriminate].
  unfold mbind at 1, now. rewrite mbind_call. cbn [alg_state].
  destruct (algorithm (alg_state w) array) as [[s' array'] [e|]];
    [discriminate|].
  unfold mbind, ret. intros H. inversion H.
  rewrite length_app. simpl. lia.
Qed.

Lemma first_for_of_length (inputSizes items : list number) :
  forall (acc durations : list number) (w w' : World AlgState),
    for_of (FirstVersion.measure_size algorithm clock inputSizes) items acc w
    = Done (Return durations) w' ->
    List.length durations = (List.length acc + List.length items)%nat.
Proof.
  induction items as [|n items IH]; intros acc durations w w'; simpl.
  - unfold ret. intros H. inversion H. lia.
  - unfold mbind.
    destruct (FirstVersion.measure_size algorithm clock inputSizes acc n w)
      as [[acc'|e] w1|w1] eqn:Hm; try discriminate.
    intros H. apply IH in H. apply first_measure_appends in Hm. lia.
Qed.

End FirstVersionFacts.

(** X15: the first version of the engine does not measure the sizes it is
    given: for the size [n] it invokes the algorithm on the array
    generated for [inputSizes\[n\]].  When no size is an index of the size
    list, as with the sizes 10, 100 and 1000, every invocation is on the
    empty array.  A run that returns gives one duration for each size. *)
Theorem first_version_measures_by_index :
  forall (AlgState : Type) algorithm clock (inputSizes : list number)
         (w : World AlgState),
    let o := FirstVersion.runAnalysis algorithm clock inputSizes w in
    exists evs,
      trace (world_of o) = evs ++ trace w
      /\ (forall arg thrown,
             In (EvCall arg thrown) evs ->
             exists n,
               In n inputSizes
               /\ generateInputArray
                    (ToNumber_undefined (element_at inputSizes n))
                  = Return arg)
      /\ ((forall n, In n inputSizes -> element_at inputSizes n = None) ->
          forall arg thrown, In (EvCall arg thrown) evs -> arg = [])
      /\ (forall durations w',
             o = Done (Return durations) w' ->
             List.length durations = List.length inputSizes).
Proof.
  intros AlgState algorithm clock inputSizes w o.
  assert (Hemits : emits (on_indexed inputSizes)
                         (FirstVersion.runAnalysis algorithm clock inputSizes)
                         (fun _ => True)).
  { unfold FirstVersion.runAnalysis. apply emits_for_of; [|exact I].
    intros st n Hn _. apply first_measure_emits, Hn. }
  destruct (Hemits w) as [(evs & Ht & Hall) _]. fold o in Ht.
  rewrite Forall_forall in Hall.
  assert (Hargs : forall arg thrown,
             In (EvCall arg thrown) evs ->
             exists n,
               In n inputSizes
               /\ generateInputArray
                    (ToNumber_undefined (element_at inputSizes n))
                  = Return arg).
  { intros arg thrown Hin. apply (Hall _ Hin). }
  exists evs. split; [exact Ht|]. split; [exact Hargs|]. split.
  - intros Hnone arg thrown Hin.
    destruct (Hargs arg thrown Hin) as (n & Hn & Hgen).
    rewrite (Hnone n Hn) in Hgen. inversion Hgen. reflexivity.
  - intros durations w' Ho. subst o.
    apply first_for_of_length in Ho. simpl in Ho. exact Ho.
Qed.

Lemma first_version_measures_by_index_witness :
  let sizes := [lit 10%float; lit 100%float; lit 1000%float] in
  let o := FirstVersion.runAnalysis idle_algorithm ticking_clock sizes
                                    initial_world in
  exists evs,
    trace (world_of o) = evs ++ []
    /\ forall arg thrown, In (EvCall arg thrown) evs -> arg = [].
Proof.
  intros sizes o.
  destruct (@first_version_measures_by_index
              unit idle_algorithm ticking_clock sizes initial_world)
    as (evs & Ht & _ & Hempty & _).
  exists evs. split; [exact Ht|].
  apply Hempty. intros n [<- | [<- | [<- | []]]]; vm_compute; reflexivity.
Defined.

(** * Sizes that are no array length *)

Section ArrayLengths.
Variable AlgState : Type.
Variable algorithm :
  AlgState -> list number -> AlgState * list number * option JsError.
Variable clock : nat -> number.

Lemma generateInputArray_length (n : number) (array : list number) :
  generateInputArray n = Return array -> ToLength n <= 2 ^ 32 - 1.
Proof.
  unfold generateInputArray.
  destruct (ToLength n >? 2 ^ 32 - 1) eqn:H; [discriminate|].
  intros _. rewrite Z.gtb_ltb in H. apply Z.ltb_ge in H. exact H.
Qed.

Lemma measure_size_needs_array (fuel : nat) (iterations : number)
      (dataPoints pts : list DataPoint.t) (n : number)
      (w w' : World AlgState) :
  measure_size algorithm clock fuel iterations dataPoints n w
  = Done (Return pts) w' ->
  ToLength n <= 2 ^ 32 - 1.
Proof.
  unfold measure_size, calibrate, lift. unfold mbind at 1 2.
  destruct (generateInputArray n) as [array|e] eqn:Hgen; [|discriminate].
  intros _. apply (generateInputArray_length n Hgen).
Qed.

Lemma for_of_needs_arrays (fuel : nat) (iterations : number)
      (sizes : list number) :
  forall (acc pts : list DataPoint.t) (w w' : World AlgState),
    for_of (measure_size algorithm clock fuel iterations) sizes acc w
    = Done (Return pts) w' ->
    forall n, In n sizes -> ToLength n <= 2 ^ 32 - 1.
Proof.
  induction sizes as [|n0 sizes IH]; intros acc pts w w' Hrun n Hn;
    [destruct Hn|].
  cbn [for_of] in Hrun. unfold mbind in Hrun.
  destruct (measure_size algorithm clock fuel iterations acc n0 w)
    as [[acc'|e] w1|w1] eqn:Hm; try discriminate.
  destruct Hn as [<- | Hn].
  - apply (measure_size_needs_array _ _ _ _ _ Hm).
  - apply (IH _ _ _ _ Hrun n Hn).
Qed.

End ArrayLengths.

(** X17: the engine returns data only when every requested size is an
    array length, at most [2^32 - 1] once truncated.  A first size that
    is none, such as [2^32] or [Infinity], makes the run throw the
    RangeError of the array constructor at once, before the algorithm is
    invoked and before the clock is read. *)
Theorem sizes_must_be_array_lengths :
  forall (AlgState : Type) algorithm clock (fuel : nat)
         (iterations : number) (w : World AlgState),
    (forall inputSizes dataPoints w',
        runAnalysis algorithm clock fuel inputSizes iterations w
        = Done (Return dataPoints) w' ->
        forall n, In n inputSizes -> ToLength n <= 2 ^ 32 - 1)
    /\ (forall n rest,
           2 ^ 32 - 1 < ToLength n ->
           runAnalysis algorithm clock fuel (n :: rest) iterations w
           = Done (Throw RangeError_length) w)
    /\ ToLength Infinity = 2 ^ 53 - 1
    /\ ToLength (of_Z (2 ^ 32)) = 2 ^ 32.
Proof.
  intros AlgState algorithm clock fuel iterations w. split; [|split].
  - intros inputSizes dataPoints w' Hrun.
    unfold runAnalysis, mbind in Hrun.
    destruct (warmup algorithm fuel inputSizes w) as [[[]|e] w1|w1];
      try discriminate.
    apply (for_of_needs_arrays _ _ _ _ _ _ _ Hrun).
  - intros n rest Hn. unfold runAnalysis, warmup, generateInputArray.
    apply Z.gtb_lt in Hn. rewrite Hn. reflexivity.
  - split; [reflexivity | apply ToLength_of_Z; lia].
Qed.

Lemma sizes_must_be_array_lengths_witness :
  runAnalysis idle_algorithm ticking_clock 1000
              [Infinity; lit 10%float] (lit 10%float) initial_world
  = Done (Throw RangeError_length) initial_world.
Proof.
  apply (proj1 (proj2 (sizes_must_be_array_lengths
                         idle_algorithm ticking_clock 1000 (lit 10%float)
                         initial_world))).
  vm_compute. reflexivity.
Defined.

(** * The classifier on a size that is NaN *)

Lemma sub_self_not_positive (x : number) : (x - x >? zero)%js = false.
Proof.
  destruct (x - x >? zero)%js eqn:H; [|reflexivity].
  pose proof (sub_antisym x x H) as H'. congruence.
Qed.

Lemma the_models_no_swap (c : number) (x y : Model.t) :
  In x (the_models c NaN NaN NaN NaN) ->
  In y (the_models c NaN NaN NaN NaN) ->
  (by_rmse x y >? zero)%js = false.
Proof.
  unfold the_models, by_rmse. simpl.
  intros [<- | [<- | [<- | [<- | [<- | []]]]]]
         [<- | [<- | [<- | [<- | [<- | []]]]]];
    cbn [Model.rmse];
    rewrite ?sub_nan_l, ?sub_nan_r; try reflexivity.
  apply sub_self_not_positive.
Qed.

Lemma the_fits_no_swap (c : number) (x y : ModelFit.t) :
  In x (map fit_of (the_models c NaN NaN NaN NaN)) ->
  In y (map fit_of (the_models c NaN NaN NaN NaN)) ->
  (by_fit_rmse x y >? zero)%js = false.
Proof.
  unfold the_models, by_fit_rmse, fit_of. simpl.
  intros [<- | [<- | [<- | [<- | [<- | []]]]]]
         [<- | [<- | [<- | [<- | [<- | []]]]]];
    cbn [ModelFit.rmse];
    rewrite ?sub_nan_l, ?sub_nan_r; try reflexivity.
  apply sub_self_not_positive.
Qed.

(** X18: a size that is NaN spoils the four regressions and leaves the
    constant model alone: the classifier answers Constant, and lists the
    constant model with its RMSE before the four others with the RMSE NaN;
    its confidence is 100 when the RMSE of the constant model is below the
    noise floor and NaN otherwise. *)
Theorem nan_size_gives_constant (dataPoints : list DataPoint.t) :
  (exists d, In d dataPoints /\ DataPoint.n d = NaN) ->
  exists meanTime confidence,
    ss.mean (map DataPoint.time dataPoints) = Return meanTime
    /\ determineComplexity dataPoints
       = Return (AnalysisResult.mk
                   "O(1) - Constant" confidence
                   (map fit_of
                        (the_models
                           (Model.rmse (constant_model dataPoints meanTime))
                           NaN NaN NaN NaN)))
    /\ confidence
       = if (Model.rmse (constant_model dataPoints meanTime) <? noiseFloor)%js
         then lit 100%float else NaN.
Proof.
  intros (d & Hin & Hd).
  assert (Hne : dataPoints <> []) by (intros ->; destruct Hin).
  destruct (determineComplexity_unfold Hne)
    as (mt & tv & mx & first & rest & H).
  cbn zeta in H. destruct H as (Hmean & _ & _ & Hsort & H).
  exists mt.
  exists (if (Model.rmse (constant_model dataPoints mt) <? noiseFloor)%js
          then lit 100%float else NaN).
  split; [exact Hmean|]. split; [|reflexivity].
  set (c := Model.rmse (constant_model dataPoints mt)).
  assert (Hfits : fit_models dataPoints mt = the_models c NaN NaN NaN NaN).
  { unfold fit_models. cbn zeta.
    rewrite (@getRegressionRMSE_nan dataPoints (fun n => n) d Hin)
      by (right; exact Hd).
    rewrite (@getRegressionRMSE_nan dataPoints (fun n => square n) d Hin)
      by (right; rewrite Hd; reflexivity).
    rewrite (@getRegressionRMSE_nan dataPoints (fun n => Math_log n) d Hin)
      by (right; rewrite Hd; reflexivity).
    rewrite (@getRegressionRMSE_nan
               dataPoints (fun n => (n * Math_log n)%js) d Hin)
      by (right; rewrite Hd; reflexivity).
    reflexivity. }
  assert (Hconst : constant_model dataPoints mt
                   = Model.mk "O(1) - Constant" c 1) by reflexivity.
  rewrite Hfits in Hsort, H. rewrite Hconst in H. clear Hfits.
  set (M := the_models c NaN NaN NaN NaN) in *.
  assert (Hid : Array_sort by_rmse M = M)
    by (apply Array_sort_no_swap, the_models_no_swap).
  rewrite Hid in Hsort, H.
  assert (Hfirst : first = Model.mk "O(1) - Constant" c 1 /\ rest = tl M).
  { subst M. unfold the_models in Hsort. inversion Hsort.
    split; reflexivity. }
  destruct Hfirst as [-> ->]. clear Hsort.
  assert (Hscan : occam_scan M mt (Model.mk "O(1) - Constant" c 1) (tl M)
                  = Model.mk "O(1) - Constant" c 1).
  { apply occam_scan_constant; try reflexivity.
    intros m Hm. apply (@the_models_rank c NaN NaN NaN NaN).
    right. exact Hm. }
  rewrite Hscan in H. clear Hscan.
  assert (Hbest : (if low_and_flat mx tv mt
                   then Model.mk "O(1) - Constant" c 1
                   else Model.mk "O(1) - Constant" c 1)
                  = Model.mk "O(1) - Constant" c 1)
    by (destruct (low_and_flat mx tv mt); reflexivity).
  rewrite Hbest in H. clear Hbest.
  assert (Hres : Array_sort by_fit_rmse (map fit_of M) = map fit_of M)
    by (apply Array_sort_no_swap, the_fits_no_swap).
  rewrite Hres in H. rewrite H. do 2 f_equal.
  unfold confidence_of. cbn [Model.rmse]. rewrite Hid.
  destruct (c <? noiseFloor)%js; [reflexivity|].
  unfold confidence_blend. cbn zeta. subst M.
  cbn [the_models same_object Model.complexity Z.eqb Pos.eqb nth_error
       Model.rmse].
  rewrite sub_nan_l, div_nan_l.
  change (Math_min (lit 1%float) NaN) with NaN.
  rewrite mul_nan_l, add_nan_r, mul_nan_l. reflexivity.
Qed.

Lemma nan_size_gives_constant_witness :
  exists meanTime confidence,
    ss.mean [lit 1%float; lit 2%float] = Return meanTime
    /\ determineComplexity [DataPoint.mk NaN (lit 1%float); point 10 2]
       = Return (AnalysisResult.mk
                   "O(1) - Constant" confidence
                   (map fit_of
                        (the_models
                           (Model.rmse
                              (constant_model
                                 [DataPoint.mk NaN (lit 1%float); point 10 2]
                                 meanTime))
                           NaN NaN NaN NaN))).
Proof.
  destruct (nan_size_gives_constant
              [DataPoint.mk NaN (lit 1%float); point 10 2])
    as (mt & conf & Hmean & Hr & _).
  - exists (DataPoint.mk NaN (lit 1%float)).
    split; [left; reflexivity | reflexivity].
  - exists mt, conf. split; [exact Hmean | exact Hr].
Defined.

(** * The confidence as an integer *)

Lemma shr_exponent (mrs : shr_record) (e n : Z) :
  0 <= n -> e <= snd (shr mrs e n).
Proof. intros Hn. destruct n; simpl; lia. Qed.

Lemma binary_round_aux_integer (s : bool) (m e : Z) (l : location) :
  0 <= e ->
  let r := binary_round_aux prec emax s m e l in
  is_finite r = true -> is_integer r = true.
Proof.
  intros He r. subst r. unfold binary_round_aux, shr_fexp.
  set (n1 := fexp prec emax (Zdigits2 m + e) - e).
  destruct (shr (shr_record_of_loc m l) e n1) as [mrs' e'] eqn:H1.
  set (m2 := round_nearest_even (shr_m mrs') (loc_of_shr_record mrs')).
  set (n2 := fexp prec emax (Zdigits2 m2 + e') - e').
  destruct (shr (shr_record_of_loc m2 loc_Exact) e' n2) as [mrs'' e'']
    eqn:H2.
  assert (He' : e <= e').
  { replace e' with (snd (shr (shr_record_of_loc m l) e n1))
      by (rewrite H1; reflexivity).
    unfold shr. destruct n1; simpl; lia. }
  assert (He'' : e' <= e'').
  { replace e'' with (snd (shr (shr_record_of_loc m2 loc_Exact) e' n2))
      by (rewrite H2; reflexivity).
    unfold shr. destruct n2; simpl; lia. }
  destruct (shr_m mrs'') as [|p|p]; try reflexivity; try discriminate.
  destruct (e'' <=? emax - prec); [|discriminate].
  intros _. cbn [is_integer].
  assert (H0 : (0 <=? e'') = true) by (apply Z.leb_le; lia).
  rewrite H0. reflexivity.
Qed.

(** An integer, rounded to a number, is an integer. *)
Lemma binary_round_integer (s : bool) (p : positive) :
  let r := binary_round prec emax s p 0 in
  is_finite r = true -> is_integer r = true.
Proof.
  intros r. subst r.
  destruct (Z_lt_ge_dec (Z.pos p) (2 ^ 53)) as [Hsmall | Hlarge].
  - destruct (@binary_round_small s p Hsmall) as (mz & -> & Hval & Hd).
    intros _. cbn [is_integer].
    destruct (0 <=? Z.pos (digits2_pos p) - 53) eqn:He; [reflexivity|].
    cbn [orb]. apply Z.eqb_eq. rewrite Hval.
    replace (- (Z.pos (digits2_pos p) - 53))
      with (53 - Z.pos (digits2_pos p)) by lia.
    apply Z_mod_mult.
  - unfold binary_round.
    assert (Hd : 53 < Z.pos (digits2_pos p)).
    { destruct (digits_bounds p) as [_ Hhi].
      destruct (Z_lt_le_dec 53 (Z.pos (digits2_pos p))) as [H | H];
        [exact H|].
      assert (Hpow : 2 ^ Z.pos (digits2_pos p) <= 2 ^ 53)
        by (apply Z.pow_le_mono_r; lia).
      lia. }
    assert (Hal : shl_align p 0
                            (fexp prec emax (Z.pos (digits2_pos p) + 0))
                  = (p, 0)).
    { unfold shl_align, fexp, SpecFloat.emin, prec, emax.
      destruct (Z.max (Z.pos (digits2_pos p) + 0 - 53) (3 - 1024 - 53) - 0)
        eqn:Hk; try reflexivity. lia. }
    rewrite Hal. apply binary_round_aux_integer. lia.
Qed.

Lemma Math_round_integer (x : number) :
  is_finite (Math_round x) = true -> is_integer (Math_round x) = true.
Proof.
  destruct x as [s|s| |s m e]; try (intros H; (reflexivity || discriminate H)).
  unfold Math_round. destruct (0 <=? e) eqn:He.
  - intros _. cbn [is_integer]. rewrite He. reflexivity.
  - unfold binary_normalize.
    destruct (round_half_up_Z s m e) as [|p|p].
    + reflexivity.
    + apply binary_round_integer.
    + apply binary_round_integer.
Qed.

(** X19: the confidence of a result is never a fraction: it is an
    integer whenever it is finite (it can be NaN, and it can be
    negative). *)
Theorem confidence_is_an_integer (dataPoints : list DataPoint.t)
        (r : AnalysisResult.t) :
  determineComplexity dataPoints = Return r ->
  is_finite (AnalysisResult.confidence r) = true ->
  is_integer (AnalysisResult.confidence r) = true.
Proof.
  intros Hr.
  assert (Hne : dataPoints <> []) by (intros ->; discriminate Hr).
  destruct (determineComplexity_unfold Hne)
    as (mt & tv & mx & first & rest & H).
  cbn zeta in H. destruct H as (_ & _ & _ & _ & H).
  rewrite H in Hr. inversion Hr; subst r.
  cbn [AnalysisResult.confidence]. apply Math_round_integer.
Qed.

Lemma confidence_is_an_integer_witness :
  exists r,
    determineComplexity noisy_linear_series = Return r
    /\ is_integer (AnalysisResult.confidence r) = true.
Proof.
  eexists. split; [vm_compute; reflexivity|].
  apply (confidence_is_an_integer noisy_linear_series);
    [vm_compute; reflexivity | reflexivity].
Defined.

(** * The palindrome tests *)

Module PalindromeFacts.
Import Palindrome.

Lemma value_cons (d : Z) (ds : list Z) : value (d :: ds) = d + 10 * value ds.
Proof. reflexivity. Qed.

Lemma value_bounds (ds : list Z) :
  Forall is_digit ds -> 0 <= value ds < 10 ^ Z.of_nat (List.length ds).
Proof.
  induction 1 as [|d ds Hd _ IH]; [simpl; lia|].
  rewrite value_cons. cbn [List.length]. rewrite Nat2Z.inj_succ.
  rewrite Z.pow_succ_r by lia. unfold is_digit in Hd. lia.
Qed.

Lemma value_lower (ds : list Z) :
  Forall is_digit ds -> ds <> [] -> 0 < last ds 0 ->
  10 ^ (Z.of_nat (List.length ds) - 1) <= value ds.
Proof.
  induction 1 as [|d ds Hd Hds IH]; intros Hne Hlast; [congruence|].
  rewrite value_cons. cbn [List.length]. rewrite Nat2Z.inj_succ.
  replace (Z.succ (Z.of_nat (List.length ds)) - 1)
    with (Z.of_nat (List.length ds)) by lia.
  unfold is_digit in Hd.
  destruct ds as [|d' ds'].
  - simpl in Hlast |- *. lia.
  - assert (H : 10 ^ (Z.of_nat (List.length (d' :: ds')) - 1)
                <= value (d' :: ds')).
    { apply IH; [discriminate | exact Hlast]. }
    replace (Z.of_nat (List.length (d' :: ds')))
      with (Z.succ (Z.of_nat (List.length (d' :: ds')) - 1)) at 1 by lia.
    rewrite Z.pow_succ_r by (cbn [List.length]; lia). lia.
Qed.

Lemma value_div_mod (d : Z) (ds : list Z) :
  is_digit d ->
  value (d :: ds) / 10 = value ds /\ value (d :: ds) mod 10 = d.
Proof.
  intros Hd. unfold is_digit in Hd. rewrite value_cons.
  replace (d + 10 * value ds) with (value ds * 10 + d) by lia. split.
  - rewrite Z.div_add_l by lia. rewrite Z.div_small by lia. lia.
  - rewrite Z.add_comm, Z_mod_plus_full. apply Z.mod_small. lia.
Qed.

Lemma value_inj (a : list Z) :
  forall b, Forall is_digit a -> Forall is_digit b ->
            List.length a = List.length b -> value a = value b -> a = b.
Proof.
  induction a as [|x a IH]; intros [|y b] Ha Hb Hlen Hval;
    try discriminate Hlen; [reflexivity|].
  inversion Ha as [|? ? Hx Ha']; inversion Hb as [|? ? Hy Hb']; subst.
  destruct (value_div_mod a Hx) as [Hdx Hmx].
  destruct (value_div_mod b Hy) as [Hdy Hmy].
  rewrite Hval in Hdx, Hmx.
  assert (x = y) by congruence. subst y. f_equal.
  apply IH; try assumption; [simpl in Hlen; lia | congruence].
Qed.

(** The digits of a number stand for it, and the highest is not 0. *)
Lemma digits_spec (fuel : nat) :
  forall x, 0 <= x < 2 ^ Z.of_nat fuel ->
            let ds := digits fuel x in
            value ds = x /\ Forall is_digit ds
            /\ (ds <> [] -> 0 < last ds 0)
            /\ (0 < x -> ds <> [] /\ hd 0 ds = x mod 10).
Proof.
  induction fuel as [|fuel IH]; intros x Hx ds; subst ds.
  - simpl in Hx |- *. assert (x = 0) by lia. subst x.
    repeat split; try constructor; try lia; congruence.
  - cbn [digits]. destruct (0 <? x) eqn:Hpos.
    + apply Z.ltb_lt in Hpos.
      rewrite Nat2Z.inj_succ, Z.pow_succ_r in Hx by lia.
      assert (Hq : 0 <= x / 10 < 2 ^ Z.of_nat fuel).
      { split; [apply Z.div_pos; lia|].
        apply Z.div_lt_upper_bound; lia. }
      destruct (IH (x / 10) Hq) as (Hval & Hdig & Hlast & Hhd).
      assert (Hm : is_digit (x mod 10)).
      { unfold is_digit. pose proof (Z.mod_pos_bound x 10). lia. }
      repeat split.
      * rewrite value_cons, Hval.
        pose proof (Z.div_mod x 10). lia.
      * constructor; assumption.
      * intros _.
        destruct (digits fuel (x / 10)) as [|d ds'] eqn:Hds.
        -- simpl. simpl in Hval.
           pose proof (Z.div_mod x 10). unfold is_digit in Hm. lia.
        -- change (last (x mod 10 :: d :: ds') 0) with (last (d :: ds') 0).
           apply Hlast. discriminate.
      * discriminate.
    + apply Z.ltb_ge in Hpos. assert (x = 0) by lia. subst x.
      repeat split; try constructor; try lia; congruence.
Qed.

Lemma app_eq_length {A : Type} (a : list A) :
  forall b c d, List.length a = List.length c ->
                a ++ b = c ++ d -> a = c /\ b = d.
Proof.
  induction a as [|x a IH]; intros b [|y c] d Hlen H;
    try discriminate Hlen; [split; [reflexivity | exact H]|].
  simpl in H. inversion H; subst.
  destruct (IH b c d) as [-> ->]; [simpl in Hlen; lia | assumption|].
  split; reflexivity.
Qed.

Lemma last_app_nonempty {A : Type} (a b : list A) (d : A) :
  b <> [] -> last (a ++ b) d = last b d.
Proof.
  intros Hb. induction a as [|x a IH]; [reflexivity|].
  simpl. destruct (a ++ b) eqn:Hab; [|exact IH].
  destruct a; [simpl in Hab; congruence | discriminate Hab].
Qed.

Lemma last_rev_hd {A : Type} (l : list A) (d : A) : last (rev l) d = hd d l.
Proof.
  destruct l as [|x l]; [reflexivity|].
  simpl. rewrite last_app_nonempty by discriminate. reflexivity.
Qed.

Lemma hd_rev_last {A : Type} (l : list A) (d : A) : hd d (rev l) = last l d.
Proof. rewrite <- (rev_involutive l) at 2. symmetry. apply last_rev_hd. Qed.

(** *** The loop of [optimized]

    [hrev] holds the digits taken so far, the latest first, and is the
    digit list of [half]; [suf] holds the digits that are left and is the
    digit list of [x]. *)
Section Loop.
Variable ds : list Z.
Hypothesis digits_ok : Forall is_digit ds.
Hypothesis lowest : ds <> [] -> 0 < hd 0 ds.
Hypothesis highest : ds <> [] -> 0 < last ds 0.

Lemma split_facts (hrev suf : list Z) :
  rev hrev ++ suf = ds ->
  Forall is_digit hrev /\ Forall is_digit suf
  /\ (hrev <> [] -> 0 < last hrev 0)
  /\ (suf <> [] -> 0 < last suf 0).
Proof.
  intros Hds. pose proof digits_ok as Hd. rewrite <- Hds in Hd.
  apply Forall_app in Hd. destruct Hd as [Hh Hs].
  apply Forall_rev in Hh. rewrite rev_involutive in Hh.
  repeat split; try assumption.
  - intros Hne. rewrite <- hd_rev_last.
    assert (Hr : rev hrev <> []).
    { intros Hr. apply (f_equal (@rev Z)) in Hr.
      rewrite rev_involutive in Hr. exact (Hne Hr). }
    assert (Hhd : hd 0 ds = hd 0 (rev hrev)).
    { rewrite <- Hds. destruct (rev hrev); [congruence | reflexivity]. }
    rewrite <- Hhd. apply lowest.
    rewrite <- Hds. destruct (rev hrev); [congruence | discriminate].
  - intros Hne. rewrite <- (last_app_nonempty (rev hrev) 0 Hne), Hds.
    apply highest. rewrite <- Hds.
    destruct suf; [congruence|]. destruct (rev hrev); discriminate.
Qed.

Lemma shorter_is_smaller (a b : list Z) :
  Forall is_digit a -> Forall is_digit b ->
  (b <> [] -> 0 < last b 0) ->
  (List.length a < List.length b)%nat -> value a < value b.
Proof.
  intros Ha Hb Hlast Hlen.
  assert (Hne : b <> []) by (intros ->; simpl in Hlen; lia).
  pose proof (value_bounds Ha) as [_ Hhi].
  pose proof (value_lower Hb Hne (Hlast Hne)) as Hlo.
  assert (Hpow : 10 ^ Z.of_nat (List.length a)
                 <= 10 ^ (Z.of_nat (List.length b) - 1))
    by (apply Z.pow_le_mono_r; lia).
  lia.
Qed.

Lemma palindrome_even (hrev suf : list Z) :
  rev hrev ++ suf = ds -> List.length hrev = List.length suf ->
  (ds = rev ds <-> suf = hrev).
Proof.
  intros Hds Hlen. rewrite <- Hds, rev_app_distr, rev_involutive. split.
  - intros H. apply app_eq_length in H.
    + destruct H as [_ H]. exact H.
    + rewrite !length_rev. exact Hlen.
  - intros ->. reflexivity.
Qed.

Lemma palindrome_odd (m : Z) (h suf : list Z) :
  rev (m :: h) ++ suf = ds -> List.length h = List.length suf ->
  (ds = rev ds <-> suf = h).
Proof.
  intros Hds Hlen. rewrite <- Hds. cbn [rev].
  rewrite <- app_assoc. cbn [app].
  rewrite rev_app_distr. cbn [rev]. rewrite rev_involutive, <- app_assoc.
  cbn [app]. split.
  - intros H. apply app_eq_length in H.
    + destruct H as [_ H]. inversion H. reflexivity.
    + rewrite !length_rev. exact Hlen.
  - intros ->. reflexivity.
Qed.

Lemma loop_step (fuel : nat) (d : Z) (suf hrev : list Z) :
  is_digit d -> Forall is_digit suf -> value (d :: suf) > value hrev ->
  optimized_loop (S fuel) (value (d :: suf)) (value hrev)
  = optimized_loop fuel (value suf) (value (d :: hrev)).
Proof.
  intros Hd Hs Hgt. cbn [optimized_loop].
  assert (Hc : (value (d :: suf) >? value hrev) = true)
    by (apply Z.gtb_lt; lia).
  rewrite Hc. destruct (value_div_mod suf Hd) as [Hdiv Hmod].
  rewrite Hdiv. f_equal. rewrite Z.rem_mod_nonneg.
  - rewrite Hmod, value_cons. lia.
  - rewrite value_cons. unfold is_digit in Hd.
    pose proof (value_bounds Hs). lia.
  - lia.
Qed.

Lemma loop_stop (fuel : nat) (x half : Z) :
  x <= half -> optimized_loop fuel x half = Some (x, half).
Proof.
  intros Hle.
  assert (Hc : (x >? half) = false) by (rewrite Z.gtb_ltb; apply Z.ltb_ge; lia).
  destruct fuel; simpl; rewrite Hc; reflexivity.
Qed.

Lemma loop_correct (suf : list Z) :
  forall (hrev : list Z) (fuel : nat),
    rev hrev ++ suf = ds ->
    (List.length hrev <= List.length suf + 1)%nat ->
    (List.length suf <= fuel)%nat ->
    exists r,
      optimized_loop fuel (value suf) (value hrev) = Some r
      /\ (verdict r = true <-> ds = rev ds).
Proof.
  induction suf as [|d suf IH]; intros hrev fuel Hds Hlen Hfuel.
  - (* nothing is left of [x] *)
    destruct (split_facts hrev [] Hds) as (Hh & _ & Hhl & _).
    pose proof (value_bounds Hh) as [Hlo _].
    exists (0, value hrev). split; [apply loop_stop; simpl; lia|].
    unfold verdict. cbn [fst snd].
    destruct hrev as [|m [|m' h]]; [| |simpl in Hlen; lia].
    + simpl. rewrite <- Hds. split; reflexivity.
    + pose proof (Forall_inv Hh) as Hm. unfold is_digit in Hm.
      simpl in Hds. rewrite <- Hds. cbn [value fold_right].
      replace ((m + 10 * 0) / 10) with 0
        by (symmetry; apply Z.div_small; lia).
      rewrite Z.eqb_refl, orb_true_r. split; reflexivity.
  - destruct (split_facts hrev (d :: suf) Hds) as (Hh & Hs & Hhl & Hsl).
    pose proof (Forall_inv Hs) as Hd.
    pose proof (Forall_inv_tail Hs) as Hs'.
    destruct (Nat.lt_trichotomy (List.length hrev) (List.length (d :: suf)))
      as [Hlt | [Heq | Hgt]].
    + (* [half] is shorter than [x]: the loop goes on *)
      assert (Hcmp : value (d :: suf) > value hrev).
      { apply Z.lt_gt, shorter_is_smaller; assumption. }
      destruct fuel as [|fuel]; [simpl in Hfuel; lia|].
      rewrite loop_step by assumption.
      apply IH.
      * cbn [rev]. rewrite <- app_assoc. exact Hds.
      * simpl in Hlt |- *. lia.
      * simpl in Hfuel. lia.
    + (* the same length: the middle of an even number of digits *)
      assert (Hne : hrev <> []) by (intros ->; discriminate Heq).
      destruct (Z_le_gt_dec (value (d :: suf)) (value hrev)) as [Hle | Hcmp].
      * exists (value (d :: suf), value hrev).
        split; [apply loop_stop, Hle|].
        unfold verdict. cbn [fst snd].
        rewrite (palindrome_even hrev (d :: suf) Hds Heq).
        destruct hrev as [|m h]; [congruence|].
        pose proof (Forall_inv Hh) as Hm.
        pose proof (Forall_inv_tail Hh) as Hh'.
        destruct (value_div_mod h Hm) as [Hdiv _]. rewrite Hdiv.
        assert (Hsmall : value h < value (d :: suf)).
        { apply shorter_is_smaller;
            solve [assumption | simpl in Heq |- *; lia]. }
        assert (H2 : (value (d :: suf) =? value h) = false)
          by (apply Z.eqb_neq; lia).
        rewrite H2, orb_false_r. rewrite Z.eqb_eq. split.
        -- intros Hv. apply value_inj; try assumption. symmetry. exact Heq.
        -- intros ->. reflexivity.
      * destruct fuel as [|fuel]; [simpl in Hfuel; lia|].
        rewrite loop_step by assumption.
        assert (Hdh : Forall is_digit (d :: hrev))
          by (constructor; assumption).
        assert (Hdhl : d :: hrev <> [] -> 0 < last (d :: hrev) 0).
        { intros _. destruct hrev as [|m h]; [congruence|].
          apply Hhl. discriminate. }
        assert (Hsmall : value suf < value (d :: hrev)).
        { apply shorter_is_smaller;
            solve [assumption | simpl in Heq |- *; lia]. }
        exists (value suf, value (d :: hrev)).
        split; [apply loop_stop; lia|].
        unfold verdict. cbn [fst snd].
        destruct (value_div_mod hrev Hd) as [Hdiv _]. rewrite Hdiv.
        assert (Hsmall' : value suf < value hrev).
        { apply shorter_is_smaller;
            solve [assumption | simpl in Heq |- *; lia]. }
        assert (H1 : (value suf =? value (d :: hrev)) = false)
          by (apply Z.eqb_neq; lia).
        assert (H2 : (value suf =? value hrev) = false)
          by (apply Z.eqb_neq; lia).
        rewrite H1, H2. cbn [orb].
        rewrite (palindrome_even hrev (d :: suf) Hds Heq).
        split; [discriminate|]. intros Hsame. rewrite Hsame in Hcmp. lia.
    + (* [half] is longer by one digit: past the middle of an odd number *)
      assert (Hlen' : List.length hrev = S (List.length (d :: suf)))
        by lia.
      destruct hrev as [|m h]; [discriminate Hlen'|].
      pose proof (Forall_inv Hh) as Hm.
        pose proof (Forall_inv_tail Hh) as Hh'.
      assert (Hsmall : value (d :: suf) < value (m :: h)).
      { apply shorter_is_smaller; solve [assumption | lia]. }
      exists (value (d :: suf), value (m :: h)).
      split; [apply loop_stop; lia|].
      unfold verdict. cbn [fst snd].
      destruct (value_div_mod h Hm) as [Hdiv _]. rewrite Hdiv.
      assert (H1 : (value (d :: suf) =? value (m :: h)) = false)
        by (apply Z.eqb_neq; lia).
      rewrite H1. cbn [orb].
      assert (Hlh : List.length h = List.length (d :: suf))
        by (simpl in Hlen' |- *; lia).
      rewrite (palindrome_odd m h (d :: suf) Hds Hlh), Z.eqb_eq. split.
      * intros Hv. apply value_inj; try assumption. symmetry. exact Hlh.
      * intros ->. reflexivity.
Qed.

End Loop.


(** *** [bruteForce] on the digits *)

Lemma reverse_of_list (l : list ascii) :
  reverse (string_of_list_ascii l) = string_of_list_ascii (rev l).
Proof.
  unfold reverse. rewrite list_ascii_of_string_of_list_ascii. reflexivity.
Qed.

Lemma string_of_list_inj (l l' : list ascii) :
  string_of_list_ascii l = string_of_list_ascii l' -> l = l'.
Proof.
  intros H. apply (f_equal list_ascii_of_string) in H.
  rewrite !list_ascii_of_string_of_list_ascii in H. exact H.
Qed.

Lemma nat_of_digit_char (d : Z) :
  is_digit d -> nat_of_ascii (digit_char d) = (48 + Z.to_nat d)%nat.
Proof.
  intros Hd. unfold is_digit in Hd. unfold digit_char.
  apply nat_ascii_embedding. lia.
Qed.

Lemma digit_char_inj (a b : Z) :
  is_digit a -> is_digit b -> digit_char a = digit_char b -> a = b.
Proof.
  intros Ha Hb H. apply (f_equal nat_of_ascii) in H.
  rewrite !nat_of_digit_char in H by assumption.
  unfold is_digit in Ha, Hb. lia.
Qed.

Lemma map_digit_char_inj (a : list Z) :
  forall b, Forall is_digit a -> Forall is_digit b ->
            map digit_char a = map digit_char b -> a = b.
Proof.
  induction a as [|x a IH]; intros [|y b] Ha Hb H; try discriminate H;
    [reflexivity|].
  simpl in H. injection H as Hxy Hab.
  f_equal.
  - apply digit_char_inj;
      [apply (Forall_inv Ha) | apply (Forall_inv Hb) | exact Hxy].
  - apply IH;
      [apply (Forall_inv_tail Ha) | apply (Forall_inv_tail Hb) | exact Hab].
Qed.

Lemma bruteForce_chars (x : Z) (l : list ascii) :
  toString x = string_of_list_ascii l ->
  (bruteForce x = true <-> l = rev l).
Proof.
  intros Hs. unfold bruteForce. rewrite Hs, reverse_of_list, String.eqb_eq.
  split; [apply string_of_list_inj | intros <-; reflexivity].
Qed.

Lemma digits_of_spec (x : Z) :
  x <> 0 ->
  let ds := digits_of x in
  value ds = Z.abs x /\ Forall is_digit ds
  /\ 0 < last ds 0 /\ ds <> [] /\ hd 0 ds = Z.abs x mod 10.
Proof.
  intros Hx ds. subst ds. unfold digits_of.
  assert (Hpos : 0 < Z.abs x) by lia.
  destruct (Z.log2_spec _ Hpos) as [_ Hhi].
  destruct (@digits_spec (S (Z.to_nat (Z.log2 (Z.abs x)))) (Z.abs x))
    as (Hval & Hdig & Hlast & Hhd).
  { rewrite Nat2Z.inj_succ, Z2Nat.id by apply Z.log2_nonneg. lia. }
  destruct (Hhd Hpos) as [Hne Hhd'].
  repeat split; try assumption. apply Hlast, Hne.
Qed.

Lemma digits_length (fuel : nat) :
  forall x, (List.length (digits fuel x) <= fuel)%nat.
Proof.
  induction fuel as [|fuel IH]; intros x; simpl; [lia|].
  destruct (0 <? x); simpl; [|lia]. specialize (IH (x / 10)). lia.
Qed.

Lemma bruteForce_positive (x : Z) :
  0 < x -> (bruteForce x = true <-> digits_of x = rev (digits_of x)).
Proof.
  intros Hx.
  destruct (@digits_of_spec x) as (_ & Hdig & _); [lia|].
  assert (Hs : toString x
               = string_of_list_ascii (map digit_char (rev (digits_of x)))).
  { unfold toString.
    assert (H0 : (x =? 0) = false) by (apply Z.eqb_neq; lia).
    assert (Hn : (x <? 0) = false) by (apply Z.ltb_ge; lia).
    rewrite H0, Hn. reflexivity. }
  rewrite (bruteForce_chars x _ Hs), <- map_rev, rev_involutive. split.
  - intros H. apply map_digit_char_inj in H;
      [symmetry; exact H | apply Forall_rev, Hdig | exact Hdig].
  - intros H. rewrite <- H. reflexivity.
Qed.

Lemma bruteForce_negative (x : Z) : x < 0 -> bruteForce x = false.
Proof.
  intros Hx.
  destruct (@digits_of_spec x) as (_ & Hdig & _ & Hne & _); [lia|].
  set (l := map digit_char (rev (digits_of x))).
  assert (Hs : toString x = string_of_list_ascii ("-"%char :: l)).
  { unfold toString.
    assert (H0 : (x =? 0) = false) by (apply Z.eqb_neq; lia).
    assert (Hn : (x <? 0) = true) by (apply Z.ltb_lt; lia).
    rewrite H0, Hn. reflexivity. }
  destruct (bruteForce x) eqn:Hb; [|reflexivity]. exfalso.
  apply (bruteForce_chars x _ Hs) in Hb. cbn [rev] in Hb.
  subst l. rewrite <- map_rev, rev_involutive in Hb.
  destruct (digits_of x) as [|d ds]; [congruence|].
  cbn [map app] in Hb. injection Hb as Hc _.
  apply (f_equal nat_of_ascii) in Hc.
  rewrite nat_of_digit_char in Hc by apply (Forall_inv Hdig).
  change (nat_of_ascii "-"%char) with 45%nat in Hc. lia.
Qed.

End PalindromeFacts.

(** X16: the two tests agree: on every integer from [-(2^53 - 1)] to
    [2^53 - 1], the test that reverses half of the digits returns, within
    54 turns of its loop, what the test on the reversed string returns. *)
Theorem optimized_agrees_with_bruteForce (fuel : nat) (x : Z) :
  - (2 ^ 53 - 1) <= x <= 2 ^ 53 - 1 -> (54 <= fuel)%nat ->
  Palindrome.optimized fuel x = Some (Palindrome.bruteForce x).
Proof.
  intros Hx Hfuel. unfold Palindrome.optimized.
  destruct (Z.ltb_spec x 0) as [Hneg | Hnn]; cbn [orb].
  { rewrite PalindromeFacts.bruteForce_negative by exact Hneg. reflexivity. }
  destruct (Z.eqb_spec x 0) as [-> | Hnz]; cbn [negb andb].
  { rewrite PalindromeFacts.loop_stop by lia. reflexivity. }
  assert (Hpos : 0 < x) by lia.
  destruct (@PalindromeFacts.digits_of_spec x Hnz)
    as (Hval & Hdig & Hlast & Hne & Hhd).
  rewrite Z.abs_eq in Hval, Hhd by lia.
  set (ds := Palindrome.digits_of x) in *.
  rewrite Z.rem_mod_nonneg by lia.
  destruct (Z.eqb_spec (x mod 10) 0) as [Hz | Hnz10].
  - (* a number that ends in 0 *)
    destruct (Palindrome.bruteForce x) eqn:Hb; [|reflexivity]. exfalso.
    apply PalindromeFacts.bruteForce_positive in Hb; [|exact Hpos].
    fold ds in Hb.
    assert (Hh : hd 0 ds = last ds 0).
    { rewrite Hb at 1. apply PalindromeFacts.hd_rev_last. }
    lia.
  - assert (Hlow : ds <> [] -> 0 < hd 0 ds).
    { intros _. rewrite Hhd. pose proof (Z.mod_pos_bound x 10). lia. }
    assert (Hlen : (List.length ds <= fuel)%nat).
    { subst ds. unfold Palindrome.digits_of.
      pose proof (PalindromeFacts.digits_length
                    (S (Z.to_nat (Z.log2 (Z.abs x)))) (Z.abs x)) as Hl.
      assert (Hlog : Z.log2 (Z.abs x) < 53).
      { apply Z.log2_lt_pow2; lia. }
      pose proof (Z.log2_nonneg (Z.abs x)). lia. }
    destruct (@PalindromeFacts.loop_correct
                ds Hdig Hlow (fun _ => Hlast) ds [] fuel)
      as (r & Hrun & Hiff); [reflexivity | simpl; lia | exact Hlen |].
    rewrite Hval in Hrun. change (Palindrome.value []) with 0 in Hrun.
    rewrite Hrun. destruct r as [x' half]. f_equal.
    unfold Palindrome.verdict in Hiff. cbn [fst snd] in Hiff.
    pose proof (PalindromeFacts.bruteForce_positive Hpos) as Hbf.
    fold ds in Hbf.
    destruct ((x' =? half) || (x' =? half / 10)),
             (Palindrome.bruteForce x); try reflexivity.
    + symmetry. apply Hbf, Hiff. reflexivity.
    + apply Hiff, Hbf. reflexivity.
Qed.

Lemma optimized_agrees_with_bruteForce_witness :
  Palindrome.optimized 54 1234321 = Some (Palindrome.bruteForce 1234321).
Proof.
  apply optimized_agrees_with_bruteForce; [lia | lia].
Defined.
